(** * A shallow embedding of the fuzzbench trial runner (experiment/runner.py)

  The runner supervises one fuzzing trial: it prepares the seed corpus,
  launches the fuzzer, and periodically archives the part of the output
  corpus that changed since the previous archive.

  The development is organised as follows.
  - [Paths], [FS]: path values and a tree model of the file system.
  - [Glob]: shell patterns as [fnmatch] and [glob] read them.
  - [Py]: the monad in which the runner is written: world passing with
    Python exceptions (a raised exception keeps the effects that happened
    before it), with the [os] / [os.path] / [glob] / [shutil] primitives
    the runner calls.
  - [Resolver], [Seeds], [Archiver], [Scheduler], [SeedSources],
    [Supervisor]: the functions of runner.py and what is proved of them.

  Modelling conventions.
  - A path is kept split into its components; a component is a plain file
    name (never empty, [.] or [..]) in ASCII.  A path is absolute or relative to the
    working directory, so [os.path.abspath] is modelled and
    [os.path.normpath] is the identity.  The falsy arguments [None] and the
    empty string are modelled by [None : option path].
  - The file system is a tree of directories and regular files; symbolic
    links and special files are outside the model.  The order of the
    entries of a directory is the order in which [os.scandir] lists them.
  - Time stamps ([st_mtime], [time.time()]) are integers (clock ticks);
    the runner only compares, adds and subtracts them.  The initial
    watermark [-float('inf')] is a separate constructor.
  - The fuzzer thread is sequentialised: the runner's loop is run for the
    number of iterations during which the thread was alive. *)

From Stdlib Require Import List String Ascii ZArith Bool Lia Arith.
From Stdlib Require Import Permutation Sorted.
From Stdlib Require DecimalString DecimalNat.
Import ListNotations.
Local Open Scope string_scope.
Local Open Scope list_scope.

Set Warnings "-register-all".

(* ================================================================== *)
(** * Paths *)
(* ================================================================== *)

Module Paths.

(** A location: the components below the root of the file system. *)
Definition loc := list string.

Inductive path :=
| Abs (cs : loc)      (* /c1/c2/...  *)
| Rel (cs : loc).     (* c1/c2/..., relative to the working directory *)

Definition comps (p : path) : loc :=
  match p with Abs cs => cs | Rel cs => cs end.

(** [os.path.join(p, name)] for a plain name. *)
Definition os_path_join (p : path) (name : string) : path :=
  match p with
  | Abs cs => Abs (cs ++ [name])
  | Rel cs => Rel (cs ++ [name])
  end.

(** [p] extended by several components. *)
Definition path_app (p : path) (l : loc) : path :=
  match p with
  | Abs cs => Abs (cs ++ l)
  | Rel cs => Rel (cs ++ l)
  end.

(** [os.path.abspath(p)] in working directory [cwd]. *)
Definition abspath_in (cwd : loc) (p : path) : path :=
  match p with
  | Abs cs => Abs cs
  | Rel cs => Abs (cwd ++ cs)
  end.

(** The location a path denotes. *)
Definition locate (cwd : loc) (p : path) : loc :=
  comps (abspath_in cwd p).

(** The text of a path, as Python holds it. *)
Definition render (p : path) : string :=
  match p with
  | Abs cs => "/" ++ String.concat "/" cs
  | Rel [] => "."
  | Rel cs => String.concat "/" cs
  end.

Definition loc_eqb (a b : loc) : bool :=
  if list_eq_dec string_dec a b then true else false.

Definition path_eqb (p q : path) : bool :=
  match p, q with
  | Abs a, Abs b => loc_eqb a b
  | Rel a, Rel b => loc_eqb a b
  | _, _ => false
  end.

(** [s.startswith('.')] *)
Definition hidden (name : string) : bool := String.prefix "." name.

(** [os.path.relpath(p, start)] when [start] is a prefix of [p] (the only
    use in the runner); [None] stands for the other cases. *)
Fixpoint strip_prefix (start p : loc) : option loc :=
  match start, p with
  | [], _ => Some p
  | s :: start', c :: p' =>
      if String.eqb s c then strip_prefix start' p' else None
  | _ :: _, [] => None
  end.

Definition relpath_in (cwd : loc) (p start : path) : option path :=
  option_map Rel (strip_prefix (locate cwd start) (locate cwd p)).

(** ** [sorted] on a list of paths: order of the rendered strings *)

Definition path_leb (p q : path) : bool := String.leb (render p) (render q).

Fixpoint insert_sorted (p : path) (l : list path) : list path :=
  match l with
  | [] => [p]
  | q :: l' => if path_leb p q then p :: l else q :: insert_sorted p l'
  end.

Definition sorted (l : list path) : list path :=
  fold_right insert_sorted [] l.

Lemma loc_eqb_eq a b : loc_eqb a b = true <-> a = b.
Proof.
  unfold loc_eqb. destruct (list_eq_dec string_dec a b); split; congruence.
Qed.

Lemma loc_eqb_refl a : loc_eqb a a = true.
Proof. now apply loc_eqb_eq. Qed.

Lemma path_eqb_eq p q : path_eqb p q = true <-> p = q.
Proof.
  destruct p, q; simpl; rewrite ?loc_eqb_eq; split; congruence.
Qed.

Lemma abspath_in_idem cwd p :
  abspath_in cwd (abspath_in cwd p) = abspath_in cwd p.
Proof. now destruct p. Qed.

Lemma abspath_in_join cwd p n :
  abspath_in cwd (os_path_join p n) = os_path_join (abspath_in cwd p) n.
Proof. destruct p; simpl; now rewrite <- ?app_assoc. Qed.

Lemma locate_join cwd p n :
  locate cwd (os_path_join p n) = locate cwd p ++ [n].
Proof. unfold locate. rewrite abspath_in_join. now destruct p. Qed.

Lemma locate_abs cwd cs : locate cwd (Abs cs) = cs.
Proof. reflexivity. Qed.

Lemma strip_prefix_app a b : strip_prefix a (a ++ b) = Some b.
Proof.
  induction a as [|x a IH]; simpl; [reflexivity|].
  now rewrite String.eqb_refl.
Qed.

Lemma strip_prefix_inv a p r : strip_prefix a p = Some r -> p = a ++ r.
Proof.
  revert p; induction a as [|x a IH]; intros [|c p]; simpl; try congruence.
  destruct (String.eqb_spec x c); [|discriminate].
  intros H. apply IH in H. now subst.
Qed.

Lemma insert_sorted_perm p l : Permutation (p :: l) (insert_sorted p l).
Proof.
  induction l as [|q l IH]; simpl; [reflexivity|].
  destruct (path_leb p q); [reflexivity|].
  rewrite perm_swap. now constructor.
Qed.

Lemma sorted_perm l : Permutation l (sorted l).
Proof.
  induction l as [|p l IH]; simpl; [constructor|].
  rewrite <- insert_sorted_perm. now constructor.
Qed.

Lemma sorted_In l p : In p (sorted l) <-> In p l.
Proof.
  split; apply Permutation_in; [symmetry|]; apply sorted_perm.
Qed.

End Paths.
Export Paths.

(* ================================================================== *)
(** * The file system *)
(* ================================================================== *)

Module FS.

Inductive node :=
| File (mtime : Z) (data : list Byte.byte)
| Dir (entries : list (string * node)).

Definition is_dir_node (n : node) : bool :=
  match n with Dir _ => true | File _ _ => false end.

Definition is_file_node (n : node) : bool :=
  match n with File _ _ => true | Dir _ => false end.

Fixpoint find_entry (name : string) (es : list (string * node)) : option node :=
  match es with
  | [] => None
  | (n, ch) :: es' => if String.eqb n name then Some ch else find_entry name es'
  end.

(** The node found by walking down from [root] along [l]. *)
Fixpoint node_at (root : node) (l : loc) : option node :=
  match l with
  | [] => Some root
  | c :: l' =>
      match root with
      | Dir es =>
          match find_entry c es with
          | Some ch => node_at ch l'
          | None => None
          end
      | File _ _ => None
      end
  end.

Definition isdir_at (root : node) (l : loc) : bool :=
  match node_at root l with Some (Dir _) => true | _ => false end.

Definition isfile_at (root : node) (l : loc) : bool :=
  match node_at root l with Some (File _ _) => true | _ => false end.

Definition exists_at (root : node) (l : loc) : bool :=
  match node_at root l with Some _ => true | None => false end.

(** The entries of the directory at [l], in listing order. *)
Definition entries_at (root : node) (l : loc) : option (list (string * node)) :=
  match node_at root l with
  | Some (Dir es) => Some es
  | _ => None
  end.

Definition names_where (f : node -> bool) (es : list (string * node)) : list string :=
  map fst (filter (fun e => f (snd e)) es).

(** [os.walk(top)] on a tree that is not modified during the walk: the
    triples (dirpath, dirnames, filenames), top-down. *)
Fixpoint walk (top : path) (n : node) : list (path * list string * list string) :=
  match n with
  | File _ _ => []
  | Dir es =>
      (top, names_where is_dir_node es, names_where is_file_node es)
      :: (fix below (l : list (string * node)) :=
            match l with
            | [] => []
            | (name, ch) :: l' => walk (os_path_join top name) ch ++ below l'
            end) es
  end.

(** ** Changing one entry of one directory *)

(** The entries [es] with the entry named [name] set to [v]: deleted for
    [None], replaced where it stands or added at the end for [Some]. *)
Fixpoint set_entry (name : string) (v : option node) (es : list (string * node))
  : list (string * node) :=
  match es with
  | [] => match v with Some n => [(name, n)] | None => [] end
  | (n, ch) :: es' =>
      if String.eqb n name
      then match v with Some new => (n, new) :: es' | None => es' end
      else (n, ch) :: set_entry name v es'
  end.

(** The tree [root] with entry [name] of the directory at [l] set to [v];
    the tree itself when [l] is no directory. *)
Fixpoint set_at (root : node) (l : loc) (name : string) (v : option node) : node :=
  match root with
  | File _ _ => root
  | Dir es =>
      match l with
      | [] => Dir (set_entry name v es)
      | c :: l' =>
          match find_entry c es with
          | Some ch => Dir (set_entry c (Some (set_at ch l' name v)) es)
          | None => root
          end
      end
  end.

(** The tree [root] with a directory at [l]: the directories along [l] that
    are missing are made; [None] when a file stands in the way. *)
Fixpoint make_dirs (l : loc) (root : node) : option node :=
  match root with
  | File _ _ => None
  | Dir es =>
      match l with
      | [] => Some root
      | c :: l' =>
          let child := match find_entry c es with
                       | Some ch => ch
                       | None => Dir []
                       end in
          option_map (fun child' => Dir (set_entry c (Some child') es))
                     (make_dirs l' child)
      end
  end.

(** The height of a tree: a bound on how deep a walk descends. *)
Fixpoint height (n : node) : nat :=
  match n with
  | File _ _ => 0
  | Dir es =>
      S ((fix tallest (l : list (string * node)) : nat :=
            match l with
            | [] => 0
            | (_, ch) :: l' => Nat.max (height ch) (tallest l')
            end) es)
  end.

(** Each name of a directory occurs once. *)
Inductive wf_node : node -> Prop :=
| wf_File m d : wf_node (File m d)
| wf_Dir es :
    NoDup (map fst es) ->
    Forall (fun e => wf_node (snd e)) es ->
    wf_node (Dir es).

Lemma find_entry_In name es ch :
  find_entry name es = Some ch -> In (name, ch) es.
Proof.
induction es as [|[n c] es IH]; simpl; [discriminate|].
destruct (String.eqb_spec n name).
- intros [= ->]. subst. now left.
- intros H. right. now apply IH.
Qed.

Lemma In_find_entry name es ch :
  NoDup (map fst es) -> In (name, ch) es -> find_entry name es = Some ch.
Proof.
induction es as [|[n c] es IH]; simpl; [tauto|].
intros Hnd [H|H].
- injection H as -> ->. now rewrite String.eqb_refl.
- inversion Hnd as [|? ? Hn Hnd']; subst.
  destruct (String.eqb_spec n name) as [->|_].
  + exfalso. apply Hn. change name with (fst (name, ch)). now apply in_map.
  + now apply IH.
Qed.

Lemma node_at_app root a b :
  node_at root (a ++ b) =
  match node_at root a with Some n => node_at n b | None => None end.
Proof.
revert root. induction a as [|c a IH]; intros root; simpl; [reflexivity|].
destruct root as [|es]; [reflexivity|].
destruct (find_entry c es); [apply IH|reflexivity].
Qed.

Lemma wf_node_at root l n :
  wf_node root -> node_at root l = Some n -> wf_node n.
Proof.
revert root. induction l as [|c l IH]; intros root Hwf; simpl.
- now intros [= <-].
- destruct root as [|es]; [discriminate|].
  destruct (find_entry c es) as [ch|] eqn:E; [|discriminate].
  apply IH. inversion Hwf as [|? _ Hall]; subst.
  rewrite Forall_forall in Hall.
  now apply (Hall (c, ch)), find_entry_In.
Qed.

(** Induction over a tree, with the hypothesis for every entry of a
    directory. *)
Fixpoint node_induction (P : node -> Prop)
    (HFile : forall m d, P (File m d))
    (HDir : forall es, Forall (fun e => P (snd e)) es -> P (Dir es))
    (n : node) : P n :=
  match n with
  | File m d => HFile m d
  | Dir es =>
      HDir es
        ((fix all (l : list (string * node)) : Forall (fun e => P (snd e)) l :=
            match l with
            | [] => Forall_nil _
            | e :: l' =>
                Forall_cons e
                  (match e as e0 return P (snd e0) with
                   | (_, ch) => node_induction P HFile HDir ch
                   end)
                  (all l')
            end) es)
  end.

(** The paths of the files a walk of [n] from [top] lists. *)
Definition files_below (top : path) (n : node) : list path :=
  flat_map (fun t => map (os_path_join (fst (fst t))) (snd t)) (walk top n).

Lemma walk_Dir top es :
  walk top (Dir es)
  = (top, names_where is_dir_node es, names_where is_file_node es)
    :: flat_map (fun e => walk (os_path_join top (fst e)) (snd e)) es.
Proof.
simpl. f_equal.
induction es as [|[name ch] es IH]; [reflexivity|].
simpl. now rewrite IH.
Qed.

Lemma files_below_Dir top es :
  files_below top (Dir es)
  = map (os_path_join top) (names_where is_file_node es)
    ++ flat_map (fun e => files_below (os_path_join top (fst e)) (snd e)) es.
Proof.
unfold files_below. rewrite walk_Dir. simpl. f_equal.
induction es as [|e es IH]; [reflexivity|].
simpl. now rewrite flat_map_app, IH.
Qed.

Lemma path_app_join top name rest :
  path_app (os_path_join top name) rest = path_app top (name :: rest).
Proof. destruct top; simpl; now rewrite <- app_assoc. Qed.

Lemma path_app_one top name : path_app top [name] = os_path_join top name.
Proof. now destruct top. Qed.

Lemma locate_path_app cwd top rest :
  locate cwd (path_app top rest) = locate cwd top ++ rest.
Proof. destruct top; simpl; unfold locate; simpl; now rewrite ?app_assoc. Qed.

Lemma In_names_where f name es :
  In name (names_where f es) <-> exists ch, In (name, ch) es /\ f ch = true.
Proof.
unfold names_where. rewrite in_map_iff. split.
- intros ([n ch] & <- & H). apply filter_In in H as [H1 H2]. now exists ch.
- intros (ch & H1 & H2). exists (name, ch). split; [reflexivity|].
  now apply filter_In.
Qed.

(** On a well-formed tree a walk lists exactly the files below its top. *)
Lemma files_below_spec n :
  wf_node n ->
  forall top q,
    In q (files_below top n) <->
    exists rest m d,
      rest <> [] /\ q = path_app top rest /\ node_at n rest = Some (File m d).
Proof.
induction n as [m0 d0|es IH] using node_induction; intros Hwf top q.
- split; [contradiction|].
  intros ([|c rest] & m & d & Hne & _ & H); [congruence|discriminate].
- inversion Hwf as [|? Hnd Hall]; subst.
  rewrite files_below_Dir, in_app_iff, in_map_iff, in_flat_map.
  rewrite Forall_forall in IH, Hall. split.
  + intros [(name & <- & Hname)|([name ch] & Hin & Hq)].
    * apply In_names_where in Hname as (ch & Hin & Hf).
      destruct ch as [m d|]; [|discriminate].
      exists [name], m, d. split; [discriminate|]. split.
      { now rewrite path_app_one. }
      simpl. now rewrite (In_find_entry name es (File m d)).
    * simpl in Hq. apply (IH _ Hin (Hall _ Hin)) in Hq
        as (rest & m & d & Hne & -> & Hat).
      exists (name :: rest), m, d. split; [discriminate|]. split.
      { apply path_app_join. }
      simpl. now rewrite (In_find_entry name es ch).
  + intros ([|c rest] & m & d & Hne & -> & Hat); [congruence|].
    simpl in Hat. destruct (find_entry c es) as [ch|] eqn:E; [|discriminate].
    apply find_entry_In in E.
    destruct rest as [|c' rest'].
    * left. exists c. split; [now rewrite path_app_one|].
      apply In_names_where. exists ch. split; [exact E|].
      simpl in Hat. now injection Hat as ->.
    * right. exists (c, ch). split; [exact E|].
      simpl fst; simpl snd. apply (IH _ E (Hall _ E)).
      exists (c' :: rest'), m, d. split; [discriminate|]. split; [|exact Hat].
      symmetry. apply path_app_join.
Qed.

(** ** The flat view of a tree: what is at a location *)

Inductive kind :=
| KDir
| KFile (data : list Byte.byte).

Definition kind_of (n : node) : kind :=
  match n with
  | Dir _ => KDir
  | File _ d => KFile d
  end.

Definition kind_at (root : node) (l : loc) : option kind :=
  option_map kind_of (node_at root l).

Lemma isdir_at_kind root l :
  isdir_at root l = true <-> kind_at root l = Some KDir.
Proof.
unfold isdir_at, kind_at.
destruct (node_at root l) as [[m d|es]|]; simpl; split; congruence.
Qed.

Lemma kind_at_file root l d :
  kind_at root l = Some (KFile d) <-> exists m, node_at root l = Some (File m d).
Proof.
unfold kind_at.
destruct (node_at root l) as [[m d'|es]|]; simpl; split;
  try congruence; try (intros [m' H]; congruence).
- intros [= ->]. now exists m.
Qed.

(** Below a file or a missing entry there is nothing. *)
Lemma kind_at_below root l x rest :
  kind_at root (l ++ x :: rest) <> None -> kind_at root l = Some KDir.
Proof.
unfold kind_at. rewrite node_at_app.
destruct (node_at root l) as [[m d|es]|]; simpl; congruence.
Qed.

Lemma find_entry_set_entry x name v es :
  NoDup (map fst es) ->
  find_entry x (set_entry name v es)
  = if String.eqb x name then v else find_entry x es.
Proof.
induction es as [|[n ch] es IH]; intros Hnd.
- simpl. destruct v as [new|]; simpl.
  + rewrite (String.eqb_sym name x). now destruct (String.eqb x name).
  + now destruct (String.eqb x name).
- inversion Hnd as [|? ? Hn Hnd']; subst. cbn [set_entry find_entry].
  destruct (String.eqb_spec n name) as [->|Hne].
  + rewrite (String.eqb_sym name x).
    destruct (String.eqb_spec x name) as [->|Hx].
    * destruct v as [new|]; cbn [find_entry].
      -- now rewrite String.eqb_refl.
      -- destruct (find_entry name es) as [c|] eqn:E; [|reflexivity].
         exfalso. apply Hn. apply find_entry_In in E.
         change name with (fst (name, c)). now apply in_map.
    * destruct v as [new|]; cbn [find_entry]; [|reflexivity].
      rewrite (String.eqb_sym name x).
      now destruct (String.eqb_spec x name).
  + cbn [find_entry]. rewrite IH by assumption.
    destruct (String.eqb_spec n x) as [->|Hnx]; [|reflexivity].
    destruct (String.eqb_spec x name); [contradiction|reflexivity].
Qed.

Lemma set_entry_names name v es x :
  In x (map fst (set_entry name v es)) -> x = name \/ In x (map fst es).
Proof.
induction es as [|[n ch] es IH]; simpl.
- destruct v; simpl; intuition.
- destruct (String.eqb_spec n name) as [->|Hne].
  + destruct v; simpl; intuition.
  + simpl. intros [H|H]; [tauto|]. apply IH in H. tauto.
Qed.

Lemma set_entry_NoDup name v es :
  NoDup (map fst es) -> NoDup (map fst (set_entry name v es)).
Proof.
induction es as [|[n ch] es IH]; intros Hnd; simpl.
- destruct v; simpl; repeat constructor. tauto.
- inversion Hnd as [|? ? Hn Hnd']; subst.
  destruct (String.eqb_spec n name) as [->|Hne].
  + destruct v; simpl; [now constructor|assumption].
  + simpl. constructor; [|now apply IH].
    intros H. apply set_entry_names in H as [H|H]; congruence.
Qed.

Lemma set_entry_wf name v es :
  (forall n, v = Some n -> wf_node n) ->
  Forall (fun e => wf_node (snd e)) es ->
  Forall (fun e => wf_node (snd e)) (set_entry name v es).
Proof.
intros Hv. induction es as [|[n ch] es IH]; intros Hall; simpl.
- destruct v; constructor; [|constructor]. now apply Hv.
- inversion Hall as [|? ? Hch Hes]; subst.
  destruct (String.eqb n name).
  + destruct v; [|assumption]. constructor; [|assumption]. now apply Hv.
  + constructor; [assumption|now apply IH].
Qed.

Lemma set_at_wf l : forall root name v,
  wf_node root -> (forall n, v = Some n -> wf_node n) ->
  wf_node (set_at root l name v).
Proof.
induction l as [|c l IH]; intros root name v Hwf Hv;
  destruct root as [m d|es]; simpl; try assumption;
  inversion Hwf as [|? Hnd Hall]; subst.
- constructor; [now apply set_entry_NoDup|now apply set_entry_wf].
- destruct (find_entry c es) as [ch|] eqn:E; [|assumption].
  constructor; [now apply set_entry_NoDup|].
  apply set_entry_wf; [|assumption].
  intros n [= <-]. apply IH; [|assumption].
  rewrite Forall_forall in Hall. now apply (Hall (c, ch)), find_entry_In.
Qed.

(** Setting the entry at [l ++ [name]] to a file, or deleting it, where no
    directory stood, changes what is at that location and nothing else. *)
Lemma kind_at_set_at l : forall root name v q,
  wf_node root ->
  isdir_at root l = true ->
  isdir_at root (l ++ [name]) = false ->
  (forall n, v = Some n -> is_file_node n = true) ->
  kind_at (set_at root l name v) q
  = if loc_eqb q (l ++ [name]) then option_map kind_of v else kind_at root q.
Proof.
induction l as [|c l IH]; intros root name v q Hwf Hdir Hold Hv;
  destruct root as [m d|es]; try discriminate;
  inversion Hwf as [|? Hnd Hall]; subst.
- cbn [set_at app]. destruct q as [|x q'].
  + reflexivity.
  + unfold kind_at. cbn [node_at]. rewrite find_entry_set_entry by assumption.
    unfold isdir_at in Hold. cbn [node_at app] in Hold.
    destruct (String.eqb_spec x name) as [->|Hx].
    * destruct q' as [|y q''].
      -- rewrite loc_eqb_refl. now destruct v.
      -- assert (Hne : loc_eqb (name :: y :: q'') [name] = false).
         { apply not_true_is_false. rewrite loc_eqb_eq. congruence. }
         rewrite Hne.
         assert (Hafter : match v with
                          | Some ch => node_at ch (y :: q'')
                          | None => None
                          end = None).
         { destruct v as [n|]; [|reflexivity].
           specialize (Hv n eq_refl). now destruct n. }
         rewrite Hafter.
         destruct (find_entry name es) as [[m d|es']|]; try reflexivity.
         discriminate.
    * assert (Hne : loc_eqb (x :: q') [name] = false).
      { apply not_true_is_false. rewrite loc_eqb_eq. congruence. }
      now rewrite Hne.
- cbn [set_at app]. unfold isdir_at in Hdir, Hold. cbn [node_at app] in Hdir, Hold.
  destruct (find_entry c es) as [ch|] eqn:E; [|discriminate].
  assert (Hch : wf_node ch).
  { rewrite Forall_forall in Hall. now apply (Hall (c, ch)), find_entry_In. }
  destruct q as [|x q'].
  + reflexivity.
  + unfold kind_at. cbn [node_at]. rewrite find_entry_set_entry by assumption.
    destruct (String.eqb_spec x c) as [->|Hx].
    * fold (kind_at (set_at ch l name v) q'). rewrite IH; try assumption.
      rewrite E. fold (kind_at ch q').
      assert (Heq : loc_eqb (c :: q') (c :: l ++ [name]) = loc_eqb q' (l ++ [name])).
      { destruct (loc_eqb q' (l ++ [name])) eqn:E2.
        - apply loc_eqb_eq in E2. subst. apply loc_eqb_refl.
        - apply not_true_is_false. rewrite loc_eqb_eq. intros [= H].
          rewrite H, loc_eqb_refl in E2. discriminate. }
      now rewrite Heq.
    * assert (Hne : loc_eqb (x :: q') (c :: l ++ [name]) = false).
      { apply not_true_is_false. rewrite loc_eqb_eq. congruence. }
      now rewrite Hne.
Qed.

(** ** What a listing shows *)

Lemma listed_kind root top es x (f : node -> bool) :
  wf_node root ->
  entries_at root top = Some es ->
  In x (names_where f es) <->
  exists n, node_at root (top ++ [x]) = Some n /\ f n = true.
Proof.
intros Hwf Hes. unfold entries_at in Hes.
destruct (node_at root top) as [[m d|es']|] eqn:E; try discriminate.
injection Hes as ->.
assert (Hwf' : wf_node (Dir es)) by exact (wf_node_at root top _ Hwf E).
inversion Hwf' as [|? Hnd _]; subst.
rewrite In_names_where, node_at_app, E. cbn [node_at].
split.
- intros (ch & Hin & Hf). exists ch.
  now rewrite (In_find_entry x es ch Hnd Hin).
- intros (n & Hn & Hf). exists n. split; [|exact Hf].
  destruct (find_entry x es) as [ch|] eqn:Ex; [|discriminate].
  injection Hn as ->. now apply find_entry_In.
Qed.

Lemma names_where_NoDup f es :
  NoDup (map fst es) -> NoDup (names_where f es).
Proof.
unfold names_where. induction es as [|[n ch] es IH]; intros Hnd; simpl.
- constructor.
- inversion Hnd as [|? ? Hn Hnd']; subst.
  destruct (f ch); simpl; [|now apply IH].
  constructor; [|now apply IH].
  intros H. apply Hn. apply in_map_iff in H as ([n' c'] & Heq & Hin).
  apply filter_In in Hin as [Hin _]. simpl in Heq. subst n'.
  change n with (fst (n, c')). now apply in_map.
Qed.

(** ** Heights *)

Definition height_at (root : node) (l : loc) : nat :=
  match node_at root l with
  | Some n => height n
  | None => 0
  end.

Lemma height_entry es name ch :
  find_entry name es = Some ch -> height ch < height (Dir es).
Proof.
cbn [height]. induction es as [|[n c] es IH]; simpl; [discriminate|].
destruct (String.eqb n name).
- intros [= ->]. lia.
- intros H. specialize (IH H). lia.
Qed.

Lemma height_at_child root l name :
  isdir_at root (l ++ [name]) = true ->
  height_at root (l ++ [name]) < height_at root l.
Proof.
unfold isdir_at, height_at. rewrite node_at_app.
destruct (node_at root l) as [[m d|es]|]; cbn [node_at]; try discriminate.
destruct (find_entry name es) as [ch|] eqn:E; [|discriminate].
intros _. exact (height_entry es name ch E).
Qed.

Lemma height_at_le root l : height_at root l <= height root.
Proof.
unfold height_at. revert root.
induction l as [|c l IH]; intros root; simpl; [lia|].
destruct root as [m d|es]; [simpl; lia|].
destruct (find_entry c es) as [ch|] eqn:E; [|lia].
specialize (IH ch). apply height_entry in E. lia.
Qed.

(** The contents of all files of a tree. *)
Fixpoint contents (n : node) : list (list Byte.byte) :=
  match n with
  | File _ d => [d]
  | Dir es =>
      (fix all (l : list (string * node)) : list (list Byte.byte) :=
         match l with
         | [] => []
         | (_, ch) :: l' => contents ch ++ all l'
         end) es
  end.

Lemma contents_Dir es :
  contents (Dir es) = flat_map (fun e => contents (snd e)) es.
Proof.
cbn [contents]. induction es as [|[n ch] es IH]; [reflexivity|].
simpl. now rewrite IH.
Qed.

Lemma kind_at_contents l : forall root d,
  kind_at root l = Some (KFile d) -> In d (contents root).
Proof.
induction l as [|c l IH]; intros root d.
- unfold kind_at. simpl. destruct root; simpl; [|discriminate].
  intros [= ->]. now left.
- unfold kind_at. cbn [node_at]. destruct root as [m d0|es]; [discriminate|].
  destruct (find_entry c es) as [ch|] eqn:E; [|discriminate].
  intros H. rewrite contents_Dir. apply in_flat_map.
  exists (c, ch). split; [now apply find_entry_In|]. now apply IH.
Qed.

(** A decision procedure for [wf_node]. *)
Fixpoint nodupb (l : list string) : bool :=
  match l with
  | [] => true
  | x :: l' => negb (existsb (String.eqb x) l') && nodupb l'
  end.

Fixpoint wf_check (n : node) : bool :=
  match n with
  | File _ _ => true
  | Dir es =>
      nodupb (map fst es)
      && (fix all (l : list (string * node)) : bool :=
            match l with
            | [] => true
            | (_, ch) :: l' => wf_check ch && all l'
            end) es
  end.

Lemma nodupb_NoDup l : nodupb l = true -> NoDup l.
Proof.
induction l as [|x l IH]; simpl; [constructor|].
intros H. apply andb_true_iff in H as [Hx Hl].
constructor; [|now apply IH].
intros Hin. apply negb_true_iff in Hx.
assert (existsb (String.eqb x) l = true); [|congruence].
apply existsb_exists. exists x. split; [exact Hin|apply String.eqb_refl].
Qed.

Lemma wf_check_sound n : wf_check n = true -> wf_node n.
Proof.
induction n as [m d|es IH] using node_induction; [constructor|].
cbn [wf_check]. intros H. apply andb_true_iff in H as [Hnd Hall].
constructor; [now apply nodupb_NoDup|].
induction es as [|[name ch] es IHes]; [constructor|].
inversion IH as [|? ? Hch Hes]; subst.
apply andb_true_iff in Hall as [H1 H2].
simpl in Hnd. apply andb_true_iff in Hnd as [_ Hnd].
constructor; [now apply Hch|now apply IHes].
Qed.

(** ** A walk lists every file once *)

Lemma path_app_inj top a b : path_app top a = path_app top b -> a = b.
Proof. destruct top; cbn; intros [= H]; now apply app_inv_head in H. Qed.

Lemma NoDup_flat_map_disjoint {A B} (f : A -> list B) (l : list A) :
  NoDup l ->
  (forall x, In x l -> NoDup (f x)) ->
  (forall x y q, In x l -> In y l -> In q (f x) -> In q (f y) -> x = y) ->
  NoDup (flat_map f l).
Proof.
induction l as [|x l IH]; intros Hnd Hf Hdis; cbn [flat_map]; [constructor|].
inversion Hnd as [|? ? Hx Hl]; subst.
apply NoDup_app.
- apply Hf. now left.
- apply IH; [exact Hl| |].
  + intros y Hy. apply Hf. now right.
  + intros y z q Hy Hz. apply Hdis; now right.
- intros q Hq Hq'. apply in_flat_map in Hq' as (y & Hy & Hqy).
  assert (x = y) by (apply (Hdis x y q); auto; [now left|now right]).
  subst y. contradiction.
Qed.

Lemma NoDup_entries (es : list (string * node)) :
  NoDup (map fst es) -> NoDup es.
Proof. apply NoDup_map_inv. Qed.

Lemma files_below_form n top q :
  wf_node n -> In q (files_below top n) ->
  exists x rest, q = path_app top (x :: rest).
Proof.
intros Hwf Hq. apply (files_below_spec n Hwf) in Hq
  as ([|x rest] & m & d & Hne & -> & _); [congruence|].
now exists x, rest.
Qed.

Lemma files_below_NoDup n :
  wf_node n -> forall top, NoDup (files_below top n).
Proof.
induction n as [m d|es IH] using node_induction; intros Hwf top.
- constructor.
- inversion Hwf as [|? Hnd Hall]; subst.
  rewrite Forall_forall in IH, Hall.
  rewrite files_below_Dir. apply NoDup_app.
  + (* the files of this directory *)
    pose proof (names_where_NoDup is_file_node es Hnd) as Hnames.
    induction (names_where is_file_node es) as [|f fs IHf]; [constructor|].
    inversion Hnames as [|? ? Hf Hfs]; subst. cbn [map]. constructor.
    * intros Hin. apply in_map_iff in Hin as (g & Heq & Hg).
      rewrite <- !path_app_one in Heq. apply path_app_inj in Heq.
      injection Heq as ->. contradiction.
    * now apply IHf.
  + (* the files further down *)
    apply NoDup_flat_map_disjoint.
    * now apply NoDup_entries.
    * intros e He. apply (IH e He). now apply Hall.
    * intros [n1 c1] [n2 c2] q H1 H2 Hq1 Hq2. cbn [fst snd] in *.
      apply files_below_form in Hq1 as (x1 & r1 & ->); [|now apply (Hall _ H1)].
      apply files_below_form in Hq2 as (x2 & r2 & Heq); [|now apply (Hall _ H2)].
      rewrite !path_app_join in Heq. apply path_app_inj in Heq.
      injection Heq as -> _ _.
      apply (In_find_entry _ _ _ Hnd) in H1.
      apply (In_find_entry _ _ _ Hnd) in H2. congruence.
  + (* no file is both *)
    intros q Hq Hq'. apply in_map_iff in Hq as (f & <- & _).
    apply in_flat_map in Hq' as ([n c] & He & Hq'). cbn [fst snd] in Hq'.
    apply files_below_form in Hq' as (x & r & Heq); [|now apply (Hall _ He)].
    rewrite path_app_join, <- path_app_one in Heq.
    apply path_app_inj in Heq. discriminate.
Qed.

(** ** Setting an entry, in general *)

(** What stands at the entry that was set, and below it. *)
Lemma node_at_set_at_here l : forall root name v rest,
  wf_node root ->
  isdir_at root l = true ->
  node_at (set_at root l name v) ((l ++ [name]) ++ rest)
  = match v with Some n => node_at n rest | None => None end.
Proof.
induction l as [|c l IH]; intros root name v rest Hwf Hdir;
  destruct root as [m d|es]; try discriminate;
  inversion Hwf as [|? Hnd Hall]; subst.
- cbn [set_at app node_at]. rewrite find_entry_set_entry by assumption.
  now rewrite String.eqb_refl.
- unfold isdir_at in Hdir. cbn [node_at] in Hdir. cbn [set_at app node_at].
  destruct (find_entry c es) as [ch|] eqn:E; [|discriminate].
  cbn [node_at]. rewrite find_entry_set_entry by assumption.
  rewrite String.eqb_refl. apply IH; [|exact Hdir].
  rewrite Forall_forall in Hall. now apply (Hall (c, ch)), find_entry_In.
Qed.

(** Everything that is not at the entry or below it keeps its kind. *)
Lemma kind_at_set_at_other l : forall root name v q,
  wf_node root ->
  (forall rest, q <> (l ++ [name]) ++ rest) ->
  kind_at (set_at root l name v) q = kind_at root q.
Proof.
induction l as [|c l IH]; intros root name v q Hwf Hq;
  destruct root as [m d|es]; try reflexivity;
  inversion Hwf as [|? Hnd Hall]; subst.
- cbn [set_at]. destruct q as [|x q']; [reflexivity|].
  unfold kind_at. cbn [node_at]. rewrite find_entry_set_entry by assumption.
  destruct (String.eqb_spec x name) as [->|Hx]; [|reflexivity].
  exfalso. now apply (Hq q').
- cbn [set_at]. destruct (find_entry c es) as [ch|] eqn:E; [|reflexivity].
  destruct q as [|x q']; [reflexivity|].
  unfold kind_at. cbn [node_at]. rewrite find_entry_set_entry by assumption.
  destruct (String.eqb_spec x c) as [->|Hx]; [|reflexivity].
  rewrite E. apply IH.
  + rewrite Forall_forall in Hall. now apply (Hall (c, ch)), find_entry_In.
  + intros rest Heq. apply (Hq rest). cbn [app]. now rewrite Heq.
Qed.

(** [q] is strictly below [top]. *)
Definition strictly_below (top q : loc) : Prop :=
  exists x rest, q = top ++ x :: rest.

Lemma strictly_below_app top t x rest :
  strictly_below top ((top ++ t) ++ x :: rest).
Proof.
destruct t as [|y t].
- exists x, rest. now rewrite app_nil_r.
- exists y, (t ++ x :: rest). now rewrite <- app_assoc.
Qed.

Lemma not_below_other top t name q :
  ~ strictly_below top q ->
  forall rest, q <> ((top ++ t) ++ [name]) ++ rest.
Proof.
intros Hq rest ->. apply Hq.
rewrite <- app_assoc. cbn [app]. apply strictly_below_app.
Qed.

End FS.
Export FS.

(* ================================================================== *)
(** * Shell patterns: [fnmatch] and [glob] *)
(* ================================================================== *)

Module Glob.

(** ** [fnmatch.translate] and matching

    The pattern is translated as the library does it, into the pieces of a
    regular expression, and a name matches when the whole of it matches the
    pieces. *)

Definition text := list ascii.

Definition code_gt (c d : ascii) : bool := (N_of_ascii d <? N_of_ascii c)%N.

Definition code_le (c d : ascii) : bool := (N_of_ascii c <=? N_of_ascii d)%N.

(** One element of the regular expression that [fnmatch.translate] builds. *)
Inductive piece :=
| Star                                       (* .*   *)
| AnyChar                                    (* .    *)
| Never                                      (* (?!) *)
| Literal (c : ascii)
| CharSet (negated : bool) (singles : text) (ranges : list (ascii * ascii)).

(** [s.find(c, k)]: the index of the first [c] at or after index [k]. *)
Fixpoint find_from (c : ascii) (s : text) (k : nat) : option nat :=
  match s with
  | [] => None
  | x :: s' =>
      match k with
      | O => if Ascii.eqb x c then Some 0 else option_map S (find_from c s' 0)
      | S k' => option_map S (find_from c s' k')
      end
  end.

(** [s[i:k]] *)
Definition slice (s : text) (i k : nat) : text := firstn (k - i) (skipn i s).

Definition starts_with (c : ascii) (s : text) : bool :=
  match s with
  | x :: _ => Ascii.eqb x c
  | [] => false
  end.

(** The loop that cuts [stuff], the text between the brackets, at the
    hyphens that make ranges: from index [i], looking for the next hyphen
    from index [k] on.  With the chunks comes the index at which the text
    after the last such hyphen starts. *)
Fixpoint cut_chunks (fuel : nat) (stuff : text) (i k : nat) : list text * nat :=
  match fuel with
  | O => ([], i)
  | S fuel' =>
      match find_from "-" stuff k with
      | Some k' =>
          let (chunks, i') := cut_chunks fuel' stuff (k' + 1) (k' + 3) in
          (slice stuff i k' :: chunks, i')
      | None => ([], i)
      end
  end.

(** [chunks[-1] += c] *)
Fixpoint append_to_last (chunks : list text) (c : ascii) : list text :=
  match chunks with
  | [] => []
  | [x] => [x ++ [c]]
  | x :: chunks' => x :: append_to_last chunks' c
  end.

(** One step of the removal of empty ranges: the chunk [a] in front of the
    chunks already treated. *)
Definition join_chunk (a : text) (treated : list text) : list text :=
  match treated with
  | [] => [a]
  | b :: rest =>
      if code_gt (last a "000"%char) (hd "000"%char b)
      then (removelast a ++ tl b) :: rest
      else a :: treated
  end.

(** The chunks of [stuff] between which a hyphen makes a range. *)
Definition chunks_of (stuff : text) : list text :=
  if negb (existsb (Ascii.eqb "-") stuff) then [stuff]
  else
    let k := if starts_with "!" stuff then 2 else 1 in
    let (chunks, i) := cut_chunks (List.length stuff) stuff 0 k in
    let chunks :=
      match skipn i stuff with
      | [] => append_to_last chunks "-"
      | chunk => chunks ++ [chunk]
      end in
    fold_right join_chunk [] chunks.

(** The characters of the set as the parser of regular expressions reads
    them: a character (escaped where it has to be), or the hyphen between
    two chunks. *)
Inductive token :=
| Ch (c : ascii)
| Hyphen.

Fixpoint tokens_of (chunks : list text) : list token :=
  match chunks with
  | [] => []
  | [x] => map Ch x
  | x :: chunks' => map Ch x ++ Hyphen :: tokens_of chunks'
  end.

Definition token_char (t : token) : ascii :=
  match t with Ch c => c | Hyphen => "-"%char end.

(** The members of the set: single characters and ranges. *)
Fixpoint read_set (fuel : nat) (ts : list token) : text * list (ascii * ascii) :=
  match fuel with
  | O => ([], [])
  | S fuel' =>
      match ts with
      | [] => ([], [])
      | this :: Hyphen :: [] => ([token_char this; "-"%char], [])
      | this :: Hyphen :: that :: ts' =>
          let (singles, ranges) := read_set fuel' ts' in
          (singles, (token_char this, token_char that) :: ranges)
      | this :: ts' =>
          let (singles, ranges) := read_set fuel' ts' in
          (token_char this :: singles, ranges)
      end
  end.

(** What [stuff] stands for. *)
Definition set_of (stuff : text) : piece :=
  match tokens_of (chunks_of stuff) with
  | [] => Never
  | [Ch "!"%char] => AnyChar
  | Ch "!"%char :: ts =>
      let (singles, ranges) := read_set (List.length ts) ts in
      CharSet true singles ranges
  | ts =>
      let (singles, ranges) := read_set (List.length ts) ts in
      CharSet false singles ranges
  end.

(** Where the set that opens before [rest] closes: the index of the closing
    bracket in [rest], when there is one. *)
Definition closing (rest : text) : option nat :=
  let j := if starts_with "!" rest then 1 else 0 in
  let j := if starts_with "]" (skipn j rest) then S j else j in
  find_from "]" rest j.

(** [fnmatch.translate(pat)] *)
Fixpoint translate (fuel : nat) (pat : text) : list piece :=
  match fuel with
  | O => []
  | S fuel' =>
      match pat with
      | [] => []
      | c :: rest =>
          if Ascii.eqb c "*" then Star :: translate fuel' rest
          else if Ascii.eqb c "?" then AnyChar :: translate fuel' rest
          else if Ascii.eqb c "[" then
            match closing rest with
            | None => Literal "[" :: translate fuel' rest
            | Some j =>
                set_of (firstn j rest) :: translate fuel' (skipn (S j) rest)
            end
          else Literal c :: translate fuel' rest
      end
  end.

Definition in_range (c : ascii) (r : ascii * ascii) : bool :=
  code_le (fst r) c && code_le c (snd r).

Definition accepts (p : piece) (c : ascii) : bool :=
  match p with
  | Star | AnyChar => true
  | Never => false
  | Literal d => Ascii.eqb c d
  | CharSet negated singles ranges =>
      xorb negated (existsb (Ascii.eqb c) singles || existsb (in_range c) ranges)
  end.

(** Whether the whole of [s] matches the pieces. *)
Fixpoint matches (ps : list piece) (s : text) : bool :=
  match ps with
  | [] => match s with [] => true | _ => false end
  | Star :: ps' =>
      (fix from (s : text) : bool :=
         matches ps' s || match s with [] => false | _ :: s' => from s' end) s
  | p :: ps' =>
      match s with
      | [] => false
      | c :: s' => accepts p c && matches ps' s'
      end
  end.

(** [fnmatch.fnmatchcase(name, pat)] *)
Definition fnmatch (name pat : string) : bool :=
  let pat := list_ascii_of_string pat in
  matches (translate (List.length pat) pat) (list_ascii_of_string name).

Example fnmatch_samples :
  map (fun c => fnmatch (fst c) (snd c))
      [("out1", "out[1]"); ("out[1]", "out[1]"); ("out[1]", "out[[]1]");
       ("ab", "a?"); (".afl", "*"); ("a-c", "a[!b-z]c"); ("b", "[z-a]");
       ("!", "[!]"); ("x", "[!]]"); ("a", "[]a]")]
  = [true; false; true; true; true; true; false; false; true; true].
Proof. reflexivity. Qed.

(** ** [glob] *)

Definition is_magic (c : ascii) : bool :=
  Ascii.eqb c "*" || Ascii.eqb c "?" || Ascii.eqb c "[".

(** [glob.has_magic(s)] *)
Definition has_magic (s : string) : bool :=
  existsb is_magic (list_ascii_of_string s).

(** [_glob1(dirname, pattern, dironly)]: the names in the directory at
    [dir] that match [pattern]; none when [dir] cannot be listed. *)
Definition glob1 (fs : node) (dir : loc) (pattern : string) (dironly : bool)
  : list string :=
  let names :=
    match entries_at fs dir with
    | Some es =>
        map fst (filter (fun e => negb dironly || is_dir_node (snd e)) es)
    | None => []
    end in
  let names :=
    if hidden pattern then names
    else filter (fun x => negb (hidden x)) names in
  filter (fun name => fnmatch name pattern) names.

(** [_glob0(dirname, basename)] *)
Definition glob0 (fs : node) (dir : loc) (basename : string) : list string :=
  if exists_at fs (dir ++ [basename]) then [basename] else [].

(** [_iglob(pathname, dironly)] for the pattern whose components are
    [rev_pattern], last component first.  [base] is where the pattern
    starts from: the root for an absolute pattern, the working directory
    for a relative one. *)
Fixpoint iglob (fs : node) (base : loc) (dironly : bool) (rev_pattern : list string)
  : list loc :=
  match rev_pattern with
  | [] => [[]]
  | basename :: rev_dirname =>
      let dirs :=
        if existsb has_magic rev_dirname
        then iglob fs base true rev_dirname
        else [rev rev_dirname] in
      flat_map (fun dirname =>
                  map (fun name => dirname ++ [name])
                      (if has_magic basename
                       then glob1 fs (base ++ dirname) basename dironly
                       else glob0 fs (base ++ dirname) basename))
               dirs
  end.

(** [glob.glob(pattern)] *)
Definition glob (fs : node) (base : loc) (pattern : list string) : list loc :=
  iglob fs base false (rev pattern).

(** ** Without magic characters *)

Lemma matches_star s : matches [Star] s = true.
Proof.
cbn [matches]. induction s as [|c s IH]; [reflexivity|].
cbn [matches orb]. exact IH.
Qed.

Lemma fnmatch_star name : fnmatch name "*" = true.
Proof. unfold fnmatch. cbn. apply matches_star. Qed.

Lemma filter_all {A} (f : A -> bool) (l : list A) :
  (forall x, f x = true) -> filter f l = l.
Proof.
intros H. induction l as [|x l IH]; cbn; [reflexivity|]. now rewrite H, IH.
Qed.

(** The names [*] matches in a directory: those without a leading dot. *)
Lemma glob1_star fs dir :
  glob1 fs dir "*" false
  = match entries_at fs dir with
    | Some es => filter (fun x => negb (hidden x)) (map fst es)
    | None => []
    end.
Proof.
unfold glob1. cbn [hidden String.prefix negb orb].
rewrite (filter_all (fun name => fnmatch name "*")) by apply fnmatch_star.
destruct (entries_at fs dir) as [es|]; [|reflexivity].
now rewrite (filter_all (fun _ => true)).
Qed.

Lemma existsb_rev {A} (f : A -> bool) (l : list A) :
  existsb f (rev l) = existsb f l.
Proof.
induction l as [|x l IH]; [reflexivity|].
cbn [rev existsb]. rewrite existsb_app, IH. cbn. now rewrite orb_false_r, orb_comm.
Qed.

(** In a directory whose path has no magic character, [dir/*] matches the
    entries of the directory whose name has no leading dot. *)
Lemma glob_star_plain fs base dir :
  existsb has_magic dir = false ->
  glob fs base (dir ++ ["*"])
  = map (fun name => dir ++ [name])
        match entries_at fs (base ++ dir) with
        | Some es => filter (fun x => negb (hidden x)) (map fst es)
        | None => []
        end.
Proof.
intros Hplain. unfold glob. rewrite rev_app_distr. cbn [rev app iglob].
rewrite existsb_rev, Hplain, rev_involutive.
change (has_magic "*") with true. cbv iota. cbn [flat_map].
now rewrite app_nil_r, glob1_star.
Qed.

End Glob.
Export Glob.

(* ================================================================== *)
(** * Worlds, exceptions and the monad of runner code *)
(* ================================================================== *)

Module Py.

(** The exception classes the runner meets; all derive from [Exception]. *)
Inductive exn :=
| OSError               (* with FileNotFoundError, shutil.Error, ... *)
| KeyError
| TypeError
| ValueError
| CalledProcessError    (* subprocess.CalledProcessError *)
| OtherException.

Definition is_OSError (e : exn) : bool :=
  match e with OSError => true | _ => false end.

Definition is_CalledProcessError (e : exn) : bool :=
  match e with CalledProcessError => true | _ => false end.

(** [-float('inf')] and the finite time stamps. *)
Inductive stamp :=
| NegInf
| At (t : Z).

Definition stamp_leb (a b : stamp) : bool :=
  match a, b with
  | NegInf, _ => true
  | At _, NegInf => false
  | At x, At y => (x <=? y)%Z
  end.

Definition stamp_max (a b : stamp) : stamp :=
  if stamp_leb a b then b else a.

Lemma stamp_leb_refl a : stamp_leb a a = true.
Proof. destruct a; simpl; [reflexivity|apply Z.leb_refl]. Qed.

Lemma stamp_leb_trans a b c :
  stamp_leb a b = true -> stamp_leb b c = true -> stamp_leb a c = true.
Proof.
destruct a, b, c; simpl; try congruence.
rewrite !Z.leb_le. lia.
Qed.

Lemma stamp_leb_antisym a b :
  stamp_leb a b = true -> stamp_leb b a = true -> a = b.
Proof.
destruct a, b; simpl; try congruence.
rewrite !Z.leb_le. intros. f_equal. lia.
Qed.

Lemma stamp_leb_total a b : stamp_leb a b = false -> stamp_leb b a = true.
Proof.
destruct a, b; simpl; try congruence.
rewrite Z.leb_gt, Z.leb_le. lia.
Qed.

Lemma stamp_max_ge_l a b : stamp_leb a (stamp_max a b) = true.
Proof.
unfold stamp_max. destruct (stamp_leb a b) eqn:E; [exact E|apply stamp_leb_refl].
Qed.

Lemma stamp_max_ge_r a b : stamp_leb b (stamp_max a b) = true.
Proof.
unfold stamp_max. destruct (stamp_leb a b) eqn:E;
  [apply stamp_leb_refl|now apply stamp_leb_total].
Qed.

Lemma fold_stamp_max_ge l : forall a, stamp_leb a (fold_left stamp_max l a) = true.
Proof.
induction l as [|b l IH]; intros a; simpl; [apply stamp_leb_refl|].
eapply stamp_leb_trans; [apply stamp_max_ge_l|apply IH].
Qed.

(** A member of a tar archive: the name it is stored under and the file. *)
Record member := Member {
  arcname : path;
  member_mtime : Z;
  member_data : list Byte.byte
}.

Inductive level := DEBUG | INFO | WARNING | ERROR.

Inductive log_arg :=
| AInt (z : Z)
| APath (p : path)
| AText (s : string)
| AMoves (l : list (path * path)).

Record log_record := Log {
  log_level : level;
  log_message : string;
  log_args : list log_arg
}.

(** What the runner does to the outside, newest first. *)
Inductive event :=
| Slept (seconds : Z)                                   (* time.sleep *)
| Copied (archive : path) (content : list member) (dst : string)
                                                        (* filestore_utils.cp *)
| Fetched (src : string) (dst : path)                   (* filestore_utils.cp,
                                                           into the tree *)
| Rsynced (src : path) (dst : string)                   (* filestore_utils.rsync *)
| RemoteRemoved (dst : string)                          (* filestore_utils.rm *)
| Executed (input output target : path) (timeout : option Z)
           (sanitized : bool) (status : Z).             (* new_process.execute *)

(** The environment variables the runner reads ([environment.get] gives
    [None] for an unset variable; flags are read for their truth value). *)
Record environ := Environ {
  FUZZER : string;
  BENCHMARK : string;
  FUZZ_OUTSIDE_EXPERIMENT : bool;
  NO_SEEDS : bool;
  OUTPUT_CORPUS_DIR : option path;
  SEED_CORPUS_DIR : option path;
  MAX_TOTAL_TIME : option Z;
  RUNNER_NICENESS : Z;
  TRIAL_ID : option Z;
  MICRO_EXPERIMENT : bool;
  CUSTOM_SEED_CORPUS_DIR : bool;
  OSS_FUZZ_CORPUS : bool;
  TRIAL_GROUP_NUM : Z                       (* 0 when unset *)
}.

(** The attributes of a [TrialRunner]. *)
Record runner := Runner {
  gcs_sync_dir : option string;
  cycle : nat;
  output_corpus : option path;
  corpus_archives_dir : path;
  results_dir : path;
  log_file : path;
  last_sync_time : option Z;
  last_archive_time : stamp
}.

Record world := World {
  w_fs : node;                              (* the file tree *)
  w_cwd : loc;                              (* os.getcwd() *)
  w_env : environ;                          (* os.environ *)
  w_clock : Z;                              (* time.time() *)
  w_faults : list (option exn);             (* fate of the next fallible
                                               external operations *)
  w_fuzz_status : Z;                        (* the status the fuzz process
                                               exits with, once run *)
  w_logs : list log_record;                 (* newest first *)
  w_archives : list (path * list member);   (* tar files being written,
                                               kept apart from [w_fs] *)
  w_events : list event;                    (* newest first *)
  fuzzer_errored_out : bool;                (* the module-level flag *)
  w_self : runner                           (* the TrialRunner instance *)
}.

Definition set_fs (fs : node) (w : world) : world :=
  World fs (w_cwd w) (w_env w) (w_clock w) (w_faults w) (w_fuzz_status w)
        (w_logs w) (w_archives w) (w_events w) (fuzzer_errored_out w) (w_self w).

Definition set_clock (t : Z) (w : world) : world :=
  World (w_fs w) (w_cwd w) (w_env w) t (w_faults w) (w_fuzz_status w)
        (w_logs w) (w_archives w) (w_events w) (fuzzer_errored_out w) (w_self w).

Definition set_faults (f : list (option exn)) (w : world) : world :=
  World (w_fs w) (w_cwd w) (w_env w) (w_clock w) f (w_fuzz_status w)
        (w_logs w) (w_archives w) (w_events w) (fuzzer_errored_out w) (w_self w).

Definition add_log (r : log_record) (w : world) : world :=
  World (w_fs w) (w_cwd w) (w_env w) (w_clock w) (w_faults w) (w_fuzz_status w)
        (r :: w_logs w) (w_archives w) (w_events w) (fuzzer_errored_out w)
        (w_self w).

Definition set_archives (a : list (path * list member)) (w : world) : world :=
  World (w_fs w) (w_cwd w) (w_env w) (w_clock w) (w_faults w) (w_fuzz_status w)
        (w_logs w) a (w_events w) (fuzzer_errored_out w) (w_self w).

Definition add_event (e : event) (w : world) : world :=
  World (w_fs w) (w_cwd w) (w_env w) (w_clock w) (w_faults w) (w_fuzz_status w)
        (w_logs w) (w_archives w) (e :: w_events w) (fuzzer_errored_out w)
        (w_self w).

Definition set_errored (b : bool) (w : world) : world :=
  World (w_fs w) (w_cwd w) (w_env w) (w_clock w) (w_faults w) (w_fuzz_status w)
        (w_logs w) (w_archives w) (w_events w) b (w_self w).

Definition set_self (r : runner) (w : world) : world :=
  World (w_fs w) (w_cwd w) (w_env w) (w_clock w) (w_faults w) (w_fuzz_status w)
        (w_logs w) (w_archives w) (w_events w) (fuzzer_errored_out w) r.

(** The outcome of a call: a value, a raised exception, or [Diverge] when a
    bounded traversal of the model ran out of steps. *)
Inductive result (A : Type) :=
| Ok (a : A)
| Raise (e : exn)
| Diverge.
Arguments Ok {A} a.
Arguments Raise {A} e.
Arguments Diverge {A}.

Definition M (A : Type) : Type := world -> result A * world.

Definition ret {A} (a : A) : M A := fun w => (Ok a, w).

Definition raise {A} (e : exn) : M A := fun w => (Raise e, w).

Definition bind {A B} (c : M A) (k : A -> M B) : M B :=
  fun w =>
    match c w with
    | (Ok a, w') => k a w'
    | (Raise e, w') => (Raise e, w')
    | (Diverge, w') => (Diverge, w')
    end.

Definition diverge {A} : M A := fun w => (Diverge, w).

(** [try: c  except <classes accepted by handles>: h] *)
Definition try_except {A} (c : M A) (handles : exn -> bool) (h : exn -> M A) : M A :=
  fun w =>
    match c w with
    | (Raise e, w') => if handles e then h e w' else (Raise e, w')
    | r => r
    end.

Definition any_exception (e : exn) : bool := true.

Definition gets {A} (f : world -> A) : M A := fun w => (Ok (f w), w).

Definition modify (f : world -> world) : M unit := fun w => (Ok tt, f w).

Declare Scope py_scope.
Delimit Scope py_scope with py.
Notation "x <- c ;; k" := (bind c (fun x => k))
  (at level 61, c at next level, right associativity) : py_scope.
Notation "c ;; k" := (bind c (fun _ => k))
  (at level 61, right associativity) : py_scope.
Local Open Scope py_scope.

(** [for x in l: body x] *)
Fixpoint for_each {A} (l : list A) (body : A -> M unit) : M unit :=
  match l with
  | [] => ret tt
  | x :: l' => body x ;; for_each l' body
  end.

(** A [for] loop whose body may [return] a value: the loop stops at the
    first [Some]. *)
Fixpoint for_return {A B} (l : list A) (body : A -> M (option B)) : M (option B) :=
  match l with
  | [] => ret None
  | x :: l' =>
      r <- body x ;;
      match r with
      | Some b => ret (Some b)
      | None => for_return l' body
      end
  end.

(** A generator that yields from [body x] for each [x] of [l], read to its
    end. *)
Fixpoint for_yield {A B} (l : list A) (body : A -> M (list B)) : M (list B) :=
  match l with
  | [] => ret []
  | x :: l' => ys <- body x ;; zs <- for_yield l' body ;; ret (ys ++ zs)
  end.

(** [any(test x for x in l)], evaluated lazily. *)
Fixpoint any_of {A} (l : list A) (test : A -> M bool) : M bool :=
  match l with
  | [] => ret false
  | x :: l' => b <- test x ;; if b then ret true else any_of l' test
  end.

(** ** Logging *)

Definition logs_debug (msg : string) (args : list log_arg) : M unit :=
  modify (add_log (Log DEBUG msg args)).
Definition logs_info (msg : string) (args : list log_arg) : M unit :=
  modify (add_log (Log INFO msg args)).
Definition logs_warning (msg : string) (args : list log_arg) : M unit :=
  modify (add_log (Log WARNING msg args)).
Definition logs_error (msg : string) (args : list log_arg) : M unit :=
  modify (add_log (Log ERROR msg args)).

(** ** The [os] and [os.path] calls that only read *)

Definition os_path_abspath (p : path) : M path :=
  gets (fun w => abspath_in (w_cwd w) p).

Definition os_path_isdir (p : path) : M bool :=
  gets (fun w => isdir_at (w_fs w) (locate (w_cwd w) p)).

Definition os_path_exists (p : path) : M bool :=
  gets (fun w => exists_at (w_fs w) (locate (w_cwd w) p)).

(** [os.scandir(p)]: the entries with their names; [OSError] when [p] is
    not a directory. *)
Definition os_scandir (p : path) : M (list (string * node)) :=
  fun w =>
    match entries_at (w_fs w) (locate (w_cwd w) p) with
    | Some es => (Ok es, w)
    | None => (Raise OSError, w)
    end.

(** [glob.glob(os.path.join(p, '*'))]: what the pattern [p/*] matches.  The
    characters [*], [?] and [[] in [p] itself are part of the pattern. *)
Definition glob_star (p : path) : M (list path) :=
  gets (fun w =>
    match p with
    | Abs cs => map Abs (glob (w_fs w) [] (cs ++ ["*"]))
    | Rel cs => map Rel (glob (w_fs w) (w_cwd w) (cs ++ ["*"]))
    end).

(** [os.walk(top)], when the tree is not modified while it is walked. *)
Definition os_walk (top : path) : M (list (path * list string * list string)) :=
  gets (fun w =>
    match node_at (w_fs w) (locate (w_cwd w) top) with
    | Some n => walk top n
    | None => []
    end).

(** [os.stat(p).st_mtime]; [OSError] when nothing is at [p].  Directories
    carry no time stamp in the model; the runner only stats what a walk
    listed as a file. *)
Definition os_stat_mtime (p : path) : M Z :=
  fun w =>
    match node_at (w_fs w) (locate (w_cwd w) p) with
    | Some (File m _) => (Ok m, w)
    | Some (Dir _) => (Ok 0%Z, w)
    | None => (Raise OSError, w)
    end.

(** ** The calls that change the tree *)

Fixpoint split_last (l : loc) : option (loc * string) :=
  match l with
  | [] => None
  | x :: l' =>
      match split_last l' with
      | None => Some ([], x)
      | Some (parent, name) => Some (x :: parent, name)
      end
  end.

(** [os.path.basename(p)] *)
Definition os_path_basename (p : path) : string :=
  match split_last (comps p) with
  | Some (_, name) => name
  | None => ""
  end.

(** [s.endswith('/')] *)
Fixpoint ends_with_slash (s : string) : bool :=
  match s with
  | EmptyString => false
  | String c EmptyString => Ascii.eqb c "/"
  | String _ s' => ends_with_slash s'
  end.

(** [posixpath.join(a, b)] *)
Definition posixpath_join (a b : string) : string :=
  if String.prefix "/" b then b
  else if String.eqb a "" || ends_with_slash a then (a ++ b)%string
  else (a ++ "/" ++ b)%string.

(** [os.path.getsize(p)]; directories have no size in the model. *)
Definition os_path_getsize (p : path) : M Z :=
  fun w =>
    match node_at (w_fs w) (locate (w_cwd w) p) with
    | Some (File _ data) => (Ok (Z.of_nat (List.length data)), w)
    | Some (Dir _) => (Ok 0%Z, w)
    | None => (Raise OSError, w)
    end.

(** [os.remove(p)]: [p] must be a file. *)
Definition os_remove (p : path) : M unit :=
  fun w =>
    let l := locate (w_cwd w) p in
    match node_at (w_fs w) l, split_last l with
    | Some (File _ _), Some (parent, name) =>
        (Ok tt, set_fs (set_at (w_fs w) parent name None) w)
    | _, _ => (Raise OSError, w)
    end.

(** [os.rename(src, dst)] for a file [src]: [dst] is replaced when it is a
    file; it must not be a directory and its parent must be one. *)
Definition os_rename (src dst : path) : M unit :=
  fun w =>
    let s := locate (w_cwd w) src in
    let d := locate (w_cwd w) dst in
    match node_at (w_fs w) s, split_last s, split_last d with
    | Some (File m data), Some (sparent, sname), Some (dparent, dname) =>
        if isdir_at (w_fs w) d then (Raise OSError, w)
        else if negb (isdir_at (w_fs w) dparent) then (Raise OSError, w)
        else if loc_eqb s d then (Ok tt, w)
        else (Ok tt,
              set_fs (set_at (set_at (w_fs w) sparent sname None)
                             dparent dname (Some (File m data))) w)
    | _, _, _ => (Raise OSError, w)
    end.

(** [shutil.move(src, dst)] for a file [src].  When [os.rename] fails,
    [shutil.move] falls back on copying, which fails for the same reasons
    on a single file system. *)
Definition shutil_move (src dst : path) : M unit :=
  is_d <- os_path_isdir dst ;;
  if is_d then
    let real_dst := os_path_join dst (os_path_basename src) in
    taken <- os_path_exists real_dst ;;
    if taken then raise OSError      (* shutil.Error: destination exists *)
    else os_rename src real_dst
  else os_rename src dst.

(** [shutil.rmtree(p)] *)
Definition shutil_rmtree (p : path) : M unit :=
  fun w =>
    let l := locate (w_cwd w) p in
    match node_at (w_fs w) l, split_last l with
    | Some (Dir _), Some (parent, name) =>
        (Ok tt, set_fs (set_at (w_fs w) parent name None) w)
    | _, _ => (Raise OSError, w)
    end.

(** [os.mkdir(p)] *)
Definition os_mkdir (p : path) : M unit :=
  fun w =>
    let l := locate (w_cwd w) p in
    match node_at (w_fs w) l, split_last l with
    | None, Some (parent, name) =>
        if isdir_at (w_fs w) parent
        then (Ok tt, set_fs (set_at (w_fs w) parent name (Some (Dir []))) w)
        else (Raise OSError, w)
    | _, _ => (Raise OSError, w)
    end.

(** [os.makedirs(p, exist_ok=True)] *)
Definition os_makedirs (p : path) : M unit :=
  fun w =>
    match make_dirs (locate (w_cwd w) p) (w_fs w) with
    | Some fs' => (Ok tt, set_fs fs' w)
    | None => (Raise OSError, w)
    end.

Lemma split_last_app parent name : split_last (parent ++ [name]) = Some (parent, name).
Proof.
induction parent as [|x parent IH]; simpl; [reflexivity|]. now rewrite IH.
Qed.

Lemma split_last_some (l : loc) :
  l <> [] -> exists parent name, l = parent ++ [name].
Proof.
intros H. destruct (exists_last H) as (parent & name & ->). eauto.
Qed.

(** ** Time *)

Definition time_time : M Z := gets w_clock.

(** [time.sleep(seconds)]: [ValueError] for a negative argument. *)
Definition time_sleep (seconds : Z) : M unit :=
  if (seconds <? 0)%Z then raise ValueError
  else modify (fun w => add_event (Slept seconds)
                          (set_clock (w_clock w + seconds) w)).

(** ** Fallible external operations

    An operation outside the runner's control (remote storage, creating a
    file in the staging directory, ...) consults the next entry of
    [w_faults]: [Some e] makes it raise [e]. *)
Definition external : M unit :=
  fun w =>
    match w_faults w with
    | Some e :: rest => (Raise e, set_faults rest w)
    | _ => (Ok tt, set_faults (tl (w_faults w)) w)
    end.

(** An operation of the operating system (opening a file, starting a
    process): a scheduled failure is an [OSError]. *)
Definition external_io : M unit :=
  fun w =>
    match w_faults w with
    | Some _ :: rest => (Raise OSError, set_faults rest w)
    | _ => (Ok tt, set_faults (tl (w_faults w)) w)
    end.

(** No failure is scheduled for the next [n] external operations. *)
Definition calm (n : nat) (w : world) : Prop :=
  forall e, ~ In (Some e) (firstn n (w_faults w)).

(** ** Running a sequence *)

Lemma bind_ok {A B} (c : M A) (k : A -> M B) w a w' :
  c w = (Ok a, w') -> bind c k w = k a w'.
Proof. unfold bind. now intros ->. Qed.

Lemma bind_raise {A B} (c : M A) (k : A -> M B) w e w' :
  c w = (Raise e, w') -> bind c k w = (Raise e, w').
Proof. unfold bind. now intros ->. Qed.

Lemma bind_gets {A B} (f : world -> A) (k : A -> M B) w :
  bind (gets f) k w = k (f w) w.
Proof. reflexivity. Qed.

Lemma bind_ret {A B} (a : A) (k : A -> M B) w :
  bind (ret a) k w = k a w.
Proof. reflexivity. Qed.

Lemma external_calm n w :
  calm (S n) w ->
  external w = (Ok tt, set_faults (tl (w_faults w)) w)
  /\ calm n (set_faults (tl (w_faults w)) w).
Proof.
unfold calm, external. intros H.
destruct (w_faults w) as [|[e|] rest] eqn:E; simpl in *.
- split; [reflexivity|]. intros e. now destruct n.
- exfalso. apply (H e). now left.
- split; [reflexivity|]. intros e He. apply (H e). now right.
Qed.

Lemma external_step w :
  (exists e rest, w_faults w = Some e :: rest
                  /\ external w = (Raise e, set_faults rest w))
  \/ (hd None (w_faults w) = None
      /\ external w = (Ok tt, set_faults (tl (w_faults w)) w)).
Proof.
unfold external. destruct (w_faults w) as [|[e|] rest]; simpl; eauto.
Qed.

Lemma bind_modify {B} (f : world -> world) (k : unit -> M B) w :
  bind (modify f) k w = k tt (f w).
Proof. reflexivity. Qed.

(** ** What a computation leaves unchanged

    [keeps P c]: the world [c] ends in is related by [P] to the world it
    started in, whatever the outcome.  [total c]: [c] never runs out of
    steps. *)

Definition keeps {A} (P : world -> world -> Prop) (c : M A) : Prop :=
  forall w, P w (snd (c w)).

Definition total {A} (c : M A) : Prop :=
  forall w, fst (c w) <> Diverge.

Section Frames.

Variable P : world -> world -> Prop.
Hypothesis P_refl : forall w, P w w.
Hypothesis P_trans : forall a b c, P a b -> P b c -> P a c.

Lemma keeps_ret {A} (a : A) : keeps P (ret a).
Proof. intros w. apply P_refl. Qed.

Lemma keeps_raise {A} e : keeps P (@raise A e).
Proof. intros w. apply P_refl. Qed.

Lemma keeps_diverge {A} : keeps P (@diverge A).
Proof. intros w. apply P_refl. Qed.

Lemma keeps_gets {A} (f : world -> A) : keeps P (gets f).
Proof. intros w. apply P_refl. Qed.

Lemma keeps_modify f : (forall w, P w (f w)) -> keeps P (modify f).
Proof. intros H w. apply H. Qed.

Lemma keeps_bind {A B} (c : M A) (k : A -> M B) :
  keeps P c -> (forall a, keeps P (k a)) -> keeps P (bind c k).
Proof.
intros Hc Hk w. unfold bind. specialize (Hc w).
destruct (c w) as [[a|e|] w1]; simpl in *; try assumption.
apply (P_trans _ w1); [assumption|apply Hk].
Qed.

Lemma keeps_try_except {A} (c : M A) handles h :
  keeps P c -> (forall e, keeps P (h e)) -> keeps P (try_except c handles h).
Proof.
intros Hc Hh w. unfold try_except. specialize (Hc w).
destruct (c w) as [[a|e|] w1]; simpl in *; try assumption.
destruct (handles e); simpl; [|assumption].
apply (P_trans _ w1); [assumption|apply Hh].
Qed.

Lemma keeps_for_each {A} (l : list A) body :
  (forall x, keeps P (body x)) -> keeps P (for_each l body).
Proof.
intros Hb. induction l as [|x l IH]; simpl; [apply keeps_ret|].
apply keeps_bind; [apply Hb|intros _; exact IH].
Qed.

Lemma keeps_for_yield {A B} (l : list A) (body : A -> M (list B)) :
  (forall x, keeps P (body x)) -> keeps P (for_yield l body).
Proof.
intros Hb. induction l as [|x l IH]; simpl; [apply keeps_ret|].
apply keeps_bind; [apply Hb|intros ys].
apply keeps_bind; [exact IH|intros zs; apply keeps_ret].
Qed.

Lemma keeps_for_return {A B} (l : list A) (body : A -> M (option B)) :
  (forall x, keeps P (body x)) -> keeps P (for_return l body).
Proof.
intros Hb. induction l as [|x l IH]; simpl; [apply keeps_ret|].
apply keeps_bind; [apply Hb|intros [b|]]; [apply keeps_ret|exact IH].
Qed.

Lemma keeps_any_of {A} (l : list A) (test : A -> M bool) :
  (forall x, keeps P (test x)) -> keeps P (any_of l test).
Proof.
intros Hb. induction l as [|x l IH]; simpl; [apply keeps_ret|].
apply keeps_bind; [apply Hb|intros [|]]; [apply keeps_ret|exact IH].
Qed.

(** A sequence either gets past its first part, or ends with it. *)
Lemma bind_inv {A B} (c : M A) (k : A -> M B) w r w' :
  keeps P c ->
  bind c k w = (r, w') ->
  (exists a w1, P w w1 /\ k a w1 = (r, w'))
  \/ (P w w' /\ forall b, r <> Ok b).
Proof.
intros Hc. unfold bind. specialize (Hc w).
destruct (c w) as [[a|e|] w1]; simpl in Hc.
- intros H. left. now exists a, w1.
- intros [= <- <-]. right. split; [assumption|discriminate].
- intros [= <- <-]. right. split; [assumption|discriminate].
Qed.

(** A computation that only reads. *)
Lemma keeps_reads {A} (c : M A) : (forall w, snd (c w) = w) -> keeps P c.
Proof. intros H w. rewrite H. apply P_refl. Qed.

End Frames.

Lemma total_ret {A} (a : A) : total (ret a).
Proof. intros w. discriminate. Qed.

Lemma total_raise {A} e : total (@raise A e).
Proof. intros w. discriminate. Qed.

Lemma total_gets {A} (f : world -> A) : total (gets f).
Proof. intros w. discriminate. Qed.

Lemma total_modify f : total (modify f).
Proof. intros w. discriminate. Qed.

Lemma total_external : total external.
Proof. intros w. unfold external. destruct (w_faults w) as [|[e|] l]; discriminate. Qed.

Lemma total_bind {A B} (c : M A) (k : A -> M B) :
  total c -> (forall a, total (k a)) -> total (bind c k).
Proof.
intros Hc Hk w. unfold bind. specialize (Hc w).
destruct (c w) as [[a|e|] w1]; simpl in *;
  [apply Hk|discriminate|congruence].
Qed.

Lemma total_try_except {A} (c : M A) handles h :
  total c -> (forall e, total (h e)) -> total (try_except c handles h).
Proof.
intros Hc Hh w. unfold try_except. specialize (Hc w).
destruct (c w) as [[a|e|] w1]; simpl in *; [discriminate| |congruence].
destruct (handles e); [apply Hh|discriminate].
Qed.

Lemma total_for_each {A} (l : list A) body :
  (forall x, total (body x)) -> total (for_each l body).
Proof.
intros Hb. induction l as [|x l IH]; simpl; [apply total_ret|].
apply total_bind; [apply Hb|intros _; exact IH].
Qed.

Lemma total_for_return {A B} (l : list A) (body : A -> M (option B)) :
  (forall x, total (body x)) -> total (for_return l body).
Proof.
intros Hb. induction l as [|x l IH]; simpl; [apply total_ret|].
apply total_bind; [apply Hb|intros [b|]]; [apply total_ret|exact IH].
Qed.

Lemma total_reads {A} (c : M A) (f : world -> A) :
  (forall w, c w = (Ok (f w), w)) -> total c.
Proof. intros H w. now rewrite H. Qed.

(** ** Two frames

    [steady]: the cycle number, the error flag and the record of executed
    fuzz processes are as before.  [quiet]: the last two are. *)

Definition is_execution (e : event) : bool :=
  match e with
  | Executed _ _ _ _ _ _ => true
  | _ => false
  end.

Definition executions (w : world) : list event :=
  filter is_execution (w_events w).

Definition quiet (w w' : world) : Prop :=
  fuzzer_errored_out w' = fuzzer_errored_out w
  /\ executions w' = executions w.

Definition steady (w w' : world) : Prop :=
  cycle (w_self w') = cycle (w_self w) /\ quiet w w'.

Lemma quiet_refl w : quiet w w.
Proof. now split. Qed.

Lemma quiet_trans a b c : quiet a b -> quiet b c -> quiet a c.
Proof. unfold quiet. intros [] []. split; congruence. Qed.

Lemma steady_refl w : steady w w.
Proof. split; [reflexivity|apply quiet_refl]. Qed.

Lemma steady_trans a b c : steady a b -> steady b c -> steady a c.
Proof.
unfold steady. intros [H1 H2] [H3 H4].
split; [congruence|exact (quiet_trans _ _ _ H2 H4)].
Qed.

Lemma steady_quiet {A} (c : M A) : keeps steady c -> keeps quiet c.
Proof. intros H w. apply H. Qed.

Create HintDb frames.

#[global] Hint Resolve steady_refl steady_trans quiet_refl quiet_trans : frames.

(** One step of a proof that a composed computation keeps a frame or is
    total; what remains are the calls it is composed of. *)
Ltac frame_step refl trans :=
  lazymatch goal with
  | |- keeps _ (bind _ _) => apply (keeps_bind _ trans); [|intro]
  | |- keeps _ (ret _) => apply (keeps_ret _ refl)
  | |- keeps _ (raise _) => apply (keeps_raise _ refl)
  | |- keeps _ diverge => apply (keeps_diverge _ refl)
  | |- keeps _ (gets _) => apply (keeps_gets _ refl)
  | |- keeps _ (try_except _ _ _) =>
      apply (keeps_try_except _ trans); [|intro]
  | |- keeps _ (for_each _ _) => apply (keeps_for_each _ refl trans); intro
  | |- keeps _ (for_yield _ _) => apply (keeps_for_yield _ refl trans); intro
  | |- keeps _ (for_return _ _) => apply (keeps_for_return _ refl trans); intro
  | |- keeps _ (any_of _ _) => apply (keeps_any_of _ refl trans); intro
  | |- keeps _ (modify _) =>
      apply keeps_modify; intro; repeat split; reflexivity
  | |- keeps _ (match ?x with _ => _ end) => destruct x
  | |- keeps _ (let _ := _ in _) => cbv zeta
  | |- total (bind _ _) => apply total_bind; [|intro]
  | |- total (ret _) => apply total_ret
  | |- total (raise _) => apply total_raise
  | |- total (gets _) => apply total_gets
  | |- total (modify _) => apply total_modify
  | |- total external => apply total_external
  | |- total (try_except _ _ _) => apply total_try_except; [|intro]
  | |- total (for_each _ _) => apply total_for_each; intro
  | |- total (for_return _ _) => apply total_for_return; intro
  | |- total (match ?x with _ => _ end) => destruct x
  | |- total (let _ := _ in _) => cbv zeta
  end.

Ltac steady_frame :=
  repeat first [ solve [eauto with frames]
               | frame_step steady_refl steady_trans ].

(** Case analysis on a scrutinee that contains no other case analysis. *)
Ltac case_innermost :=
  match goal with
  | |- context [match ?x with _ => _ end] =>
      lazymatch x with
      | context [match _ with _ => _ end] => fail
      | _ => destruct x eqn:?
      end
  end.

(** A call that is a single step on the world. *)
Ltac one_step :=
  let w := fresh "w" in
  intro w;
  repeat match goal with
         | |- context [match ?x with _ => _ end] => destruct x
         end;
  cbn; repeat split; try reflexivity; try discriminate.

Lemma keeps_external : keeps steady external.
Proof. unfold external. one_step. Qed.

Lemma keeps_logs lvl msg args : keeps steady (modify (add_log (Log lvl msg args))).
Proof. one_step. Qed.

Lemma keeps_os_scandir p : keeps steady (os_scandir p).
Proof. unfold os_scandir. one_step. Qed.

Lemma keeps_os_stat_mtime p : keeps steady (os_stat_mtime p).
Proof. unfold os_stat_mtime. one_step. Qed.

Lemma keeps_os_path_getsize p : keeps steady (os_path_getsize p).
Proof. unfold os_path_getsize. one_step. Qed.

Lemma keeps_os_remove p : keeps steady (os_remove p).
Proof. unfold os_remove. one_step. Qed.

Lemma keeps_os_rename src dst : keeps steady (os_rename src dst).
Proof. unfold os_rename. one_step. Qed.

Lemma keeps_shutil_rmtree p : keeps steady (shutil_rmtree p).
Proof. unfold shutil_rmtree. one_step. Qed.

Lemma keeps_os_mkdir p : keeps steady (os_mkdir p).
Proof. unfold os_mkdir. one_step. Qed.

Lemma keeps_os_makedirs p : keeps steady (os_makedirs p).
Proof. unfold os_makedirs. one_step. Qed.

Lemma keeps_time_sleep d : keeps steady (time_sleep d).
Proof. unfold time_sleep, raise, modify. one_step. Qed.

Lemma total_time_sleep d : total (time_sleep d).
Proof. unfold time_sleep, raise, modify. one_step. Qed.

#[global] Hint Resolve keeps_external keeps_logs keeps_os_scandir
  keeps_os_stat_mtime keeps_os_path_getsize keeps_os_remove keeps_os_rename
  keeps_shutil_rmtree keeps_os_mkdir keeps_os_makedirs keeps_time_sleep
  total_time_sleep
  total_external : frames.

Lemma keeps_shutil_move src dst : keeps steady (shutil_move src dst).
Proof. unfold shutil_move, os_path_isdir, os_path_exists. steady_frame. Qed.

#[global] Hint Resolve keeps_shutil_move : frames.

End Py.
Export Py.
Open Scope py_scope.

(* ================================================================== *)
(** * Locating the directory the fuzzer really writes to *)
(* ================================================================== *)

Module Resolver.

Definition markers : list string :=
  ["fuzzer_stats"; "plot_data"; "cmdline"; "target_hash"].

(** [_looks_like_afl_dir(d)] *)
Definition _looks_like_afl_dir (d : path) : M bool :=
  is_d <- os_path_isdir d ;;
  if negb is_d then ret false else
  let queue_dir := os_path_join d "queue" in
  is_q <- os_path_isdir queue_dir ;;
  if negb is_q then ret false else
  strong <- any_of markers (fun m => os_path_exists (os_path_join d m)) ;;
  if strong then ret true else
  try_except
    (it <- os_scandir queue_dir ;;
     ret (existsb (fun entry => is_file_node (snd entry)
                                && negb (hidden (fst entry))) it))
    is_OSError
    (fun _ => ret false).

(** [_find_real_output_corpus_dir(output_corpus_dir)] *)
Definition _find_real_output_corpus_dir (output_corpus_dir : option path)
  : M (option path) :=
  match output_corpus_dir with
  | None => ret None
  | Some nominal =>
      output_corpus_dir <- os_path_abspath nominal ;;
      (* 1. default / main / master *)
      r <- for_return ["default"; "main"; "master"] (fun name =>
             let cand := os_path_join output_corpus_dir name in
             ok <- _looks_like_afl_dir cand ;;
             ret (if ok then Some cand else None)) ;;
      match r with
      | Some cand => ret (Some cand)
      | None =>
          (* 2. queue directly under output_corpus_dir *)
          ok <- _looks_like_afl_dir output_corpus_dir ;;
          if ok then ret (Some output_corpus_dir) else
          (* 3. any child directory *)
          children <- glob_star output_corpus_dir ;;
          r <- for_return (sorted children) (fun cand =>
                 cand <- os_path_abspath cand ;;
                 ok <- _looks_like_afl_dir cand ;;
                 ret (if ok then Some cand else None)) ;;
          match r with
          | Some cand => ret (Some cand)
          | None => ret (Some output_corpus_dir)   (* 4. nothing found *)
          end
      end
  end.

(** ** The validity test and the decision procedure, as specified *)

(** [d] exists, has a [queue] subdirectory, and either holds a marker entry
    or its [queue] holds a regular file whose name has no leading dot. *)
Definition passes (fs : node) (d : loc) : bool :=
  isdir_at fs d
  && isdir_at fs (d ++ ["queue"])
  && (existsb (fun m => exists_at fs (d ++ [m])) markers
      || match entries_at fs (d ++ ["queue"]) with
         | Some es => existsb (fun e => is_file_node (snd e)
                                        && negb (hidden (fst e))) es
         | None => false
         end).

Definition passes_path (fs : node) (cwd : loc) (p : path) : bool :=
  passes fs (locate cwd p).

Definition child_paths (fs : node) (a : path) (keep : string -> bool) : list path :=
  match entries_at fs (comps a) with
  | Some es => map (os_path_join a) (filter keep (map fst es))
  | None => []
  end.

(** What [glob] matches for the pattern [a/*], [a] absolute. *)
Definition glob_children (fs : node) (a : path) : list path :=
  map Abs (glob fs [] (comps a ++ ["*"])).

(** The procedure, over the candidates [children] gives for the nominal
    directory in absolute form. *)
Definition decide_among (children : path -> list path)
    (fs : node) (cwd : loc) (nominal : path) : path :=
  let a := abspath_in cwd nominal in
  match find (passes_path fs cwd)
             (map (os_path_join a) ["default"; "main"; "master"]) with
  | Some c => c
  | None =>
      if passes_path fs cwd a then a else
      match find (passes_path fs cwd) (sorted (children a)) with
      | Some c => c
      | None => a
      end
  end.

(** The procedure over the children selected by [keep]. *)
Definition decide (keep : string -> bool) (fs : node) : loc -> path -> path :=
  decide_among (fun a => child_paths fs a keep) fs.


(** The code considers what [glob] matches for [<nominal>/*]. *)
Definition decide_visible (fs : node) : loc -> path -> path :=
  decide_among (glob_children fs) fs.

(** The nominal directory, in absolute form, has none of the characters
    [*], [?], [[] in its path. *)
Definition plain (cwd : loc) (nominal : path) : bool :=
  negb (existsb has_magic (locate cwd nominal)).

(** ** What the code computes *)

Lemma any_of_reads (A : Type) (l : list A) (test : A -> M bool) (f : world -> A -> bool) w :
  (forall x, test x w = (Ok (f w x), w)) ->
  any_of l test w = (Ok (existsb (f w) l), w).
Proof.
intros Ht. induction l as [|x l IH]; simpl; [reflexivity|].
unfold bind. rewrite Ht. destruct (f w x); simpl; [reflexivity|exact IH].
Qed.

Lemma looks_like_run d w :
  _looks_like_afl_dir d w = (Ok (passes_path (w_fs w) (w_cwd w) d), w).
Proof.
unfold _looks_like_afl_dir, passes_path, passes, os_path_isdir.
rewrite bind_gets.
destruct (isdir_at (w_fs w) (locate (w_cwd w) d)) eqn:Ed;
  cbn [negb andb]; [|reflexivity].
rewrite bind_gets, locate_join.
destruct (isdir_at (w_fs w) (locate (w_cwd w) d ++ ["queue"])) eqn:Eq;
  cbn [negb andb]; [|reflexivity].
erewrite bind_ok.
2:{ apply (any_of_reads _ markers _
          (fun w m => exists_at (w_fs w) (locate (w_cwd w) d ++ [m]))).
    intros m. unfold os_path_exists, gets. now rewrite locate_join. }
destruct (existsb _ markers); cbn [orb]; [reflexivity|].
unfold try_except, os_scandir, bind, ret. rewrite locate_join.
unfold isdir_at, entries_at in *.
destruct (node_at (w_fs w) (locate (w_cwd w) d ++ ["queue"])) as [[|es]|];
  try discriminate.
reflexivity.
Qed.

Lemma for_return_find (A : Type) (l : list A) (pre : A -> M path) (g : A -> path) w :
  (forall c, pre c w = (Ok (g c), w)) ->
  for_return l (fun x =>
      cand <- pre x ;;
      ok <- _looks_like_afl_dir cand ;;
      ret (if ok then Some cand else None)) w
  = (Ok (find (passes_path (w_fs w) (w_cwd w)) (map g l)), w).
Proof.
intros Hpre. induction l as [|c l IH]; simpl; [reflexivity|].
unfold bind at 1 2 3. rewrite Hpre, looks_like_run.
destruct (passes_path (w_fs w) (w_cwd w) (g c)); simpl; [reflexivity|exact IH].
Qed.

Lemma child_paths_abs fs a keep c :
  In c (child_paths fs (Abs a) keep) -> exists n, c = Abs (a ++ [n]).
Proof.
unfold child_paths. destruct (entries_at fs (comps (Abs a))); [|contradiction].
rewrite in_map_iff. intros (n & <- & _). now exists n.
Qed.

Lemma glob_children_abs fs a c :
  In c (glob_children fs a) -> exists l, c = Abs l.
Proof.
unfold glob_children. rewrite in_map_iff. intros (l & <- & _). now exists l.
Qed.

(** Without magic characters the pattern matches the children of the
    nominal directory whose name has no leading dot. *)
Lemma glob_children_plain fs (cs : loc) :
  existsb has_magic cs = false ->
  glob_children fs (Abs cs) = child_paths fs (Abs cs) (fun n => negb (hidden n)).
Proof.
intros Hplain. unfold glob_children, child_paths. cbn [comps].
rewrite (glob_star_plain fs [] cs Hplain). cbn [app].
destruct (entries_at fs cs) as [es|]; [|reflexivity].
rewrite map_map. reflexivity.
Qed.

Lemma abspath_in_abs cwd p : exists a, abspath_in cwd p = Abs a.
Proof. destruct p; simpl; eauto. Qed.

Lemma map_abspath_absolute cwd (l : list path) :
  (forall c, In c l -> exists a, c = Abs a) ->
  map (abspath_in cwd) (sorted l) = sorted l.
Proof.
intros Habs. rewrite <- (map_id (sorted l)) at 2. apply map_ext_in.
intros c Hc. apply (proj1 (sorted_In _ _)) in Hc.
now destruct (Habs c Hc) as [a ->].
Qed.

Lemma glob_star_run p w :
  glob_star (abspath_in (w_cwd w) p) w
  = (Ok (glob_children (w_fs w) (abspath_in (w_cwd w) p)), w).
Proof.
destruct (abspath_in_abs (w_cwd w) p) as [a ->]. reflexivity.
Qed.

(** The resolver reads the world, never raises, and returns
    [decide_visible]. *)
Lemma find_real_run p w :
  _find_real_output_corpus_dir (Some p) w
  = (Ok (Some (decide_visible (w_fs w) (w_cwd w) p)), w).
Proof.
unfold _find_real_output_corpus_dir, decide_visible, decide_among.
unfold bind at 1. unfold os_path_abspath at 1, gets.
set (a := abspath_in (w_cwd w) p).
pose proof (for_return_find _ ["default"; "main"; "master"]
              (fun c => ret (os_path_join a c)) (os_path_join a) w
              (fun c => eq_refl)) as H1.
erewrite bind_ok by exact H1.
destruct (find _ (map (os_path_join a) _)); [reflexivity|].
erewrite bind_ok by apply looks_like_run.
destruct (passes_path (w_fs w) (w_cwd w) a); [reflexivity|].
erewrite bind_ok by apply glob_star_run.
erewrite bind_ok.
2:{ apply (for_return_find _ _ os_path_abspath (abspath_in (w_cwd w))).
    reflexivity. }
fold a. rewrite map_abspath_absolute by apply glob_children_abs.
destruct (find _ (sorted _)); reflexivity.
Qed.


Lemma find_all_false (A : Type) (f : A -> bool) (l : list A) :
  (forall x, In x l -> f x = false) -> find f l = None.
Proof.
induction l as [|x l IH]; simpl; intros H; [reflexivity|].
rewrite (H x (or_introl eq_refl)). apply IH. intros y Hy. apply H. now right.
Qed.

Section Among.

Variable children : path -> list path.
Hypothesis children_abs : forall a c, In c (children a) -> exists l, c = Abs l.

Lemma decide_among_absolute fs cwd p :
  exists a, decide_among children fs cwd p = Abs a.
Proof.
unfold decide_among.
destruct (abspath_in_abs cwd p) as [a Ha]. rewrite Ha.
destruct (find _ (map _ _)) as [c|] eqn:E1.
- apply find_some in E1 as [Hin _]. apply in_map_iff in Hin as (n & <- & _).
  simpl. eauto.
- destruct (passes_path fs cwd (Abs a)); [eauto|].
  destruct (find _ (sorted _)) as [c|] eqn:E3; [|eauto].
  apply find_some in E3 as [Hin _].
  apply (proj1 (sorted_In _ _)) in Hin.
  now apply children_abs in Hin.
Qed.

(** Resolving an already resolved directory changes nothing, unless that
    directory has itself a [default], [main] or [master] that passes. *)
Lemma decide_among_twice fs cwd p :
  let r := decide_among children fs cwd p in
  (forall name, In name ["default"; "main"; "master"] ->
                passes_path fs cwd (os_path_join r name) = false) ->
  decide_among children fs cwd r = r.
Proof.
intros r Hnested.
destruct (decide_among_absolute fs cwd p) as [ra Hra]. fold r in Hra.
assert (Habs : abspath_in cwd r = r) by now rewrite Hra.
assert (H1 : find (passes_path fs cwd)
               (map (os_path_join r) ["default"; "main"; "master"]) = None).
{ apply find_all_false. intros c Hc.
  apply in_map_iff in Hc as (n & <- & Hn). now apply Hnested. }
unfold decide_among at 1. rewrite Habs, H1.
destruct (passes_path fs cwd r) eqn:Hr; [reflexivity|].
(* [r] does not pass: it is the fallback of the first resolution *)
assert (Hfall : r = abspath_in cwd p
                /\ find (passes_path fs cwd)
                        (sorted (children (abspath_in cwd p))) = None).
{ subst r. unfold decide_among in Hr |- *.
  destruct (find _ (map (os_path_join (abspath_in cwd p)) _)) as [c|] eqn:E1.
  { apply find_some in E1 as [_ Hc]. cbv iota in Hr. congruence. }
  destruct (passes_path fs cwd (abspath_in cwd p)) eqn:Ea;
    [cbv iota in Hr; congruence|].
  destruct (find _ (sorted _)) as [c|] eqn:E3; [|now split].
  apply find_some in E3 as [_ Hc]. cbv iota in Hr. congruence. }
destruct Hfall as [Hr_eq Hnone]. rewrite <- Hr_eq in Hnone. now rewrite Hnone.
Qed.

End Among.

Lemma decide_visible_absolute fs cwd p :
  exists a, decide_visible fs cwd p = Abs a.
Proof. apply decide_among_absolute. apply glob_children_abs. Qed.

(** For a nominal directory without magic characters, the candidates of the
    last resort are its children whose name has no leading dot. *)
Lemma decide_visible_plain fs cwd p :
  plain cwd p = true ->
  decide_visible fs cwd p = decide (fun n => negb (hidden n)) fs cwd p.
Proof.
unfold plain, locate. intros Hplain. apply negb_true_iff in Hplain.
unfold decide_visible, decide, decide_among.
destruct (abspath_in_abs cwd p) as [a Ha]. rewrite Ha in *.
cbn [comps] in Hplain. now rewrite (glob_children_plain fs a Hplain).
Qed.

Lemma keeps_find_real arg : keeps steady (_find_real_output_corpus_dir arg).
Proof.
apply keeps_reads; [apply steady_refl|]. intros w.
destruct arg as [p|]; [now rewrite find_real_run|reflexivity].
Qed.

Lemma total_find_real arg : total (_find_real_output_corpus_dir arg).
Proof.
intros w. destruct arg as [p|]; [now rewrite find_real_run|discriminate].
Qed.

#[global] Hint Resolve keeps_find_real total_find_real : frames.

(** ** Claim C3: the decision procedure *)



Definition world_of (fs : node) (cwd : loc) : world :=
  World fs cwd
        (Environ "afl" "libpng" false false (Some (Abs ["out"])) None None 0 (Some 1%Z)
                 false false false 0)
        0 [] 0 [] [] [] false
        (Runner None 0 (Some (Abs ["out"])) (Abs ["corpus-archives"])
                (Abs ["results"]) (Abs ["results"; "fuzzer-log.txt"])
                None NegInf).



(** ** Claim C8: idempotence and absence of side effects *)

Definition tree_with_nested_default : node :=
  Dir [("out",
        Dir [("default",
              Dir [("queue", Dir [("id:000000", File 7 [])]);
                   ("default",
                    Dir [("queue", Dir [("id:000001", File 8 [])])])])])].

(** C8 as stated fails: resolving [/out] gives [/out/default], and resolving
    [/out/default] gives [/out/default/default]. *)
Lemma find_real_not_idempotent :
  let w := world_of tree_with_nested_default [] in
  _find_real_output_corpus_dir (Some (Abs ["out"])) w
  = (Ok (Some (Abs ["out"; "default"])), w)
  /\ _find_real_output_corpus_dir (Some (Abs ["out"; "default"])) w
     = (Ok (Some (Abs ["out"; "default"; "default"])), w).
Proof. split; vm_compute; reflexivity. Qed.

(** C8, amended: resolution leaves the world as it was, whatever its
    argument; and resolving the resolved directory [r] returns [r] again
    provided none of [r/default], [r/main], [r/master] passes the validity
    test. *)
Theorem find_real_idempotent_unless_nested :
  forall (w : world) (arg : option path),
    snd (_find_real_output_corpus_dir arg w) = w
    /\ forall r,
         fst (_find_real_output_corpus_dir arg w) = Ok (Some r) ->
         (forall name, In name ["default"; "main"; "master"] ->
            passes_path (w_fs w) (w_cwd w) (os_path_join r name) = false) ->
         _find_real_output_corpus_dir (Some r) w = (Ok (Some r), w).
Proof.
intros w [nominal|]; (split; [|intros r Hr Hnested]).
- now rewrite find_real_run.
- rewrite (find_real_run nominal) in Hr. simpl in Hr. injection Hr as Hr.
  rewrite (find_real_run r). do 3 f_equal. subst r.
  apply decide_among_twice; [apply glob_children_abs|exact Hnested].
- reflexivity.
- discriminate Hr.
Qed.

Definition tree_with_default : node :=
  Dir [("out", Dir [("default",
                     Dir [("queue", Dir [("id:000000", File 7 [])]);
                          ("fuzzer_stats", File 9 [])])])].

Lemma find_real_idempotent_witness :
  let w := world_of tree_with_default ["work"] in
  snd (_find_real_output_corpus_dir (Some (Abs ["out"])) w) = w
  /\ _find_real_output_corpus_dir (Some (Abs ["out"; "default"])) w
     = (Ok (Some (Abs ["out"; "default"])), w).
Proof.
destruct (find_real_idempotent_unless_nested
            (world_of tree_with_default ["work"]) (Some (Abs ["out"])))
  as [Hsame Hagain].
split; [exact Hsame|].
apply Hagain.
- reflexivity.
- intros name [<-|[<-|[<-|[]]]]; reflexivity.
Defined.

(** ** How far the resolved directory is from the nominal one *)

Lemma passes_child_of_dir fs cwd a name :
  passes_path fs cwd (os_path_join a name) = true ->
  isdir_at fs (locate cwd a) = true.
Proof.
unfold passes_path, passes. rewrite locate_join. intros H.
apply andb_true_iff in H as [H _]. apply andb_true_iff in H as [H _].
apply isdir_at_kind in H. apply isdir_at_kind.
apply (kind_at_below fs _ name []). congruence.
Qed.

(** X1.  For a nominal directory whose absolute path has none of the
    characters [*], [?], [[], the resolver returns the nominal directory in
    absolute form or one of its entries, never anything deeper or
    elsewhere; an entry is returned only when [_looks_like_afl_dir] accepts
    it, and never when the nominal path is no directory. *)
Theorem find_real_stays_close :
  forall (w : world) (nominal : path),
    plain (w_cwd w) nominal = true ->
    exists r,
      _find_real_output_corpus_dir (Some nominal) w = (Ok (Some r), w)
      /\ (r = abspath_in (w_cwd w) nominal
          \/ exists name,
               r = os_path_join (abspath_in (w_cwd w) nominal) name
               /\ _looks_like_afl_dir r w = (Ok true, w))
      /\ (isdir_at (w_fs w) (locate (w_cwd w) nominal) = false ->
          r = abspath_in (w_cwd w) nominal).
Proof.
intros w nominal Hplain.
exists (decide_visible (w_fs w) (w_cwd w) nominal).
split; [apply find_real_run|].
rewrite (decide_visible_plain _ _ _ Hplain).
set (a := abspath_in (w_cwd w) nominal).
assert (Hloc : locate (w_cwd w) a = locate (w_cwd w) nominal).
{ unfold locate, a. now rewrite abspath_in_idem. }
assert (Hentry : forall c name,
          c = os_path_join a name ->
          passes_path (w_fs w) (w_cwd w) c = true ->
          (c = a \/ exists name0, c = os_path_join a name0
                                  /\ _looks_like_afl_dir c w = (Ok true, w))
          /\ (isdir_at (w_fs w) (locate (w_cwd w) nominal) = false -> c = a)).
{ intros c name -> Hp. split.
  - right. exists name. split; [reflexivity|]. now rewrite looks_like_run, Hp.
  - intros Hno. apply passes_child_of_dir in Hp. congruence. }
unfold decide, decide_among. fold a.
destruct (find _ (map (os_path_join a) _)) as [c|] eqn:E1.
{ apply find_some in E1 as [Hin Hp].
  apply in_map_iff in Hin as (name & <- & _). now apply (Hentry _ name). }
destruct (passes_path (w_fs w) (w_cwd w) a); [now split; [left|]|].
destruct (find _ (sorted _)) as [c|] eqn:E3; [|now split; [left|]].
apply find_some in E3 as [Hin Hp].
apply (proj1 (sorted_In _ _)) in Hin.
unfold child_paths in Hin.
destruct (entries_at (w_fs w) (comps a)); [|contradiction].
apply in_map_iff in Hin as (name & <- & _). now apply (Hentry _ name).
Qed.

Lemma find_real_stays_close_witness :
  let w := world_of tree_with_default ["work"] in
  exists r,
    _find_real_output_corpus_dir (Some (Abs ["out"])) w = (Ok (Some r), w)
    /\ (r = Abs ["out"]
        \/ exists name,
             r = os_path_join (Abs ["out"]) name
             /\ _looks_like_afl_dir r w = (Ok true, w))
    /\ (isdir_at (w_fs w) ["out"] = false -> r = Abs ["out"]).
Proof.
apply (find_real_stays_close (world_of tree_with_default ["work"]) (Abs ["out"])).
reflexivity.
Defined.

End Resolver.

(* ================================================================== *)
(** * Preparing the seed corpus *)
(* ================================================================== *)

Module Seeds.

Definition CORPUS_ELEMENT_BYTES_LIMIT : Z := 1 * 1024 * 1024.

Section WithFileHash.

(** The digest computed by [utils.file_hash], which is not part of the
    runner: the name a seed file is given. *)
Variable sha1 : list Byte.byte -> string.

(** [utils.file_hash(p)] *)
Definition file_hash (p : path) : M string :=
  fun w =>
    match node_at (w_fs w) (locate (w_cwd w) p) with
    | Some (File _ data) => (Ok (sha1 data), w)
    | _ => (Raise OSError, w)
    end.

(** The body of the inner loop of [_clean_seed_corpus]; the result is what
    the iteration appends to [failed_to_move_files]. *)
Definition clean_file (seed_corpus_dir file_path : path) : M (list (path * path)) :=
  size <- os_path_getsize file_path ;;
  if (size >? CORPUS_ELEMENT_BYTES_LIMIT)%Z then
    os_remove file_path ;;
    logs_warning "Removed seed file %s as it exceeds 1 Mb limit." [APath file_path] ;;
    ret []
  else
    sha1sum <- file_hash file_path ;;
    let new_file_path := os_path_join seed_corpus_dir sha1sum in
    try_except
      (shutil_move file_path new_file_path ;; ret [])
      is_OSError
      (fun _ => ret [(file_path, new_file_path)]).

(** The loops over [os.walk(seed_corpus_dir)].  The walk is a generator:
    it lists a directory when the loop reaches it, after the loop body has
    run for everything yielded before; a directory it cannot list is
    skipped.  [fuel] bounds the depth of the descent. *)
Fixpoint clean_walk (fuel : nat) (seed_corpus_dir top : path)
  : M (list (path * path)) :=
  match fuel with
  | O => diverge
  | S fuel' =>
      scan <- gets (fun w => entries_at (w_fs w) (locate (w_cwd w) top)) ;;
      match scan with
      | None => ret []
      | Some es =>
          let dirs := names_where is_dir_node es in
          let files := names_where is_file_node es in
          here <- for_yield files (fun filename =>
                    clean_file seed_corpus_dir (os_path_join top filename)) ;;
          below <- for_yield dirs (fun dirname =>
                     clean_walk fuel' seed_corpus_dir (os_path_join top dirname)) ;;
          ret (here ++ below)
      end
  end.

(** [_clean_seed_corpus(seed_corpus_dir)] *)
Definition _clean_seed_corpus (seed_corpus_dir : path) : M unit :=
  present <- os_path_exists seed_corpus_dir ;;
  if negb present then ret tt else
  env <- gets w_env ;;
  if NO_SEEDS env then
    logs_info "NO_SEEDS specified, deleting seed corpus files." [] ;;
    shutil_rmtree seed_corpus_dir ;;
    os_mkdir seed_corpus_dir ;;
    ret tt
  else
    fuel <- gets (fun w => S (height (w_fs w))) ;;
    failed_to_move_files <- clean_walk fuel seed_corpus_dir seed_corpus_dir ;;
    match failed_to_move_files with
    | [] => ret tt
    | _ :: _ =>
        logs_error "Failed to move seed corpus files: %s"
                   [AMoves failed_to_move_files]
    end.

(** ** The invariant of the walk

    [fs0] is the tree when [_clean_seed_corpus] starts and [seed] the
    location of the seed directory.  The digest is assumed to tell apart
    the contents of the seed files it is applied to, and no entry of the
    seed directory bears the digest of such a content as its name, unless it
    is a file with that content. *)

Section Cleaning.

Variable fs0 : node.
Variable seed : loc.

Definition within_limit (d : list Byte.byte) : Prop :=
  (Z.of_nat (List.length d) <= CORPUS_ELEMENT_BYTES_LIMIT)%Z.

(** [d] is the content of a seed file that is not over the limit. *)
Definition seed_content (d : list Byte.byte) : Prop :=
  within_limit d /\ exists rest, kind_at fs0 (seed ++ rest) = Some (KFile d).

Hypothesis wf_fs0 : wf_node fs0.
Hypothesis seed_is_dir : kind_at fs0 seed = Some KDir.
Hypothesis digest_injective :
  forall d1 d2, seed_content d1 -> seed_content d2 -> sha1 d1 = sha1 d2 -> d1 = d2.
Hypothesis no_clash :
  forall d k, seed_content d ->
    kind_at fs0 (seed ++ [sha1 d]) = Some k -> k = KFile d.

(** A file in its final place: named by its digest, in the seed directory. *)
Definition settled (q : loc) (d : list Byte.byte) : Prop :=
  q = seed ++ [sha1 d] /\ seed_content d.

Record Inv (fs : node) : Prop := {
  inv_wf : wf_node fs;
  inv_dirs : forall q, kind_at fs q = Some KDir <-> kind_at fs0 q = Some KDir;
  inv_files : forall rest d,
      kind_at fs (seed ++ rest) = Some (KFile d) ->
      kind_at fs0 (seed ++ rest) = Some (KFile d) \/ settled (seed ++ rest) d;
  inv_kept : forall rest d,
      kind_at fs0 (seed ++ rest) = Some (KFile d) -> within_limit d ->
      kind_at fs (seed ++ rest) = Some (KFile d)
      \/ kind_at fs (seed ++ [sha1 d]) = Some (KFile d)
}.
Arguments inv_wf {fs} _.
Arguments inv_dirs {fs} _ q.
Arguments inv_files {fs} _ rest d _.
Arguments inv_kept {fs} _ rest d _ _.

(** From [fs] to [fs'] files were only deleted or settled. *)
Definition mono (fs fs' : node) : Prop :=
  forall q d, kind_at fs' q = Some (KFile d) ->
              kind_at fs q = Some (KFile d) \/ settled q d.

(** All files below [top] are settled. *)
Definition clean_below (fs : node) (top : loc) : Prop :=
  forall rest d, rest <> [] ->
    kind_at fs (top ++ rest) = Some (KFile d) -> settled (top ++ rest) d.

Lemma Inv_initial : Inv fs0.
Proof.
split; [exact wf_fs0|tauto|tauto|tauto].
Qed.

Lemma mono_refl fs : mono fs fs.
Proof. intros q d H. now left. Qed.

Lemma mono_trans fs1 fs2 fs3 : mono fs1 fs2 -> mono fs2 fs3 -> mono fs1 fs3.
Proof.
intros H12 H23 q d H. apply H23 in H as [H|H]; [now apply H12|now right].
Qed.

Lemma clean_below_mono fs fs' top :
  mono fs fs' -> clean_below fs top -> clean_below fs' top.
Proof.
intros Hm Hc rest d Hne H. apply Hm in H as [H|H]; [now apply Hc|exact H].
Qed.

Lemma Inv_file_content fs rest d :
  Inv fs -> kind_at fs (seed ++ rest) = Some (KFile d) -> within_limit d ->
  seed_content d.
Proof.
intros HI H Hlim. apply (inv_files HI) in H as [H|[_ H]]; [|exact H].
split; [exact Hlim|now exists rest].
Qed.

(** The place a seed content is settled at never holds a directory, and a
    file there has that content. *)
Lemma settled_place fs d k :
  Inv fs -> seed_content d ->
  kind_at fs (seed ++ [sha1 d]) = Some k -> k = KFile d.
Proof.
intros HI Hd Hk. destruct k as [|d'].
- apply (inv_dirs HI) in Hk. now apply (no_clash d) in Hk.
- f_equal. apply (inv_files HI) in Hk as [H0|[Heq Hd']].
  + apply (no_clash d) in H0; [congruence|exact Hd].
  + apply app_inv_head in Heq. injection Heq as Heq.
    symmetry. now apply digest_injective.
Qed.

(** Deleting a file over the limit. *)
Lemma Inv_delete fs fs' rest d :
  Inv fs ->
  kind_at fs (seed ++ rest) = Some (KFile d) ->
  ~ within_limit d ->
  wf_node fs' ->
  (forall q, kind_at fs' q
             = if loc_eqb q (seed ++ rest) then None else kind_at fs q) ->
  Inv fs' /\ mono fs fs'.
Proof.
intros HI Hq Hbig Hwf' Hk.
assert (Hm : mono fs fs').
{ intros q d' H. rewrite Hk in H. destruct (loc_eqb q (seed ++ rest)); [discriminate|].
  now left. }
split; [|exact Hm]. split.
- exact Hwf'.
- intros q. rewrite Hk. destruct (loc_eqb q (seed ++ rest)) eqn:E.
  + apply loc_eqb_eq in E. subst q. split; [discriminate|].
    intros H. apply (inv_dirs HI) in H. congruence.
  + apply (inv_dirs HI).
- intros r d' H. apply Hm in H as [H|H]; [|now right].
  now apply (inv_files HI).
- intros r d' H0 Hlim. rewrite !Hk.
  destruct (inv_kept HI r d' H0 Hlim) as [H|H].
  + destruct (loc_eqb (seed ++ r) (seed ++ rest)) eqn:E; [|now left].
    apply loc_eqb_eq in E. rewrite E in H.
    assert (d' = d) by congruence. now subst d'.
  + destruct (loc_eqb (seed ++ [sha1 d']) (seed ++ rest)) eqn:E; [|now right].
    apply loc_eqb_eq in E. rewrite E in H.
    assert (d' = d) by congruence. now subst d'.
Qed.

(** Renaming a file to its digest in the seed directory. *)
Lemma Inv_settle fs fs' rest d :
  Inv fs ->
  kind_at fs (seed ++ rest) = Some (KFile d) ->
  within_limit d ->
  wf_node fs' ->
  (forall q, kind_at fs' q
             = if loc_eqb q (seed ++ [sha1 d]) then Some (KFile d)
               else if loc_eqb q (seed ++ rest) then None
               else kind_at fs q) ->
  Inv fs' /\ mono fs fs'.
Proof.
intros HI Hq Hlim Hwf' Hk.
assert (Hd : seed_content d) by exact (Inv_file_content fs rest d HI Hq Hlim).
assert (Hm : mono fs fs').
{ intros q d' H. rewrite Hk in H.
  destruct (loc_eqb q (seed ++ [sha1 d])) eqn:E1.
  - apply loc_eqb_eq in E1. injection H as <-. right. now split.
  - destruct (loc_eqb q (seed ++ rest)); [discriminate|]. now left. }
split; [|exact Hm]. split.
- exact Hwf'.
- intros q. rewrite Hk.
  destruct (loc_eqb q (seed ++ [sha1 d])) eqn:E1.
  + apply loc_eqb_eq in E1. subst q. split; [discriminate|].
    intros H. now apply (no_clash d) in H.
  + destruct (loc_eqb q (seed ++ rest)) eqn:E2; [|apply (inv_dirs HI)].
    apply loc_eqb_eq in E2. subst q. split; [discriminate|].
    intros H. apply (inv_dirs HI) in H. congruence.
- intros r d' H. apply Hm in H as [H|H]; [|now right].
  now apply (inv_files HI).
- intros r d' H0 Hlim'.
  assert (Hd' : seed_content d') by (split; [exact Hlim'|now exists r]).
  rewrite !Hk.
  destruct (loc_eqb (seed ++ [sha1 d']) (seed ++ [sha1 d])) eqn:E1.
  { right. f_equal. f_equal. apply loc_eqb_eq, app_inv_head in E1.
    injection E1 as E1. symmetry. now apply digest_injective. }
  destruct (inv_kept HI r d' H0 Hlim') as [H|H].
  + destruct (loc_eqb (seed ++ r) (seed ++ [sha1 d])) eqn:E2.
    { apply loc_eqb_eq in E2. rewrite E2 in H.
      apply (settled_place fs d _ HI Hd) in H. left. congruence. }
    destruct (loc_eqb (seed ++ r) (seed ++ rest)) eqn:E3; [|now left].
    apply loc_eqb_eq in E3. rewrite E3 in H.
    assert (d' = d) by congruence. subst d'.
    now rewrite loc_eqb_refl in E1.
  + destruct (loc_eqb (seed ++ [sha1 d']) (seed ++ rest)) eqn:E3; [|now right].
    apply loc_eqb_eq in E3. rewrite E3 in H.
    assert (d' = d) by congruence. subst d'.
    now rewrite loc_eqb_refl in E1.
Qed.

(** What [os.remove] and [os.rename] do to the flat view. *)
Lemma delete_file_kind fs parent name m d :
  wf_node fs ->
  node_at fs (parent ++ [name]) = Some (File m d) ->
  wf_node (set_at fs parent name None)
  /\ forall q, kind_at (set_at fs parent name None) q
               = if loc_eqb q (parent ++ [name]) then None else kind_at fs q.
Proof.
intros Hwf Hnode. split.
- apply set_at_wf; [exact Hwf|discriminate].
- intros q. rewrite kind_at_set_at; try assumption; try discriminate.
  + reflexivity.
  + apply isdir_at_kind. apply (kind_at_below fs parent name []).
    unfold kind_at. now rewrite Hnode.
  + unfold isdir_at. now rewrite Hnode.
Qed.

Lemma put_file_kind fs parent name m d :
  wf_node fs ->
  isdir_at fs parent = true ->
  isdir_at fs (parent ++ [name]) = false ->
  wf_node (set_at fs parent name (Some (File m d)))
  /\ forall q, kind_at (set_at fs parent name (Some (File m d))) q
               = if loc_eqb q (parent ++ [name]) then Some (KFile d)
                 else kind_at fs q.
Proof.
intros Hwf Hdir Hold. split.
- apply set_at_wf; [exact Hwf|]. intros n [= <-]. constructor.
- intros q. rewrite kind_at_set_at; try assumption; [reflexivity|].
  now intros n [= <-].
Qed.

(** One iteration of the inner loop, on a file of the seed directory. *)
Lemma clean_file_step seed_corpus_dir file_path w rest d :
  locate (w_cwd w) seed_corpus_dir = seed ->
  locate (w_cwd w) file_path = seed ++ rest ->
  Inv (w_fs w) ->
  kind_at (w_fs w) (seed ++ rest) = Some (KFile d) ->
  exists w',
    clean_file seed_corpus_dir file_path w = (Ok [], w')
    /\ w_cwd w' = w_cwd w
    /\ Inv (w_fs w')
    /\ mono (w_fs w) (w_fs w')
    /\ (forall q d', q <> seed ++ rest ->
          kind_at (w_fs w) q = Some (KFile d') ->
          exists d'', kind_at (w_fs w') q = Some (KFile d''))
    /\ (forall d', kind_at (w_fs w') (seed ++ rest) = Some (KFile d') ->
          settled (seed ++ rest) d').
Proof.
intros Hseed Hloc HI Hq.
pose proof (inv_wf HI) as Hwf.
destruct (proj1 (kind_at_file _ _ _) Hq) as [m Hnode].
assert (Hne : rest <> []).
{ intros ->. rewrite app_nil_r in Hq.
  pose proof (proj2 (inv_dirs HI seed) seed_is_dir). congruence. }
assert (Hsplit : exists parent name, seed ++ rest = parent ++ [name]).
{ apply split_last_some. destruct rest; [congruence|]. now destruct seed. }
destruct Hsplit as (parent & name & Hpn).
unfold clean_file, os_path_getsize.
erewrite bind_ok by (rewrite Hloc, Hnode; reflexivity).
destruct (Z.of_nat (List.length d) >? CORPUS_ELEMENT_BYTES_LIMIT)%Z eqn:Esize.
- (* over the limit: removed *)
  unfold os_remove.
  erewrite bind_ok by (cbv zeta; rewrite Hloc, Hnode, Hpn, split_last_app; reflexivity).
  rewrite Hpn in Hnode.
  destruct (delete_file_kind _ _ _ _ _ Hwf Hnode) as [Hwf1 Hk1].
  rewrite <- Hpn in Hk1.
  destruct (Inv_delete (w_fs w) (set_at (w_fs w) parent name None) rest d HI Hq)
    as [HI1 Hm1]; try assumption.
  { unfold within_limit. apply Z.gtb_lt in Esize. lia. }
  eexists. split; [reflexivity|]. cbn [w_cwd w_fs add_log set_fs].
  split; [reflexivity|]. split; [exact HI1|]. split; [exact Hm1|]. split.
  + intros q d' Hqne Hd'. exists d'. rewrite Hk1.
    destruct (loc_eqb q (seed ++ rest)) eqn:E; [|exact Hd'].
    apply loc_eqb_eq in E. contradiction.
  + intros d'. rewrite Hk1, loc_eqb_refl. discriminate.
- (* kept: renamed to its digest *)
  assert (Hlim : within_limit d).
  { unfold within_limit. rewrite Z.gtb_ltb in Esize. apply Z.ltb_ge in Esize. lia. }
  assert (Hd : seed_content d) by exact (Inv_file_content _ _ _ HI Hq Hlim).
  unfold file_hash. erewrite bind_ok by (rewrite Hloc, Hnode; reflexivity).
  set (new_file_path := os_path_join seed_corpus_dir (sha1 d)).
  assert (Hdst : locate (w_cwd w) new_file_path = seed ++ [sha1 d]).
  { subst new_file_path. now rewrite locate_join, Hseed. }
  assert (Hnodir : isdir_at (w_fs w) (seed ++ [sha1 d]) = false).
  { apply not_true_is_false. intros H. apply isdir_at_kind in H.
    apply (settled_place _ d _ HI Hd) in H. discriminate. }
  assert (Hseeddir : kind_at (w_fs w) seed = Some KDir).
  { apply (inv_dirs HI), seed_is_dir. }
  assert (Hsl : split_last (seed ++ rest) = Some (parent, name)).
  { rewrite Hpn. apply split_last_app. }
  assert (Hmove : shutil_move file_path new_file_path w
                  = os_rename file_path new_file_path w).
  { unfold shutil_move, os_path_isdir. now rewrite bind_gets, Hdst, Hnodir. }
  unfold try_except. unfold bind at 1. rewrite Hmove.
  unfold os_rename. cbv zeta.
  rewrite Hloc, Hdst, Hnode, Hsl, split_last_app, Hnodir.
  rewrite (proj2 (isdir_at_kind _ _) Hseeddir). cbn [negb].
  destruct (loc_eqb (seed ++ rest) (seed ++ [sha1 d])) eqn:Esame.
  + (* already in place *)
    apply loc_eqb_eq in Esame.
    exists w. split; [reflexivity|]. split; [reflexivity|].
    split; [exact HI|]. split; [apply mono_refl|]. split.
    * intros q d' _ H. now exists d'.
    * intros d' H. assert (d' = d) by congruence. subst d'. now split.
  + rewrite Hpn in Hnode.
    destruct (delete_file_kind _ _ _ _ _ Hwf Hnode) as [Hwf1 Hk1].
    rewrite <- Hpn in Hk1.
    set (fs1 := set_at (w_fs w) parent name None) in *.
    assert (Hdir1 : isdir_at fs1 seed = true).
    { apply isdir_at_kind. rewrite Hk1.
      destruct (loc_eqb seed (seed ++ rest)) eqn:E; [|exact Hseeddir].
      apply loc_eqb_eq in E. rewrite <- (app_nil_r seed) in E at 1.
      apply app_inv_head in E. congruence. }
    assert (Hnodir1 : isdir_at fs1 (seed ++ [sha1 d]) = false).
    { apply not_true_is_false. intros H. apply isdir_at_kind in H.
      rewrite Hk1 in H.
      destruct (loc_eqb (seed ++ [sha1 d]) (seed ++ rest)); [discriminate|].
      apply isdir_at_kind in H. congruence. }
    destruct (put_file_kind fs1 seed (sha1 d) m d Hwf1 Hdir1 Hnodir1)
      as [Hwf2 Hk2].
    set (fs2 := set_at fs1 seed (sha1 d) (Some (File m d))) in *.
    assert (Hk : forall q, kind_at fs2 q
                   = if loc_eqb q (seed ++ [sha1 d]) then Some (KFile d)
                     else if loc_eqb q (seed ++ rest) then None
                     else kind_at (w_fs w) q).
    { intros q. now rewrite Hk2, Hk1. }
    destruct (Inv_settle (w_fs w) fs2 rest d HI Hq Hlim Hwf2 Hk) as [HI2 Hm2].
    eexists. split; [reflexivity|]. cbn [w_cwd w_fs set_fs].
    split; [reflexivity|]. split; [exact HI2|]. split; [exact Hm2|]. split.
    * intros q d' Hqne Hd'. rewrite Hk.
      destruct (loc_eqb q (seed ++ [sha1 d])); [now exists d|].
      destruct (loc_eqb q (seed ++ rest)) eqn:E; [|now exists d'].
      apply loc_eqb_eq in E. contradiction.
    * intros d'. rewrite Hk, Esame, loc_eqb_refl. discriminate.
Qed.

(** The inner loop over the files listed in one directory. *)
Lemma clean_files_loop seed_corpus_dir top t : forall files w,
  NoDup files ->
  locate (w_cwd w) seed_corpus_dir = seed ->
  locate (w_cwd w) top = seed ++ t ->
  Inv (w_fs w) ->
  (forall f, In f files ->
     exists d, kind_at (w_fs w) (seed ++ t ++ [f]) = Some (KFile d)) ->
  exists w',
    for_yield files (fun filename =>
        clean_file seed_corpus_dir (os_path_join top filename)) w
    = (Ok [], w')
    /\ w_cwd w' = w_cwd w
    /\ Inv (w_fs w')
    /\ mono (w_fs w) (w_fs w')
    /\ (forall f d', In f files ->
          kind_at (w_fs w') (seed ++ t ++ [f]) = Some (KFile d') ->
          settled (seed ++ t ++ [f]) d').
Proof.
induction files as [|f files IH]; intros w Hnd Hseed Htop HI Hfiles.
- exists w. split; [reflexivity|]. split; [reflexivity|].
  split; [exact HI|]. split; [apply mono_refl|]. intros f d' [].
- inversion Hnd as [|? ? Hf Hnd']; subst.
  destruct (Hfiles f (or_introl eq_refl)) as [d Hd].
  destruct (clean_file_step seed_corpus_dir (os_path_join top f) w (t ++ [f]) d)
    as (w1 & Hrun1 & Hcwd1 & HI1 & Hm1 & Hkeep1 & Hdone1); try assumption.
  { now rewrite locate_join, Htop, app_assoc. }
  destruct (IH w1) as (w2 & Hrun2 & Hcwd2 & HI2 & Hm2 & Hdone2); try assumption.
  { now rewrite Hcwd1. }
  { now rewrite Hcwd1. }
  { intros f' Hf'. destruct (Hfiles f' (or_intror Hf')) as [d' Hd'].
    apply (Hkeep1 _ d'); [|exact Hd'].
    intros E. apply app_inv_head, app_inv_head in E. congruence. }
  exists w2. split.
  { cbn [for_yield]. erewrite bind_ok by exact Hrun1.
    erewrite bind_ok by exact Hrun2. reflexivity. }
  split; [congruence|]. split; [exact HI2|].
  split; [exact (mono_trans _ _ _ Hm1 Hm2)|].
  intros f' d' [<-|Hf'] Hk.
  + apply Hm2 in Hk as [Hk|Hk]; [now apply Hdone1|exact Hk].
  + now apply Hdone2.
Qed.

(** The walk settles everything below the directory it starts from. *)
Lemma clean_walk_settles seed_corpus_dir : forall fuel top t w,
  locate (w_cwd w) seed_corpus_dir = seed ->
  locate (w_cwd w) top = seed ++ t ->
  Inv (w_fs w) ->
  height_at fs0 (seed ++ t) < fuel ->
  exists w',
    clean_walk fuel seed_corpus_dir top w = (Ok [], w')
    /\ w_cwd w' = w_cwd w
    /\ Inv (w_fs w')
    /\ mono (w_fs w) (w_fs w')
    /\ clean_below (w_fs w') (seed ++ t).
Proof.
induction fuel as [|fuel IH]; intros top t w Hseed Htop HI Hfuel; [lia|].
cbn [clean_walk]. rewrite bind_gets, Htop.
destruct (entries_at (w_fs w) (seed ++ t)) as [es|] eqn:Escan.
2:{ exists w. split; [reflexivity|]. split; [reflexivity|].
    split; [exact HI|]. split; [apply mono_refl|].
    intros [|x rest] d Hne Hk; [congruence|].
    assert (Hdir : kind_at (w_fs w) (seed ++ t) = Some KDir).
    { apply (kind_at_below _ _ x rest). congruence. }
    unfold kind_at, entries_at in *.
    destruct (node_at (w_fs w) (seed ++ t)) as [[m0 d0|es0]|]; discriminate. }
cbv zeta.
pose proof (inv_wf HI) as Hwf.
assert (Hwfes : NoDup (map fst es)).
{ unfold entries_at in Escan.
  destruct (node_at (w_fs w) (seed ++ t)) as [[m0 d0|es0]|] eqn:E; try discriminate.
  injection Escan as ->.
  pose proof (wf_node_at _ _ _ Hwf E) as Hw. now inversion Hw. }
(* the files of this directory *)
destruct (clean_files_loop seed_corpus_dir top t
            (names_where is_file_node es) w)
  as (w1 & Hrun1 & Hcwd1 & HI1 & Hm1 & Hdone1); try assumption.
{ now apply names_where_NoDup. }
{ intros f Hf.
  apply (listed_kind (w_fs w) (seed ++ t) es f is_file_node Hwf Escan) in Hf
    as ([m d|?] & Hn & Hfile); [|discriminate].
  exists d. rewrite app_assoc. apply kind_at_file. now exists m. }
erewrite bind_ok by exact Hrun1.
(* the directories below *)
assert (Hdirs : forall dirs w1,
  w_cwd w1 = w_cwd w -> Inv (w_fs w1) ->
  (forall dn, In dn dirs -> kind_at (w_fs w1) (seed ++ t ++ [dn]) = Some KDir) ->
  exists w2,
    for_yield dirs (fun dirname =>
        clean_walk fuel seed_corpus_dir (os_path_join top dirname)) w1
    = (Ok [], w2)
    /\ w_cwd w2 = w_cwd w
    /\ Inv (w_fs w2)
    /\ mono (w_fs w1) (w_fs w2)
    /\ forall dn, In dn dirs -> clean_below (w_fs w2) (seed ++ t ++ [dn])).
{ clear w1 Hrun1 Hcwd1 HI1 Hm1 Hdone1.
  induction dirs as [|dn dirs IHd]; intros w1 Hcwd1 HI1 Hall.
  - exists w1. split; [reflexivity|]. split; [exact Hcwd1|].
    split; [exact HI1|]. split; [apply mono_refl|]. intros dn [].
  - assert (Hdn : kind_at fs0 (seed ++ t ++ [dn]) = Some KDir).
    { apply (inv_dirs HI1), Hall. now left. }
    destruct (IH (os_path_join top dn) (t ++ [dn]) w1)
      as (w2 & Hrun2 & Hcwd2 & HI2 & Hm2 & Hclean2); try assumption.
    { now rewrite Hcwd1. }
    { now rewrite Hcwd1, locate_join, Htop, app_assoc. }
    { assert (height_at fs0 ((seed ++ t) ++ [dn]) < height_at fs0 (seed ++ t)).
      { apply height_at_child. apply isdir_at_kind. now rewrite <- app_assoc. }
      rewrite <- app_assoc in H. lia. }
    destruct (IHd w2) as (w3 & Hrun3 & Hcwd3 & HI3 & Hm3 & Hclean3).
    { congruence. }
    { exact HI2. }
    { intros dn' Hdn'. apply (inv_dirs HI2). apply (inv_dirs HI1), Hall. now right. }
    exists w3. split.
    { cbn [for_yield]. erewrite bind_ok by exact Hrun2.
      erewrite bind_ok by exact Hrun3. reflexivity. }
    split; [exact Hcwd3|]. split; [exact HI3|].
    split; [exact (mono_trans _ _ _ Hm2 Hm3)|].
    intros dn' [<-|Hdn'].
    + apply (clean_below_mono _ _ _ Hm3). exact Hclean2.
    + now apply Hclean3. }
destruct (Hdirs (names_where is_dir_node es) w1 Hcwd1 HI1)
  as (w2 & Hrun2 & Hcwd2 & HI2 & Hm2 & Hclean2).
{ intros dn Hdn.
  apply (listed_kind (w_fs w) (seed ++ t) es dn is_dir_node Hwf Escan) in Hdn
    as ([?|es'] & Hn & Hd); [discriminate|].
  apply (inv_dirs HI1). apply (inv_dirs HI).
  rewrite app_assoc. unfold kind_at. now rewrite Hn. }
erewrite bind_ok by exact Hrun2.
exists w2. split; [reflexivity|]. split; [exact Hcwd2|]. split; [exact HI2|].
split; [exact (mono_trans _ _ _ Hm1 Hm2)|].
(* everything below [top] is settled *)
intros [|x rest] d Hne Hk; [congruence|].
destruct rest as [|y rest'].
- (* a file of this directory *)
  rewrite <- app_assoc in Hk |- *.
  destruct (Hm2 _ _ Hk) as [Hk1|Hs]; [|exact Hs].
  destruct (Hm1 _ _ Hk1) as [Hk0|Hs]; [|exact Hs].
  apply (Hdone1 x d); [|exact Hk1].
  apply (listed_kind (w_fs w) (seed ++ t) es x is_file_node Hwf Escan).
  rewrite app_assoc in Hk0. apply kind_at_file in Hk0 as [m Hn].
  now exists (File m d).
- (* a file further down *)
  assert (Hdir : kind_at (w_fs w2) (seed ++ t ++ [x]) = Some KDir).
  { apply (kind_at_below _ _ y rest').
    replace ((seed ++ t ++ [x]) ++ y :: rest')
      with ((seed ++ t) ++ x :: y :: rest')
      by (repeat rewrite <- app_assoc; reflexivity).
    congruence. }
  assert (Hx : In x (names_where is_dir_node es)).
  { apply (listed_kind (w_fs w) (seed ++ t) es x is_dir_node Hwf Escan).
    apply (inv_dirs HI2) in Hdir. apply (inv_dirs HI) in Hdir.
    rewrite app_assoc in Hdir. unfold kind_at in Hdir.
    destruct (node_at (w_fs w) ((seed ++ t) ++ [x])) as [[?|es']|]; try discriminate.
    now exists (Dir es'). }
  specialize (Hclean2 x Hx (y :: rest') d).
  replace ((seed ++ t ++ [x]) ++ y :: rest')
    with ((seed ++ t) ++ x :: y :: rest') in Hclean2
    by (repeat rewrite <- app_assoc; reflexivity).
  apply Hclean2; [discriminate|exact Hk].
Qed.

End Cleaning.

(** ** Frames *)

Lemma keeps_file_hash p : keeps steady (file_hash p).
Proof. unfold file_hash. one_step. Qed.

Lemma keeps_clean_file seed_corpus_dir file_path :
  keeps steady (clean_file seed_corpus_dir file_path).
Proof.
unfold clean_file, logs_warning. pose proof keeps_file_hash. steady_frame.
Qed.

Lemma keeps_clean_walk seed_corpus_dir fuel :
  forall top, keeps steady (clean_walk fuel seed_corpus_dir top).
Proof.
induction fuel as [|fuel IH]; intros top; cbn [clean_walk].
- apply keeps_diverge, steady_refl.
- pose proof keeps_clean_file. steady_frame.
Qed.

Lemma keeps_clean_seed_corpus seed_corpus_dir :
  keeps steady (_clean_seed_corpus seed_corpus_dir).
Proof.
unfold _clean_seed_corpus, os_path_exists, logs_info, logs_error.
pose proof keeps_clean_walk. steady_frame.
Qed.

(** Between [w] and [w'] only warnings were logged. *)
Definition warned (w w' : world) : Prop :=
  exists new, w_logs w' = new ++ w_logs w
              /\ Forall (fun r => log_level r = WARNING) new.

Lemma warned_refl w : warned w w.
Proof. exists []. split; [reflexivity|constructor]. Qed.

Lemma warned_trans a b c : warned a b -> warned b c -> warned a c.
Proof.
intros (n1 & E1 & F1) (n2 & E2 & F2). exists (n2 ++ n1). split.
- now rewrite E2, E1, app_assoc.
- apply Forall_app. now split.
Qed.

(** A step that logs nothing, or one warning. *)
Ltac warned_leaf :=
  let w := fresh "w" in
  unfold keeps, warned; intros w; cbn beta delta [modify snd] iota;
  repeat match goal with
         | |- context [match ?x with _ => _ end] => destruct x
         end;
  cbn;
  first [ exists []; split; [reflexivity|constructor]
        | eexists [_]; split; [reflexivity|repeat constructor] ].

Ltac warned_frame :=
  repeat first [ solve [auto]
               | frame_step warned_refl warned_trans
               | solve [warned_leaf] ].

Lemma warned_clean_file seed_corpus_dir file_path :
  keeps warned (clean_file seed_corpus_dir file_path).
Proof.
unfold clean_file, file_hash, shutil_move, logs_warning, os_path_getsize,
  os_remove, os_rename, os_path_isdir, os_path_exists.
warned_frame.
Qed.

Lemma warned_clean_walk seed_corpus_dir fuel :
  forall top, keeps warned (clean_walk fuel seed_corpus_dir top).
Proof.
pose proof warned_clean_file.
induction fuel as [|fuel IH]; intros top; cbn [clean_walk]; warned_frame.
Qed.

(** ** Claim C10: a missing seed directory *)

(** C10: when nothing exists at the seed-directory path,
    [_clean_seed_corpus] returns at once and the world, the file tree
    included, is as before, whatever [NO_SEEDS] is. *)
Theorem clean_seed_corpus_missing_dir :
  forall (w : world) (seed_corpus_dir : path),
    exists_at (w_fs w) (locate (w_cwd w) seed_corpus_dir) = false ->
    _clean_seed_corpus seed_corpus_dir w = (Ok tt, w).
Proof.
intros w seed_corpus_dir Hmissing.
unfold _clean_seed_corpus, os_path_exists.
now rewrite bind_gets, Hmissing.
Qed.

(** ** Claim C6: what the seed directory holds afterwards *)

(** C6, amended: on a well-formed tree, with [NO_SEEDS] unset, a digest that
    tells the seed contents within the limit apart, and no entry of the seed
    directory named by the digest of such a content (other than a file with
    that content), [_clean_seed_corpus] returns and afterwards
    - every file left below the seed directory is within the limit, is the
      content of a former seed file, and stands in the seed directory itself
      under the digest of its content, so that no two files left have the
      same content and no file over the limit is left;
    - every former seed content within the limit is the content of the file
      named by its digest;
    - no move has failed: nothing was logged but warnings (those for the
      files removed). *)
Theorem clean_seed_corpus_settles_seeds :
  forall (w : world) (seed_corpus_dir : path),
    let fs0 := w_fs w in
    let seed := locate (w_cwd w) seed_corpus_dir in
    wf_node fs0 ->
    isdir_at fs0 seed = true ->
    NO_SEEDS (w_env w) = false ->
    (forall d1 d2, seed_content fs0 seed d1 -> seed_content fs0 seed d2 ->
                   sha1 d1 = sha1 d2 -> d1 = d2) ->
    (forall d k, seed_content fs0 seed d ->
                 kind_at fs0 (seed ++ [sha1 d]) = Some k -> k = KFile d) ->
    exists w',
      _clean_seed_corpus seed_corpus_dir w = (Ok tt, w')
      /\ (forall rest d,
            kind_at (w_fs w') (seed ++ rest) = Some (KFile d) ->
            rest = [sha1 d] /\ seed_content fs0 seed d)
      /\ (forall rest1 rest2 d,
            kind_at (w_fs w') (seed ++ rest1) = Some (KFile d) ->
            kind_at (w_fs w') (seed ++ rest2) = Some (KFile d) ->
            rest1 = rest2)
      /\ (forall rest d,
            kind_at fs0 (seed ++ rest) = Some (KFile d) -> within_limit d ->
            kind_at (w_fs w') (seed ++ [sha1 d]) = Some (KFile d))
      /\ (exists new,
            w_logs w' = new ++ w_logs w
            /\ Forall (fun r => log_level r = WARNING) new).
Proof.
intros w seed_corpus_dir fs0 seed Hwf Hdir Hno Hinj Hclash.
assert (Hk : kind_at fs0 seed = Some KDir) by now apply isdir_at_kind.
destruct (clean_walk_settles fs0 seed Hk Hinj Hclash seed_corpus_dir
            (S (height fs0)) seed_corpus_dir [] w)
  as (w' & Hrun & _ & HI & _ & Hclean).
{ reflexivity. }
{ subst seed. now rewrite app_nil_r. }
{ now apply Inv_initial. }
{ pose proof (height_at_le fs0 (seed ++ [])). lia. }
rewrite app_nil_r in Hclean.
destruct HI as [_ Hdirs _ Hkept].
assert (Hleft : forall rest d,
          kind_at (w_fs w') (seed ++ rest) = Some (KFile d) ->
          rest = [sha1 d] /\ seed_content fs0 seed d).
{ intros rest d H.
  assert (Hne : rest <> []).
  { intros ->. rewrite app_nil_r in H.
    pose proof (proj2 (Hdirs seed) Hk). congruence. }
  destruct (Hclean rest d Hne H) as [Heq Hd].
  split; [|exact Hd]. now apply app_inv_head in Heq. }
exists w'. split; [|split; [exact Hleft|split; [|split]]].
- unfold _clean_seed_corpus, os_path_exists. rewrite bind_gets.
  fold seed fs0. unfold exists_at.
  unfold isdir_at in Hdir. destruct (node_at fs0 seed); [|discriminate].
  cbn [negb]. rewrite bind_gets, Hno, bind_gets.
  erewrite bind_ok by exact Hrun. reflexivity.
- intros rest1 rest2 d H1 H2.
  apply Hleft in H1 as [-> _]. now apply Hleft in H2 as [-> _].
- intros rest d H0 Hlim.
  destruct (Hkept rest d H0 Hlim) as [H|H]; [|exact H].
  pose proof (Hleft rest d H) as [-> _]. exact H.
- pose proof (warned_clean_walk seed_corpus_dir (S (height fs0))
                seed_corpus_dir w) as Hlog.
  rewrite Hrun in Hlog. exact Hlog.
Qed.

End WithFileHash.

#[global] Hint Resolve keeps_clean_seed_corpus : frames.

(** A stand-in digest for examples: the content itself, written as text. *)
Definition plain_digest (data : list Byte.byte) : string :=
  string_of_list_byte data.

Definition bytes (s : string) : list Byte.byte := list_byte_of_string s.

Definition seed_tree : node :=
  Dir [("seeds",
        Dir [("a", File 1 (bytes "GIF89a"));
             ("sub", Dir [("b", File 2 (bytes "GIF89a"));
                          ("c", File 3 (bytes "PNG"))])])].

Definition seed_world (fs : node) (no_seeds : bool) : world :=
  World fs []
        (Environ "afl" "libpng" false no_seeds (Some (Abs ["out"]))
                 (Some (Abs ["seeds"])) None 0 (Some 1%Z)
                 false false false 0)
        0 [] 0 [] [] [] false
        (Runner None 0 (Some (Abs ["out"])) (Abs ["corpus-archives"])
                (Abs ["results"]) (Abs ["results"; "fuzzer-log.txt"])
                None NegInf).

Lemma plain_digest_injective d1 d2 : plain_digest d1 = plain_digest d2 -> d1 = d2.
Proof.
unfold plain_digest. intros H.
rewrite <- (list_byte_of_string_of_list_byte d1),
        <- (list_byte_of_string_of_list_byte d2).
now rewrite H.
Qed.

Lemma clean_seed_corpus_missing_dir_witness :
  _clean_seed_corpus plain_digest (Abs ["no-such-dir"]) (seed_world seed_tree true)
  = (Ok tt, seed_world seed_tree true).
Proof.
apply (clean_seed_corpus_missing_dir plain_digest
         (seed_world seed_tree true) (Abs ["no-such-dir"])).
reflexivity.
Defined.

Definition dir_clash_tree : node :=
  Dir [("seeds",
        Dir [("a", File 1 (bytes "GIF89a"));
             ("b", File 2 (bytes "GIF89a"));
             ("GIF89a", Dir [])])].

(** C6 as stated fails: when the seed directory has a subdirectory named
    like the digest of two identical seed files, both files are moved into
    it and both remain, neither in the seed directory itself.  When the
    walk reaches them there, moving them fails; the two failed moves are
    recorded and logged as one error. *)
Lemma clean_seed_corpus_keeps_duplicates_on_clash :
  let w' := snd (_clean_seed_corpus plain_digest (Abs ["seeds"])
                   (seed_world dir_clash_tree false)) in
  kind_at (w_fs w') ["seeds"; "GIF89a"; "a"] = Some (KFile (bytes "GIF89a"))
  /\ kind_at (w_fs w') ["seeds"; "GIF89a"; "b"] = Some (KFile (bytes "GIF89a"))
  /\ kind_at (w_fs w') ["seeds"; "GIF89a"] = Some KDir
  /\ w_logs w'
     = [Log ERROR "Failed to move seed corpus files: %s"
            [AMoves
               [(Abs ["seeds"; "GIF89a"; "a"], Abs ["seeds"; "GIF89a"]);
                (Abs ["seeds"; "GIF89a"; "b"], Abs ["seeds"; "GIF89a"])]]].
Proof. vm_compute. repeat split. Qed.

Lemma clean_seed_corpus_settles_seeds_witness :
  let fs0 := seed_tree in
  let seed := ["seeds"] in
  exists w',
    _clean_seed_corpus plain_digest (Abs ["seeds"]) (seed_world seed_tree false)
    = (Ok tt, w')
    /\ (forall rest d,
          kind_at (w_fs w') (seed ++ rest) = Some (KFile d) ->
          rest = [plain_digest d] /\ seed_content fs0 seed d)
    /\ (forall rest1 rest2 d,
          kind_at (w_fs w') (seed ++ rest1) = Some (KFile d) ->
          kind_at (w_fs w') (seed ++ rest2) = Some (KFile d) ->
          rest1 = rest2)
    /\ (forall rest d,
          kind_at fs0 (seed ++ rest) = Some (KFile d) -> within_limit d ->
          kind_at (w_fs w') (seed ++ [plain_digest d]) = Some (KFile d))
    /\ (exists new,
          w_logs w' = new ++ w_logs (seed_world seed_tree false)
          /\ Forall (fun r => log_level r = WARNING) new).
Proof.
apply (clean_seed_corpus_settles_seeds plain_digest
         (seed_world seed_tree false) (Abs ["seeds"])).
- apply wf_check_sound. reflexivity.
- reflexivity.
- reflexivity.
- intros d1 d2 _ _. apply plain_digest_injective.
- intros d k [_ [rest Hd]] Hk.
  apply kind_at_contents in Hd.
  simpl in Hd. destruct Hd as [<-|[<-|[<-|[]]]]; vm_compute in Hk; discriminate.
Defined.

Example clean_seed_corpus_sample :
  _clean_seed_corpus plain_digest (Abs ["seeds"]) (seed_world seed_tree false)
  = (Ok tt,
     seed_world
       (Dir [("seeds",
              Dir [("sub", Dir []);
                   ("GIF89a", File 2 (bytes "GIF89a"));
                   ("PNG", File 3 (bytes "PNG"))])])
       false).
Proof. vm_compute. reflexivity. Qed.

(* ------------------------------------------------------------------ *)
(** ** Further properties of [_clean_seed_corpus] *)

Section MoreOnCleaning.

Variable sha1 : list Byte.byte -> string.

Lemma prefix_not_self (l : loc) name rest : l <> (l ++ [name]) ++ rest.
Proof.
intros H. apply (f_equal (@List.length string)) in H.
rewrite !length_app in H. cbn in H. lia.
Qed.

(** Nothing that is not strictly below [seed] changes its kind. *)
Definition untouched_outside (seed : loc) (fs fs' : node) : Prop :=
  forall q, ~ strictly_below seed q -> kind_at fs' q = kind_at fs q.

(** The same places hold directories. *)
Definition same_dirs (fs fs' : node) : Prop :=
  forall q, kind_at fs' q = Some KDir <-> kind_at fs q = Some KDir.

Lemma split_last_inv (l parent : loc) name :
  split_last l = Some (parent, name) -> l = parent ++ [name].
Proof.
intros H. destruct l as [|x l]; [discriminate|].
destruct (split_last_some (x :: l)) as (p' & n' & Heq); [discriminate|].
rewrite Heq, split_last_app in H. now injection H as <- <-.
Qed.

(** *** With [NO_SEEDS] *)

(** [shutil.rmtree(d)] followed by [os.mkdir(d)] on a directory. *)
Lemma rmtree_mkdir_effect (d : path) w :
  let seed := locate (w_cwd w) d in
  wf_node (w_fs w) ->
  seed <> [] ->
  isdir_at (w_fs w) seed = true ->
  exists fs2,
    (shutil_rmtree d ;; os_mkdir d ;; ret tt) w = (Ok tt, set_fs fs2 w)
    /\ wf_node fs2
    /\ entries_at fs2 seed = Some []
    /\ untouched_outside seed (w_fs w) fs2.
Proof.
intros seed Hwf Hroot Hdir.
destruct (split_last_some seed Hroot) as (parent & name & Hpn).
assert (Hsl : split_last seed = Some (parent, name)).
{ rewrite Hpn. apply split_last_app. }
assert (Hpar : isdir_at (w_fs w) parent = true).
{ apply isdir_at_kind. apply (kind_at_below _ _ name []).
  rewrite <- Hpn. apply isdir_at_kind in Hdir. congruence. }
set (fs1 := set_at (w_fs w) parent name None).
set (fs2 := set_at fs1 parent name (Some (Dir []))).
assert (Hwf1 : wf_node fs1) by (apply set_at_wf; [exact Hwf|discriminate]).
assert (Hwf2 : wf_node fs2).
{ apply set_at_wf; [exact Hwf1|]. intros n [= <-]. repeat constructor. }
assert (Hpar1 : isdir_at fs1 parent = true).
{ apply isdir_at_kind. unfold fs1.
  rewrite kind_at_set_at_other; [now apply isdir_at_kind|exact Hwf|].
  intros rest. apply prefix_not_self. }
assert (Hgone : node_at fs1 seed = None).
{ rewrite Hpn, <- (app_nil_r (parent ++ [name])). unfold fs1.
  now rewrite node_at_set_at_here. }
assert (Hnew : node_at fs2 seed = Some (Dir [])).
{ rewrite Hpn, <- (app_nil_r (parent ++ [name])). unfold fs2.
  now rewrite node_at_set_at_here. }
exists fs2. split; [|split; [exact Hwf2|split]].
- unfold shutil_rmtree, os_mkdir, bind, ret. fold seed.
  unfold isdir_at in Hdir.
  destruct (node_at (w_fs w) seed) as [[m d0|es]|] eqn:En; try discriminate.
  rewrite Hsl. cbn [w_fs w_cwd set_fs]. fold seed. fold fs1.
  rewrite Hgone, Hsl, Hpar1. reflexivity.
- unfold entries_at. now rewrite Hnew.
- intros q Hq.
  destruct (list_eq_dec string_dec q seed) as [->|Hne].
  + unfold kind_at at 1. rewrite Hnew. symmetry. now apply isdir_at_kind.
  + assert (Hother : forall rest, q <> (parent ++ [name]) ++ rest).
    { intros rest Heq. rewrite <- Hpn in Heq. destruct rest as [|x rest].
      - rewrite app_nil_r in Heq. contradiction.
      - apply Hq. now exists x, rest. }
    unfold fs2, fs1. now rewrite !kind_at_set_at_other.
Qed.

(** X2.  With [NO_SEEDS] set, an existing seed directory is replaced by an empty
    one and nothing else in the tree changes; a seed path that is a regular
    file makes the call fail with [OSError], and the file stays. *)
Theorem clean_seed_corpus_no_seeds :
  forall (w : world) (seed_corpus_dir : path),
    let seed := locate (w_cwd w) seed_corpus_dir in
    let logged :=
      add_log (Log INFO "NO_SEEDS specified, deleting seed corpus files." []) w in
    wf_node (w_fs w) ->
    NO_SEEDS (w_env w) = true ->
    seed <> [] ->
    (isdir_at (w_fs w) seed = true ->
     exists fs',
       _clean_seed_corpus sha1 seed_corpus_dir w = (Ok tt, set_fs fs' logged)
       /\ entries_at fs' seed = Some []
       /\ forall q, ~ strictly_below seed q -> kind_at fs' q = kind_at (w_fs w) q)
    /\ (isfile_at (w_fs w) seed = true ->
        _clean_seed_corpus sha1 seed_corpus_dir w = (Raise OSError, logged)).
Proof.
intros w sd seed logged Hwf Hno Hroot.
assert (Hrun : forall n,
          node_at (w_fs w) seed = Some n ->
          _clean_seed_corpus sha1 sd w
          = (shutil_rmtree sd ;; os_mkdir sd ;; ret tt) logged).
{ intros n Hn. unfold _clean_seed_corpus, os_path_exists, logs_info.
  rewrite bind_gets. unfold exists_at. unfold seed in Hn. rewrite Hn.
  cbn [negb]. now rewrite bind_gets, Hno, bind_modify. }
split.
- intros Hdir.
  destruct (rmtree_mkdir_effect sd logged Hwf Hroot Hdir)
    as (fs2 & Hfs2 & _ & Hempty & Hout).
  exists fs2. split; [|split; [exact Hempty|exact Hout]].
  unfold isdir_at in Hdir.
  destruct (node_at (w_fs w) seed) as [n|] eqn:En; [|discriminate].
  rewrite (Hrun n eq_refl). exact Hfs2.
- intros Hfile. unfold isfile_at in Hfile.
  destruct (node_at (w_fs w) seed) as [[m d|es]|] eqn:En; try discriminate.
  rewrite (Hrun _ eq_refl).
  unfold shutil_rmtree, bind, logged. cbn [w_fs w_cwd add_log]. fold seed.
  now rewrite En.
Qed.
(** *** What the cleaning leaves alone *)

Section Tidy.

Variable cwd0 : loc.
Variable seed : loc.

(** From [w] to [w']: the tree stays well formed, directories are neither
    made nor removed, and nothing outside the seed directory changes. *)
Definition tidy (w w' : world) : Prop :=
  w_cwd w = cwd0 -> wf_node (w_fs w) ->
  w_cwd w' = cwd0
  /\ w_env w' = w_env w
  /\ wf_node (w_fs w')
  /\ same_dirs (w_fs w) (w_fs w')
  /\ untouched_outside seed (w_fs w) (w_fs w').

Lemma tidy_refl w : tidy w w.
Proof. intros Hc Hwf. repeat split; auto. Qed.

Lemma tidy_trans a b c : tidy a b -> tidy b c -> tidy a c.
Proof.
intros Hab Hbc Hc Hwf.
destruct (Hab Hc Hwf) as (Hc1 & He1 & Hwf1 & Hd1 & Ho1).
destruct (Hbc Hc1 Hwf1) as (Hc2 & He2 & Hwf2 & Hd2 & Ho2).
split; [exact Hc2|]. split; [congruence|]. split; [exact Hwf2|]. split.
- intros q. rewrite (Hd2 q). apply Hd1.
- intros q Hq. rewrite (Ho2 q Hq). now apply Ho1.
Qed.

Lemma tidy_same_tree w w' :
  w_cwd w' = w_cwd w -> w_env w' = w_env w -> w_fs w' = w_fs w -> tidy w w'.
Proof.
intros Hc He Hfs Hc0 Hwf. rewrite Hc, Hfs. repeat split; auto.
Qed.

Lemma keeps_tidy_remove p :
  strictly_below seed (locate cwd0 p) -> keeps tidy (os_remove p).
Proof.
intros Hp w. unfold os_remove. cbv zeta.
destruct (node_at (w_fs w) (locate (w_cwd w) p)) as [[m d|es]|] eqn:En;
  try apply tidy_refl.
destruct (split_last (locate (w_cwd w) p)) as [[parent name]|] eqn:Es;
  [|apply tidy_refl].
cbn [snd]. intros Hc Hwf. cbn [w_cwd w_fs set_fs].
rewrite Hc in En, Es. apply split_last_inv in Es. rewrite Es in En, Hp.
destruct (delete_file_kind _ _ _ _ _ Hwf En) as [Hwf1 Hk1].
split; [exact Hc|]. split; [reflexivity|]. split; [exact Hwf1|]. split.
- intros q. rewrite Hk1. destruct (loc_eqb q (parent ++ [name])) eqn:E; [|tauto].
  apply loc_eqb_eq in E. subst q. unfold kind_at. rewrite En. cbn.
  split; discriminate.
- intros q Hq. rewrite Hk1. destruct (loc_eqb q (parent ++ [name])) eqn:E;
    [|reflexivity].
  apply loc_eqb_eq in E. subst q. contradiction.
Qed.

Lemma keeps_tidy_rename src dst :
  strictly_below seed (locate cwd0 src) ->
  strictly_below seed (locate cwd0 dst) ->
  keeps tidy (os_rename src dst).
Proof.
intros Hs Hd w. unfold os_rename. cbv zeta.
destruct (node_at (w_fs w) (locate (w_cwd w) src)) as [[m d|es]|] eqn:En;
  try apply tidy_refl.
destruct (split_last (locate (w_cwd w) src)) as [[sparent sname]|] eqn:Es;
  [|apply tidy_refl].
destruct (split_last (locate (w_cwd w) dst)) as [[dparent dname]|] eqn:Ed;
  [|apply tidy_refl].
destruct (isdir_at (w_fs w) (locate (w_cwd w) dst)) eqn:Edir; [apply tidy_refl|].
destruct (isdir_at (w_fs w) dparent) eqn:Epar; cbn [negb]; [|apply tidy_refl].
destruct (loc_eqb (locate (w_cwd w) src) (locate (w_cwd w) dst)) eqn:Esame;
  [apply tidy_refl|].
cbn [snd]. intros Hc Hwf. cbn [w_cwd w_fs set_fs].
rewrite Hc in En, Es, Ed, Edir, Esame.
apply split_last_inv in Es. apply split_last_inv in Ed.
set (s := locate cwd0 src) in *. set (t := locate cwd0 dst) in *.
rewrite Es in En.
destruct (delete_file_kind _ _ _ _ _ Hwf En) as [Hwf1 Hk1].
rewrite <- Es in Hk1, En.
set (fs1 := set_at (w_fs w) sparent sname None) in *.
assert (Hpar1 : isdir_at fs1 dparent = true).
{ apply isdir_at_kind. rewrite Hk1.
  destruct (loc_eqb dparent s) eqn:E; [|now apply isdir_at_kind].
  apply loc_eqb_eq in E. subst dparent.
  unfold isdir_at in Epar. rewrite En in Epar. discriminate. }
assert (Hnodir1 : isdir_at fs1 (dparent ++ [dname]) = false).
{ rewrite <- Ed. apply not_true_is_false. intros H. apply isdir_at_kind in H.
  rewrite Hk1 in H. destruct (loc_eqb t s); [discriminate|].
  apply isdir_at_kind in H. congruence. }
destruct (put_file_kind fs1 dparent dname m d Hwf1 Hpar1 Hnodir1) as [Hwf2 Hk2].
rewrite <- Ed in Hk2.
split; [exact Hc|]. split; [reflexivity|]. split; [exact Hwf2|]. split.
- intros q. rewrite Hk2, Hk1.
  destruct (loc_eqb q t) eqn:E1.
  { apply loc_eqb_eq in E1. subst q. split; [discriminate|].
    intros H. apply isdir_at_kind in H. congruence. }
  destruct (loc_eqb q s) eqn:E2; [|tauto].
  apply loc_eqb_eq in E2. subst q. unfold kind_at. rewrite En. cbn.
  split; discriminate.
- intros q Hq. rewrite Hk2, Hk1.
  destruct (loc_eqb q t) eqn:E1.
  { apply loc_eqb_eq in E1. subst q. contradiction. }
  destruct (loc_eqb q s) eqn:E2; [|reflexivity].
  apply loc_eqb_eq in E2. subst q. contradiction.
Qed.
Lemma keeps_tidy_move src dst :
  strictly_below seed (locate cwd0 src) ->
  strictly_below seed (locate cwd0 dst) ->
  keeps tidy (shutil_move src dst).
Proof.
intros Hs Hd. unfold shutil_move, os_path_isdir, os_path_exists.
apply (keeps_bind _ tidy_trans); [apply keeps_gets, tidy_refl|].
intros [|]; [|now apply keeps_tidy_rename].
apply (keeps_bind _ tidy_trans); [apply keeps_gets, tidy_refl|].
intros [|]; [apply keeps_raise, tidy_refl|].
apply keeps_tidy_rename; [exact Hs|].
rewrite locate_join. destruct Hd as (x & rest & ->).
exists x, (rest ++ [os_path_basename src]).
now rewrite <- app_assoc.
Qed.

Lemma keeps_tidy_clean_file seed_corpus_dir file_path :
  locate cwd0 seed_corpus_dir = seed ->
  strictly_below seed (locate cwd0 file_path) ->
  keeps tidy (clean_file sha1 seed_corpus_dir file_path).
Proof.
intros Hseed Hfile. unfold clean_file, logs_warning.
apply (keeps_bind _ tidy_trans).
{ intros w. apply tidy_same_tree; unfold os_path_getsize;
    destruct (node_at _ _) as [[? ?|?]|]; reflexivity. }
intros size. destruct (size >? CORPUS_ELEMENT_BYTES_LIMIT)%Z.
- apply (keeps_bind _ tidy_trans); [now apply keeps_tidy_remove|intros _].
  apply (keeps_bind _ tidy_trans); [|intros _; apply keeps_ret, tidy_refl].
  intros w. now apply tidy_same_tree.
- apply (keeps_bind _ tidy_trans).
  { intros w. apply tidy_same_tree; unfold file_hash;
      destruct (node_at _ _) as [[? ?|?]|]; reflexivity. }
  intros sha1sum. cbv zeta.
  apply (keeps_try_except _ tidy_trans);
    [|intros _; apply keeps_ret, tidy_refl].
  apply (keeps_bind _ tidy_trans); [|intros _; apply keeps_ret, tidy_refl].
  apply keeps_tidy_move; [exact Hfile|].
  rewrite locate_join, Hseed. now exists sha1sum, [].
Qed.

Lemma keeps_tidy_clean_walk seed_corpus_dir :
  locate cwd0 seed_corpus_dir = seed ->
  forall fuel top t,
    locate cwd0 top = seed ++ t ->
    keeps tidy (clean_walk sha1 fuel seed_corpus_dir top).
Proof.
intros Hseed. induction fuel as [|fuel IH]; intros top t Htop; cbn [clean_walk].
- apply keeps_diverge, tidy_refl.
- apply (keeps_bind _ tidy_trans); [apply keeps_gets, tidy_refl|].
  intros [es|]; [|apply keeps_ret, tidy_refl]. cbv zeta.
  apply (keeps_bind _ tidy_trans).
  { apply (keeps_for_yield _ tidy_refl tidy_trans). intros filename.
    apply keeps_tidy_clean_file; [exact Hseed|].
    rewrite locate_join, Htop. apply strictly_below_app. }
  intros here.
  apply (keeps_bind _ tidy_trans); [|intros below; apply keeps_ret, tidy_refl].
  apply (keeps_for_yield _ tidy_refl tidy_trans). intros dirname.
  apply (IH _ (t ++ [dirname])).
  now rewrite locate_join, Htop, app_assoc.
Qed.

End Tidy.

(** X3.  [_clean_seed_corpus] keeps the tree well formed and changes nothing
    outside the seed directory: everything that is not strictly below it
    is, afterwards, what it was.  Without [NO_SEEDS] it neither makes nor
    removes a directory, inside the seed directory or elsewhere. *)
Theorem clean_seed_corpus_stays_inside :
  forall (w : world) (seed_corpus_dir : path),
    wf_node (w_fs w) ->
    let seed := locate (w_cwd w) seed_corpus_dir in
    let fs' := w_fs (snd (_clean_seed_corpus sha1 seed_corpus_dir w)) in
    wf_node fs'
    /\ (forall q, ~ strictly_below seed q -> kind_at fs' q = kind_at (w_fs w) q)
    /\ (NO_SEEDS (w_env w) = false ->
        forall q, kind_at fs' q = Some KDir <-> kind_at (w_fs w) q = Some KDir).
Proof.
intros w sd Hwf seed fs'. subst fs'.
unfold _clean_seed_corpus, os_path_exists. rewrite bind_gets. fold seed.
destruct (exists_at (w_fs w) seed) eqn:Eex; cbn [negb];
  [|cbn; repeat split; auto].
rewrite bind_gets. destruct (NO_SEEDS (w_env w)) eqn:Eno.
- (* the directory is emptied *)
  unfold logs_info. rewrite bind_modify.
  set (logged := add_log _ w).
  destruct (isdir_at (w_fs w) seed) eqn:Edir.
  + destruct seed as [|x seed'] eqn:Eseed.
    * (* the root cannot be removed *)
      unfold shutil_rmtree, bind. cbn [w_fs w_cwd]. unfold logged.
      cbn [w_fs w_cwd add_log]. fold seed. rewrite Eseed.
      destruct (node_at (w_fs w) []) as [[? ?|?]|]; cbn; repeat split; auto;
        discriminate.
    * destruct (rmtree_mkdir_effect sd logged Hwf) as (fs2 & Hrun & Hwf2 & _ & Hout).
      { unfold logged. cbn [w_cwd add_log]. fold seed. rewrite Eseed. discriminate. }
      { unfold logged. cbn [w_cwd w_fs add_log]. fold seed. now rewrite Eseed. }
      rewrite Hrun. cbn [snd w_fs set_fs].
      split; [exact Hwf2|]. split; [|discriminate].
      unfold logged in Hout. cbn [w_cwd w_fs add_log] in Hout. fold seed in Hout.
      now rewrite Eseed in Hout.
  + unfold shutil_rmtree, bind. unfold logged. cbn [w_fs w_cwd add_log]. fold seed.
    unfold isdir_at in Edir.
    destruct (node_at (w_fs w) seed) as [[? ?|?]|]; try discriminate;
      cbn; repeat split; auto; discriminate.
- (* the walk *)
  rewrite bind_gets.
  pose proof (keeps_tidy_clean_walk (w_cwd w) seed sd eq_refl
                (S (height (w_fs w))) sd [] (eq_sym (app_nil_r _)) w eq_refl Hwf)
    as (_ & _ & Hwf1 & Hdirs & Hout).
  unfold bind.
  destruct (clean_walk sha1 (S (height (w_fs w))) sd sd w) as [[failed|e|] w1];
    cbn [snd] in *; try (destruct failed); cbn [snd w_fs add_log logs_error modify];
    (split; [exact Hwf1|split; [exact Hout|intros _; exact Hdirs]]).
Qed.
(** *** Cleaning a clean directory *)

Lemma for_yield_nothing {A B} (l : list A) (body : A -> M (list B)) w :
  (forall x, In x l -> body x w = (Ok [], w)) ->
  for_yield l body w = (Ok [], w).
Proof.
induction l as [|x l IH]; intros Hb; [reflexivity|]. cbn [for_yield].
erewrite bind_ok by (apply Hb; now left).
erewrite bind_ok by (apply IH; intros y Hy; apply Hb; now right).
reflexivity.
Qed.

(** Every file below [seed] stands in [seed] under the digest of its
    content, and is within the limit. *)
Definition all_settled (seed : loc) (fs : node) : Prop :=
  forall rest d, kind_at fs (seed ++ rest) = Some (KFile d) ->
                 rest = [sha1 d] /\ within_limit d.

Lemma clean_file_fixed seed_corpus_dir file_path w d :
  let seed := locate (w_cwd w) seed_corpus_dir in
  locate (w_cwd w) file_path = seed ++ [sha1 d] ->
  kind_at (w_fs w) (seed ++ [sha1 d]) = Some (KFile d) ->
  within_limit d ->
  clean_file sha1 seed_corpus_dir file_path w = (Ok [], w).
Proof.
intros seed Hloc Hk Hlim.
destruct (proj1 (kind_at_file _ _ _) Hk) as [m Hnode].
assert (Hseed : isdir_at (w_fs w) seed = true).
{ apply isdir_at_kind. apply (kind_at_below _ _ (sha1 d) []). congruence. }
unfold clean_file, os_path_getsize.
erewrite bind_ok by (rewrite Hloc, Hnode; reflexivity).
assert (Esize : (Z.of_nat (List.length d) >? CORPUS_ELEMENT_BYTES_LIMIT)%Z = false).
{ unfold within_limit in Hlim. rewrite Z.gtb_ltb. apply Z.ltb_ge. lia. }
rewrite Esize. unfold file_hash.
erewrite bind_ok by (rewrite Hloc, Hnode; reflexivity).
cbv zeta.
assert (Hdst : locate (w_cwd w) (os_path_join seed_corpus_dir (sha1 d))
               = seed ++ [sha1 d]) by now rewrite locate_join.
assert (Hnodir : isdir_at (w_fs w) (seed ++ [sha1 d]) = false).
{ unfold isdir_at. now rewrite Hnode. }
set (new_file_path := os_path_join seed_corpus_dir (sha1 d)) in *.
assert (Hmove : shutil_move file_path new_file_path w
                = os_rename file_path new_file_path w).
{ unfold shutil_move, os_path_isdir. now rewrite bind_gets, Hdst, Hnodir. }
unfold try_except. unfold bind at 1. rewrite Hmove.
unfold os_rename. cbv zeta.
rewrite Hdst, Hloc, Hnode, split_last_app, Hnodir, Hseed.
cbn [negb]. now rewrite loc_eqb_refl.
Qed.

Lemma clean_walk_fixed seed_corpus_dir : forall fuel top t w,
  let seed := locate (w_cwd w) seed_corpus_dir in
  locate (w_cwd w) top = seed ++ t ->
  wf_node (w_fs w) ->
  all_settled seed (w_fs w) ->
  height_at (w_fs w) (seed ++ t) < fuel ->
  clean_walk sha1 fuel seed_corpus_dir top w = (Ok [], w).
Proof.
induction fuel as [|fuel IH]; intros top t w seed Htop Hwf Hall Hfuel; [lia|].
cbn [clean_walk]. rewrite bind_gets, Htop.
destruct (entries_at (w_fs w) (seed ++ t)) as [es|] eqn:Escan; [|reflexivity].
cbv zeta.
erewrite bind_ok.
2:{ apply for_yield_nothing. intros f Hf.
    apply (listed_kind (w_fs w) (seed ++ t) es f is_file_node Hwf Escan) in Hf
      as ([m d|?] & Hn & Hf); [|discriminate Hf].
    assert (Hk : kind_at (w_fs w) (seed ++ t ++ [f]) = Some (KFile d)).
    { rewrite app_assoc. apply kind_at_file. now exists m. }
    destruct (Hall _ _ Hk) as [Hname Hlim].
    assert (t = [] /\ f = sha1 d) as [-> ->].
    { destruct t as [|x [|y t']]; cbn in Hname; [|discriminate Hname..].
      injection Hname as ->. now split. }
    apply (clean_file_fixed seed_corpus_dir _ w d).
    - rewrite locate_join, Htop. fold seed. now rewrite app_nil_r.
    - exact Hk.
    - exact Hlim. }
erewrite bind_ok; [reflexivity|].
apply for_yield_nothing. intros dn Hdn.
apply (listed_kind (w_fs w) (seed ++ t) es dn is_dir_node Hwf Escan) in Hdn
  as ([?|es'] & Hn & Hd); [discriminate Hd|].
apply (IH _ (t ++ [dn])).
- now rewrite locate_join, Htop, app_assoc.
- exact Hwf.
- exact Hall.
- assert (height_at (w_fs w) ((seed ++ t) ++ [dn]) < height_at (w_fs w) (seed ++ t)).
  { apply height_at_child. unfold isdir_at. now rewrite Hn. }
  fold seed. rewrite <- app_assoc in H. lia.
Qed.

(** X4.  Cleaning is idempotent: under the conditions in which the seeds are
    settled (a well-formed tree, [NO_SEEDS] unset, a digest that tells the
    seed contents within the limit apart, no entry of the seed directory in
    the way of a digest), a second call finds nothing to do and leaves the
    world exactly as the first call left it. *)
Theorem clean_seed_corpus_idempotent :
  forall (w : world) (seed_corpus_dir : path),
    let fs0 := w_fs w in
    let seed := locate (w_cwd w) seed_corpus_dir in
    wf_node fs0 ->
    isdir_at fs0 seed = true ->
    NO_SEEDS (w_env w) = false ->
    (forall d1 d2, seed_content fs0 seed d1 -> seed_content fs0 seed d2 ->
                   sha1 d1 = sha1 d2 -> d1 = d2) ->
    (forall d k, seed_content fs0 seed d ->
                 kind_at fs0 (seed ++ [sha1 d]) = Some k -> k = KFile d) ->
    exists w',
      _clean_seed_corpus sha1 seed_corpus_dir w = (Ok tt, w')
      /\ _clean_seed_corpus sha1 seed_corpus_dir w' = (Ok tt, w').
Proof.
intros w sd fs0 seed Hwf Hdir Hno Hinj Hclash.
assert (Hk : kind_at fs0 seed = Some KDir) by now apply isdir_at_kind.
destruct (clean_walk_settles sha1 fs0 seed Hk Hinj Hclash sd
            (S (height fs0)) sd [] w)
  as (w' & Hrun & Hcwd & HI & _ & Hclean).
{ reflexivity. }
{ subst seed. now rewrite app_nil_r. }
{ now apply Inv_initial. }
{ pose proof (height_at_le fs0 (seed ++ [])). lia. }
rewrite app_nil_r in Hclean.
destruct HI as [Hwf' Hdirs _ _].
pose proof (keeps_tidy_clean_walk (w_cwd w) seed sd eq_refl
              (S (height fs0)) sd [] (eq_sym (app_nil_r _)) w eq_refl Hwf)
  as (_ & Henv & _).
fold fs0 in Henv. rewrite Hrun in Henv. cbn [snd] in Henv.
assert (Hk' : kind_at (w_fs w') seed = Some KDir) by now apply Hdirs.
assert (Hall : all_settled seed (w_fs w')).
{ intros rest d H. destruct rest as [|x rest].
  - rewrite app_nil_r in H. congruence.
  - destruct (Hclean (x :: rest) d) as [Heq [Hlim _]];
      [discriminate|exact H|].
    split; [now apply app_inv_head in Heq|exact Hlim]. }
assert (Hfirst : _clean_seed_corpus sha1 sd w = (Ok tt, w')).
{ unfold _clean_seed_corpus, os_path_exists. rewrite bind_gets.
  fold seed fs0. unfold exists_at.
  unfold isdir_at in Hdir. destruct (node_at fs0 seed); [|discriminate].
  cbn [negb]. rewrite bind_gets, Hno, bind_gets.
  erewrite bind_ok by exact Hrun. reflexivity. }
assert (Hsecond : clean_walk sha1 (S (height (w_fs w'))) sd sd w' = (Ok [], w')).
{ apply (clean_walk_fixed sd _ sd []).
  - rewrite Hcwd. fold seed. now rewrite app_nil_r.
  - exact Hwf'.
  - rewrite Hcwd. exact Hall.
  - rewrite Hcwd. fold seed.
    pose proof (height_at_le (w_fs w') (seed ++ [])). lia. }
exists w'. split; [exact Hfirst|].
unfold _clean_seed_corpus, os_path_exists. rewrite bind_gets, Hcwd.
fold seed. unfold exists_at.
unfold kind_at in Hk'. destruct (node_at (w_fs w') seed) eqn:En; [|discriminate].
cbn [negb]. rewrite bind_gets, Henv, Hno, bind_gets.
erewrite bind_ok by exact Hsecond. reflexivity.
Qed.
End MoreOnCleaning.

Lemma clean_seed_corpus_no_seeds_witness :
  exists fs',
    _clean_seed_corpus plain_digest (Abs ["seeds"]) (seed_world seed_tree true)
    = (Ok tt,
       set_fs fs'
         (add_log (Log INFO "NO_SEEDS specified, deleting seed corpus files." [])
                  (seed_world seed_tree true)))
    /\ entries_at fs' ["seeds"] = Some []
    /\ forall q, ~ strictly_below ["seeds"] q ->
                 kind_at fs' q = kind_at seed_tree q.
Proof.
assert (Hwf : wf_node (w_fs (seed_world seed_tree true)))
  by (apply wf_check_sound; reflexivity).
assert (Hne : locate (w_cwd (seed_world seed_tree true)) (Abs ["seeds"]) <> [])
  by discriminate.
exact (proj1 (clean_seed_corpus_no_seeds plain_digest
                (seed_world seed_tree true) (Abs ["seeds"]) Hwf eq_refl Hne)
             eq_refl).
Defined.

Lemma clean_seed_corpus_stays_inside_witness :
  let fs' := w_fs (snd (_clean_seed_corpus plain_digest (Abs ["seeds"])
                          (seed_world seed_tree false))) in
  wf_node fs'
  /\ (forall q, ~ strictly_below ["seeds"] q -> kind_at fs' q = kind_at seed_tree q)
  /\ (NO_SEEDS (w_env (seed_world seed_tree false)) = false ->
      forall q, kind_at fs' q = Some KDir <-> kind_at seed_tree q = Some KDir).
Proof.
apply (clean_seed_corpus_stays_inside plain_digest
         (seed_world seed_tree false) (Abs ["seeds"])).
apply wf_check_sound. reflexivity.
Defined.

Lemma clean_seed_corpus_idempotent_witness :
  exists w',
    _clean_seed_corpus plain_digest (Abs ["seeds"]) (seed_world seed_tree false)
    = (Ok tt, w')
    /\ _clean_seed_corpus plain_digest (Abs ["seeds"]) w' = (Ok tt, w').
Proof.
apply (clean_seed_corpus_idempotent plain_digest
         (seed_world seed_tree false) (Abs ["seeds"])).
- apply wf_check_sound. reflexivity.
- reflexivity.
- reflexivity.
- intros d1 d2 _ _. apply plain_digest_injective.
- intros d k [_ [rest Hd]] Hk.
  apply kind_at_contents in Hd.
  simpl in Hd. destruct Hd as [<-|[<-|[<-|[]]]]; vm_compute in Hk; discriminate.
Defined.

End Seeds.

(* ================================================================== *)
(** * Archiving what changed since the last archive *)
(* ================================================================== *)

Module Archiver.

Section WithExperimentUtils.

(** [experiment_utils.get_corpus_archive_name], which is not part of the
    runner: the archive's file name for a cycle. *)
Variable get_corpus_archive_name : nat -> string.

(** [experiment_utils.get_trial_bucket_dir], likewise. *)
Variable get_trial_bucket_dir : string -> string -> option Z -> string.

(** [filestore_utils.rm(path, force=True, parallel=True)] *)
Definition filestore_rm (dst : string) : M unit :=
  external ;; modify (add_event (RemoteRemoved dst)).

(** [TrialRunner.__init__] *)
Definition TrialRunner__init__ : M unit :=
  env <- gets w_env ;;
  gcs_sync_dir <-
    (if negb (FUZZ_OUTSIDE_EXPERIMENT env)
     then
       let gcs_sync_dir :=
         get_trial_bucket_dir (FUZZER env) (BENCHMARK env) (TRIAL_ID env) in
       filestore_rm gcs_sync_dir ;;
       ret (Some gcs_sync_dir)
     else ret None) ;;
  corpus_archives_dir <- os_path_abspath (Rel ["corpus-archives"]) ;;
  results_dir <- os_path_abspath (Rel ["results"]) ;;
  modify (set_self
            (Runner gcs_sync_dir 0 (OUTPUT_CORPUS_DIR env) corpus_archives_dir
                    results_dir (os_path_join results_dir "fuzzer-log.txt")
                    None NegInf)).

Definition target_subdirs : list string := ["queue"; "crashes"; "hangs"].

(** [iter_targeted_corpus_elements(corpus_dir)]: the paths the generator
    yields. *)
Definition iter_targeted_corpus_elements (corpus_dir : path) : M (list path) :=
  corpus_dir <- os_path_abspath corpus_dir ;;
  for_yield target_subdirs (fun subdir =>
    let target_path := os_path_join corpus_dir subdir in
    is_d <- os_path_isdir target_path ;;
    if negb is_d then ret [] else
    triples <- os_walk target_path ;;
    for_yield triples (fun '(root, _, files) =>
      for_yield files (fun filename =>
        ret [os_path_join root filename]))).

(** ** The tar file *)

Fixpoint store_get (archive : path) (st : list (path * list member))
  : option (list member) :=
  match st with
  | [] => None
  | (a, ms) :: st' => if path_eqb a archive then Some ms else store_get archive st'
  end.

Fixpoint store_put (archive : path) (ms : list member) (st : list (path * list member))
  : list (path * list member) :=
  match st with
  | [] => [(archive, ms)]
  | (a, old) :: st' =>
      if path_eqb a archive then (a, ms) :: st'
      else (a, old) :: store_put archive ms st'
  end.

(** [tarfile.open(archive, 'w:gz')]: creates or truncates the file. *)
Definition tarfile_open (archive : path) : M unit :=
  external ;;
  modify (fun w => set_archives (store_put archive [] (w_archives w)) w).

(** [tar.add(file_path, arcname=arcname)] for a regular file.  Adding a
    directory is not modelled: the walk only yields files. *)
Definition tar_add (archive file_path arcname : path) : M unit :=
  fun w =>
    match node_at (w_fs w) (locate (w_cwd w) file_path) with
    | Some (File m d) =>
        let old := match store_get archive (w_archives w) with
                   | Some ms => ms
                   | None => []
                   end in
        (Ok tt, set_archives
                  (store_put archive (old ++ [Member arcname m d]) (w_archives w)) w)
    | Some (Dir _) => (Raise OtherException, w)
    | None => (Raise OSError, w)
    end.

(** Leaving the [with] block closes and finalises the archive. *)
Definition tar_close (archive : path) : M unit := external.

(** [os.path.relpath(p, start)] *)
Definition os_path_relpath (p start : path) : M path :=
  fun w =>
    match relpath_in (w_cwd w) p start with
    | Some r => (Ok r, w)
    | None => (Raise ValueError, w)
    end.

(** The body of the [for] loop of [archive_corpus].  The local variable
    [new_archive_time] is assigned before [tar.add] is called, so it keeps
    its new value when [tar.add] raises. *)
Definition archive_element (archive real_corpus_root : path) (watermark : stamp)
    (new_archive_time : stamp) (file_path : path) : M stamp :=
  let handlers (keep : stamp) (c : M stamp) : M stamp :=
    try_except
      (try_except c is_OSError (fun _ => ret keep))
      any_exception
      (fun _ =>
         logs_error "Unexpected exception occurred when archiving." [] ;;
         ret keep) in
  handlers new_archive_time
    (last_modified_time <- os_stat_mtime file_path ;;
     if stamp_leb (At last_modified_time) watermark
     then ret new_archive_time            (* saved already *)
     else
       let new_archive_time := stamp_max new_archive_time (At last_modified_time) in
       handlers new_archive_time
         (arcname <- os_path_relpath file_path real_corpus_root ;;
          tar_add archive file_path arcname ;;
          ret new_archive_time)).

Fixpoint archive_elements (archive real_corpus_root : path) (watermark : stamp)
    (new_archive_time : stamp) (files : list path) : M stamp :=
  match files with
  | [] => ret new_archive_time
  | file_path :: files' =>
      t <- archive_element archive real_corpus_root watermark
             new_archive_time file_path ;;
      archive_elements archive real_corpus_root watermark t files'
  end.

Definition set_last_archive_time (t : stamp) (r : runner) : runner :=
  Runner (gcs_sync_dir r) (cycle r) (output_corpus r) (corpus_archives_dir r)
         (results_dir r) (log_file r) (last_sync_time r) t.

(** [TrialRunner.archive_corpus] *)
Definition archive_corpus : M path :=
  self <- gets w_self ;;
  let archive := os_path_join (corpus_archives_dir self)
                              (get_corpus_archive_name (cycle self)) in
  real_corpus_root <- Resolver._find_real_output_corpus_dir (output_corpus self) ;;
  match real_corpus_root with
  | None => raise TypeError               (* os.path.join(None, 'queue') *)
  | Some real_corpus_root =>
      let queue_dir := os_path_join real_corpus_root "queue" in
      is_q <- os_path_isdir queue_dir ;;
      (if negb is_q
       then logs_warning
              "No queue/ found in real_corpus_root=%s (cycle=%d). Archiving may be seed-only."
              [APath real_corpus_root; AInt (Z.of_nat (cycle self))]
       else ret tt) ;;
      tarfile_open archive ;;
      files <- iter_targeted_corpus_elements real_corpus_root ;;
      new_archive_time <- archive_elements archive real_corpus_root
                            (last_archive_time self) (last_archive_time self) files ;;
      tar_close archive ;;
      modify (fun w => set_self (set_last_archive_time new_archive_time (w_self w)) w) ;;
      ret archive
  end.

(** ** What the generator yields *)

Definition targeted_paths (fs : node) (cwd : loc) (corpus_dir : path) : list path :=
  flat_map (fun subdir =>
     let target_path := os_path_join (abspath_in cwd corpus_dir) subdir in
     match node_at fs (locate cwd target_path) with
     | Some (Dir es) => files_below target_path (Dir es)
     | _ => []
     end) target_subdirs.

Lemma for_yield_reads {A B} (l : list A) (body : A -> M (list B)) (f : A -> list B) w :
  (forall x, body x w = (Ok (f x), w)) ->
  for_yield l body w = (Ok (flat_map f l), w).
Proof.
intros Hb. induction l as [|x l IH]; simpl; [reflexivity|].
erewrite bind_ok by apply Hb. erewrite bind_ok by apply IH. reflexivity.
Qed.

Lemma for_yield_singletons {A B} (l : list A) (g : A -> B) w :
  for_yield l (fun x => ret [g x]) w = (Ok (map g l), w).
Proof.
induction l as [|x l IH]; simpl; [reflexivity|].
rewrite bind_ret. erewrite bind_ok by apply IH. reflexivity.
Qed.

Lemma iter_targeted_run corpus_dir w :
  iter_targeted_corpus_elements corpus_dir w
  = (Ok (targeted_paths (w_fs w) (w_cwd w) corpus_dir), w).
Proof.
unfold iter_targeted_corpus_elements, targeted_paths, os_path_abspath.
rewrite bind_gets. apply for_yield_reads. intros subdir. cbv zeta.
unfold os_path_isdir, isdir_at. rewrite bind_gets.
destruct (node_at (w_fs w) _) as [[m d|es]|] eqn:E; cbn [negb]; try reflexivity.
unfold os_walk. rewrite bind_gets, E.
apply for_yield_reads. intros [[root dirs] files].
apply for_yield_singletons.
Qed.

(** ** What the loop adds to the archive *)

Definition member_for (fs : node) (cwd : loc) (root q : path) : list member :=
  match node_at fs (locate cwd q), relpath_in cwd q root with
  | Some (File m d), Some arc => [Member arc m d]
  | _, _ => []
  end.

Definition newer (watermark : stamp) (mb : member) : bool :=
  negb (stamp_leb (At (member_mtime mb)) watermark).

Definition step_time (fs : node) (cwd : loc) (watermark t : stamp) (q : path) : stamp :=
  match node_at fs (locate cwd q) with
  | Some (File m _) =>
      if stamp_leb (At m) watermark then t else stamp_max t (At m)
  | _ => t
  end.

(** [q] is a file below [root]. *)
Definition below_root (fs : node) (cwd : loc) (root q : path) : Prop :=
  exists ra rest m d,
    root = Abs ra /\ q = Abs (ra ++ rest)
    /\ node_at fs (ra ++ rest) = Some (File m d).

Lemma store_get_put archive ms st :
  store_get archive (store_put archive ms st) = Some ms.
Proof.
induction st as [|[a old] st IH]; simpl.
- now rewrite (proj2 (path_eqb_eq archive archive) eq_refl).
- destruct (path_eqb a archive) eqn:E; simpl; now rewrite E.
Qed.

Lemma archive_element_below archive root watermark t q w old :
  below_root (w_fs w) (w_cwd w) root q ->
  store_get archive (w_archives w) = Some old ->
  exists st',
    archive_element archive root watermark t q w
    = (Ok (step_time (w_fs w) (w_cwd w) watermark t q), set_archives st' w)
    /\ store_get archive st'
       = Some (old ++ filter (newer watermark)
                        (member_for (w_fs w) (w_cwd w) root q)).
Proof.
intros (ra & rest & m & d & -> & -> & Hat) Hold.
unfold archive_element, step_time, member_for, relpath_in. cbv zeta.
rewrite !locate_abs, Hat, strip_prefix_app. cbn [option_map filter].
unfold newer. cbn [member_mtime].
unfold try_except, bind, os_stat_mtime. rewrite locate_abs, Hat.
destruct (stamp_leb (At m) watermark) eqn:El; cbn [negb].
- exists (w_archives w). split.
  + destruct w; reflexivity.
  + now rewrite app_nil_r.
- unfold os_path_relpath, relpath_in, tar_add.
  unfold locate. cbn [abspath_in comps].
  rewrite strip_prefix_app. cbn [option_map].
  rewrite Hat, Hold. eexists. split; [reflexivity|].
  apply store_get_put.
Qed.

Lemma archive_elements_below archive root watermark qs :
  forall t w old,
    Forall (below_root (w_fs w) (w_cwd w) root) qs ->
    store_get archive (w_archives w) = Some old ->
    exists st',
      archive_elements archive root watermark t qs w
      = (Ok (fold_left (step_time (w_fs w) (w_cwd w) watermark) qs t),
         set_archives st' w)
      /\ store_get archive st'
         = Some (old ++ filter (newer watermark)
                          (flat_map (member_for (w_fs w) (w_cwd w) root) qs)).
Proof.
induction qs as [|q qs IH]; intros t w old Hall Hold.
- exists (w_archives w). simpl. rewrite app_nil_r. split; [|exact Hold].
  destruct w; reflexivity.
- inversion Hall as [|? ? Hq Hqs]; subst.
  destruct (archive_element_below archive root watermark t q w old Hq Hold)
    as (st1 & Hrun1 & Hget1).
  destruct (IH (step_time (w_fs w) (w_cwd w) watermark t q)
               (set_archives st1 w) _ Hqs Hget1) as (st2 & Hrun2 & Hget2).
  exists st2. split.
  + cbn [archive_elements]. erewrite bind_ok by exact Hrun1.
    rewrite Hrun2. reflexivity.
  + rewrite Hget2. cbn [flat_map]. rewrite filter_app, app_assoc. reflexivity.
Qed.

Lemma targeted_paths_spec fs cwd root ra q :
  wf_node fs ->
  abspath_in cwd root = Abs ra ->
  In q (targeted_paths fs cwd root) <->
  exists subdir rest m d,
    In subdir target_subdirs /\ rest <> []
    /\ q = Abs (ra ++ subdir :: rest)
    /\ node_at fs (ra ++ subdir :: rest) = Some (File m d).
Proof.
intros Hwf Ha. unfold targeted_paths. rewrite in_flat_map, Ha.
cbn [os_path_join locate abspath_in comps].
split.
- intros (subdir & Hsub & Hq).
  destruct (node_at fs (ra ++ [subdir])) as [[m0 d0|es]|] eqn:E;
    try contradiction.
  apply (files_below_spec (Dir es)) in Hq as (rest & m & d & Hne & -> & Hat).
  2:{ exact (wf_node_at fs _ _ Hwf E). }
  exists subdir, rest, m, d. repeat split; try assumption.
  + cbn [path_app]. now rewrite <- app_assoc.
  + change (subdir :: rest) with ([subdir] ++ rest).
    now rewrite app_assoc, node_at_app, E.
- intros (subdir & rest & m & d & Hsub & Hne & -> & Hat).
  exists subdir. split; [exact Hsub|].
  change (subdir :: rest) with ([subdir] ++ rest) in Hat |- *.
  rewrite app_assoc, node_at_app in Hat.
  destruct (node_at fs (ra ++ [subdir])) as [[m0 d0|es]|] eqn:E.
  + destruct rest; [congruence|discriminate].
  + apply (files_below_spec (Dir es)).
    { exact (wf_node_at fs _ _ Hwf E). }
    exists rest, m, d. repeat split; try assumption.
    cbn [path_app]. now rewrite <- app_assoc.
  + discriminate.
Qed.

Lemma targeted_paths_below fs cwd root ra :
  wf_node fs ->
  abspath_in cwd root = Abs ra ->
  Forall (below_root fs cwd (Abs ra)) (targeted_paths fs cwd root).
Proof.
intros Hwf Ha. apply Forall_forall. intros q Hq.
apply (targeted_paths_spec fs cwd root ra q Hwf Ha) in Hq
  as (subdir & rest & m & d & _ & _ & -> & Hat).
now exists ra, (subdir :: rest), m, d.
Qed.

(** The run of [archive_corpus] on a well-formed tree: either an external
    operation on the tar file fails and the runner is as before, or the
    archive holds the newer files among those the generator yields. *)
Lemma archive_corpus_outcome w nominal :
  wf_node (w_fs w) ->
  output_corpus (w_self w) = Some nominal ->
  let fs := w_fs w in
  let cwd := w_cwd w in
  let root := Resolver.decide_visible fs cwd nominal in
  let watermark := last_archive_time (w_self w) in
  let archive := os_path_join (corpus_archives_dir (w_self w))
                   (get_corpus_archive_name (cycle (w_self w))) in
  (exists w',
     archive_corpus w = (Ok archive, w')
     /\ store_get archive (w_archives w')
        = Some (filter (newer watermark)
                  (flat_map (member_for fs cwd root) (targeted_paths fs cwd root)))
     /\ w_self w'
        = set_last_archive_time
            (fold_left (step_time fs cwd watermark) (targeted_paths fs cwd root) watermark)
            (w_self w)
     /\ w_fs w' = fs)
  \/ (exists e w',
        archive_corpus w = (Raise e, w')
        /\ w_self w' = w_self w
        /\ In (Some e) (firstn 2 (w_faults w))).
Proof.
intros Hwf Hout fs cwd root watermark archive.
destruct (Resolver.decide_visible_absolute fs cwd nominal)
  as [ra Hra].
fold (Resolver.decide_visible fs cwd nominal) in Hra. fold root in Hra.
unfold archive_corpus. rewrite bind_gets, Hout.
erewrite bind_ok by apply Resolver.find_real_run.
fold fs cwd root archive watermark. cbv zeta. unfold os_path_isdir. rewrite bind_gets.
set (w1 := if isdir_at (w_fs w) (locate (w_cwd w) (os_path_join root "queue"))
           then w
           else add_log (Log WARNING
             "No queue/ found in real_corpus_root=%s (cycle=%d). Archiving may be seed-only."
             [APath root; AInt (Z.of_nat (cycle (w_self w)))]) w).
assert (Hlog : (if negb (isdir_at (w_fs w)
                          (locate (w_cwd w) (os_path_join root "queue")))
                then logs_warning
                  "No queue/ found in real_corpus_root=%s (cycle=%d). Archiving may be seed-only."
                  [APath root; AInt (Z.of_nat (cycle (w_self w)))]
                else ret tt) w = (Ok tt, w1)).
{ subst w1. destruct (isdir_at _ _); reflexivity. }
assert (Hw1 : w_fs w1 = fs /\ w_cwd w1 = cwd /\ w_faults w1 = w_faults w
              /\ w_self w1 = w_self w).
{ subst w1. destruct (isdir_at _ _); repeat split. }
clearbody w1. destruct Hw1 as (Hfs1 & Hcwd1 & Hfl1 & Hself1).
erewrite bind_ok by exact Hlog. clear Hlog.
unfold tarfile_open.
destruct (external_step w1) as [(e & rest & Hf & Hext)|[Hhd Hext]].
{ right. exists e, (set_faults rest w1). split; [|split].
  - erewrite bind_raise; [reflexivity|]. erewrite bind_raise; [reflexivity|exact Hext].
  - exact Hself1.
  - rewrite <- Hfl1, Hf. destruct rest; now left. }
erewrite bind_ok; [|erewrite bind_ok by exact Hext; reflexivity].
set (w2 := set_archives _ _).
erewrite bind_ok by apply iter_targeted_run.
assert (Hfs2 : w_fs w2 = fs) by exact Hfs1.
assert (Hcwd2 : w_cwd w2 = cwd) by exact Hcwd1.
rewrite Hfs2, Hcwd2.
destruct (archive_elements_below archive root watermark
            (targeted_paths fs cwd root) watermark w2 [])
  as (st' & Hloop & Hget).
{ rewrite Hfs2, Hcwd2. subst root. rewrite Hra.
  apply targeted_paths_below; [exact Hwf|reflexivity]. }
{ apply store_get_put. }
rewrite Hfs2, Hcwd2 in Hloop, Hget.
erewrite bind_ok by exact Hloop.
unfold tar_close.
destruct (external_step (set_archives st' w2)) as [(e & rest & Hf & Hext2)|[Hhd2 Hext2]].
{ right. exists e, (set_faults rest (set_archives st' w2)). split; [|split].
  - erewrite bind_raise; [reflexivity|exact Hext2].
  - exact Hself1.
  - change (w_faults (set_archives st' w2)) with (tl (w_faults w1)) in Hf.
    rewrite Hfl1 in Hf.
    destruct (w_faults w) as [|x [|y l]]; simpl in Hf; try discriminate.
    injection Hf as -> _. right; now left. }
erewrite bind_ok by exact Hext2. rewrite bind_modify. unfold ret.
left. eexists. split; [reflexivity|].
cbn [w_archives w_self w_fs set_self set_faults set_archives].
split; [exact Hget|]. split; [|exact Hfs1].
subst w2. cbn [w_self set_archives set_faults]. now rewrite Hself1.
Qed.

(** ** Frames *)

Lemma keeps_tar_add archive file_path arcname :
  keeps steady (tar_add archive file_path arcname).
Proof. unfold tar_add. one_step. Qed.

Lemma total_tar_add archive file_path arcname :
  total (tar_add archive file_path arcname).
Proof. unfold tar_add. one_step. Qed.

Lemma keeps_os_path_relpath p start : keeps steady (os_path_relpath p start).
Proof. unfold os_path_relpath. one_step. Qed.

Lemma total_os_path_relpath p start : total (os_path_relpath p start).
Proof. unfold os_path_relpath. one_step. Qed.

Lemma total_os_stat_mtime p : total (os_stat_mtime p).
Proof. unfold os_stat_mtime. one_step. Qed.

Lemma keeps_archive_elements archive root watermark files :
  forall t, keeps steady (archive_elements archive root watermark t files).
Proof.
induction files as [|q files IH]; intros t; cbn [archive_elements].
- apply keeps_ret, steady_refl.
- apply (keeps_bind _ steady_trans); [|intro; apply IH].
  unfold archive_element, logs_error.
  pose proof keeps_tar_add. pose proof keeps_os_path_relpath.
  steady_frame.
Qed.

Lemma total_archive_elements archive root watermark files :
  forall t, total (archive_elements archive root watermark t files).
Proof.
induction files as [|q files IH]; intros t; cbn [archive_elements].
- apply total_ret.
- apply total_bind; [|intro; apply IH].
  unfold archive_element, logs_error.
  pose proof total_tar_add. pose proof total_os_path_relpath.
  pose proof total_os_stat_mtime.
  repeat first [ solve [eauto with frames]
               | frame_step steady_refl steady_trans ].
Qed.

Lemma keeps_archive_corpus : keeps steady archive_corpus.
Proof.
unfold archive_corpus, tarfile_open, tar_close, os_path_isdir, logs_warning.
pose proof keeps_archive_elements.
assert (forall d, keeps steady (iter_targeted_corpus_elements d)).
{ intros d. apply keeps_reads; [apply steady_refl|].
  intros w. now rewrite iter_targeted_run. }
steady_frame.
Qed.

Lemma total_archive_corpus : total archive_corpus.
Proof.
unfold archive_corpus, tarfile_open, tar_close, os_path_isdir, logs_warning.
pose proof total_archive_elements.
assert (forall d, total (iter_targeted_corpus_elements d)).
{ intros d w. now rewrite iter_targeted_run. }
repeat first [ solve [eauto with frames]
             | frame_step steady_refl steady_trans ].
Qed.

Lemma keeps_init : keeps quiet TrialRunner__init__.
Proof.
unfold TrialRunner__init__, filestore_rm, os_path_abspath.
pose proof (steady_quiet _ keeps_external).
repeat first [ solve [eauto with frames]
             | frame_step quiet_refl quiet_trans ].
Qed.

(** ** Claim C1: what an archive holds *)


(** ** Claim C2: the watermark *)


Lemma fold_step_time_max fs cwd watermark qs :
  forall t,
    stamp_leb watermark t = true ->
    fold_left (step_time fs cwd watermark) qs t
    = fold_left stamp_max
        (map At (flat_map (fun q => match node_at fs (locate cwd q) with
                                    | Some (File m _) => [m]
                                    | _ => []
                                    end) qs)) t.
Proof.
induction qs as [|q qs IH]; intros t Ht; [reflexivity|].
cbn [fold_left flat_map]. rewrite map_app, fold_left_app.
unfold step_time at 2.
destruct (node_at fs (locate cwd q)) as [[m d|es]|]; cbn [map fold_left];
  try (now apply IH).
destruct (stamp_leb (At m) watermark) eqn:E.
- assert (Hm : stamp_max t (At m) = t).
  { unfold stamp_max. destruct (stamp_leb t (At m)) eqn:E2; [|reflexivity].
    apply stamp_leb_antisym; [|exact E2].
    now apply (stamp_leb_trans _ watermark). }
  rewrite Hm. now apply IH.
- apply IH. eapply stamp_leb_trans; [exact Ht|apply stamp_max_ge_l].
Qed.



End WithExperimentUtils.

#[global] Hint Resolve keeps_archive_corpus total_archive_corpus keeps_init
  : frames.

Definition sample_tree : node :=
  Dir [("out",
        Dir [("default",
              Dir [("queue", Dir [("id:0", File 5 []); ("id:1", File 12 []);
                                  (".state", Dir [("v", File 20 [])])]);
                   ("crashes", Dir [("c0", File 11 [])]);
                   ("fuzzer_stats", File 30 []);
                   ("plot_data", File 31 [])])])].

Definition sample_world : world :=
  World sample_tree ["work"]
        (Environ "afl" "libpng" false false (Some (Abs ["out"])) None None 0 (Some 1%Z)
                 false false false 0)
        100 [] 0 [] [] [] false
        (Runner None 3 (Some (Abs ["out"])) (Abs ["work"; "corpus-archives"])
                (Abs ["work"; "results"]) (Abs ["work"; "results"; "fuzzer-log.txt"])
                None (At 10)).

Definition sample_name (c : nat) : string := "corpus-archive.tar.gz".

Definition sample_bucket (fuzzer benchmark : string) (trial : option Z) : string :=
  "gs://experiment-data/trial".



Example archive_corpus_sample :
  let '(r, w') := archive_corpus sample_name sample_world in
  r = Ok (Abs ["work"; "corpus-archives"; "corpus-archive.tar.gz"])
  /\ w_archives w'
     = [(Abs ["work"; "corpus-archives"; "corpus-archive.tar.gz"],
         [Member (Rel ["queue"; "id:1"]) 12 [];
          Member (Rel ["queue"; ".state"; "v"]) 20 [];
          Member (Rel ["crashes"; "c0"]) 11 []])]
  /\ last_archive_time (w_self w') = At 20.
Proof. vm_compute. repeat split. Qed.

(* ------------------------------------------------------------------ *)
(** ** Listing the corpus *)

(** [get_corpus_elements(corpus_dir)] *)
Definition get_corpus_elements (corpus_dir : path) : M (list path) :=
  corpus_dir <- os_path_abspath corpus_dir ;;
  triples <- os_walk corpus_dir ;;
  for_yield triples (fun '(root, _, files) =>
    for_yield files (fun filename => ret [os_path_join root filename])).

Lemma get_corpus_elements_run corpus_dir w :
  get_corpus_elements corpus_dir w
  = (Ok match node_at (w_fs w) (locate (w_cwd w) corpus_dir) with
        | Some n => files_below (abspath_in (w_cwd w) corpus_dir) n
        | None => []
        end, w).
Proof.
unfold get_corpus_elements, os_path_abspath, os_walk. rewrite !bind_gets.
unfold locate at 1. rewrite abspath_in_idem. fold (locate (w_cwd w) corpus_dir).
destruct (node_at (w_fs w) (locate (w_cwd w) corpus_dir)) as [n|].
- unfold files_below. apply for_yield_reads. intros [[root dirs] files].
  apply for_yield_singletons.
- reflexivity.
Qed.

(** X5.  [get_corpus_elements] only reads; on a well-formed tree it returns the
    absolute path of every regular file below the corpus directory, at any
    depth, each once, and nothing else (nothing at all when the directory is
    missing). *)
Theorem get_corpus_elements_lists_files :
  forall (w : world) (corpus_dir : path),
    wf_node (w_fs w) ->
    let top := locate (w_cwd w) corpus_dir in
    exists l,
      get_corpus_elements corpus_dir w = (Ok l, w)
      /\ NoDup l
      /\ (forall q, In q l <->
            exists rest m data,
              rest <> [] /\ q = Abs (top ++ rest)
              /\ node_at (w_fs w) (top ++ rest) = Some (File m data))
      /\ (exists_at (w_fs w) top = false -> l = []).
Proof.
intros w d Hwf top. eexists. split; [apply get_corpus_elements_run|].
fold top.
assert (Ha : abspath_in (w_cwd w) d = Abs top) by now destruct d.
rewrite Ha. unfold exists_at.
destruct (node_at (w_fs w) top) as [n|] eqn:En.
- pose proof (wf_node_at _ _ _ Hwf En) as Hn.
  split; [now apply files_below_NoDup|]. split; [|discriminate].
  intros q. rewrite (files_below_spec n Hn). cbn [path_app].
  split; intros (rest & m & data & Hne & Hq & Hat); exists rest, m, data;
    (split; [exact Hne|split; [exact Hq|]]).
  + now rewrite node_at_app, En.
  + now rewrite node_at_app, En in Hat.
- split; [constructor|]. split; [|reflexivity].
  intros q. split; [contradiction|].
  intros (rest & m & data & _ & _ & Hat).
  now rewrite node_at_app, En in Hat.
Qed.

Lemma targeted_paths_NoDup fs cwd root :
  wf_node fs -> NoDup (targeted_paths fs cwd root).
Proof.
intros Hwf. unfold targeted_paths.
set (a := abspath_in cwd root).
assert (Hform : forall subdir q,
  In q match node_at fs (locate cwd (os_path_join a subdir)) with
       | Some (Dir es) => files_below (os_path_join a subdir) (Dir es)
       | _ => []
       end ->
  exists x rest, q = path_app a (subdir :: x :: rest)).
{ intros subdir q Hq.
  destruct (node_at fs (locate cwd (os_path_join a subdir))) as [[?|es]|] eqn:E;
    try contradiction.
  apply files_below_form in Hq as (x & rest & ->);
    [|exact (wf_node_at _ _ _ Hwf E)].
  exists x, rest. apply path_app_join. }
apply NoDup_flat_map_disjoint.
- unfold target_subdirs. repeat constructor; cbn; intuition discriminate.
- intros subdir _.
  destruct (node_at fs (locate cwd (os_path_join a subdir))) as [[?|es]|] eqn:E;
    try constructor.
  apply files_below_NoDup. exact (wf_node_at _ _ _ Hwf E).
- intros s1 s2 q _ _ H1 H2.
  apply Hform in H1 as (x1 & r1 & ->). apply Hform in H2 as (x2 & r2 & Heq).
  apply path_app_inj in Heq. now injection Heq.
Qed.

Lemma get_corpus_elements_lists_files_witness :
  exists l,
    get_corpus_elements (Abs ["out"; "default"]) sample_world = (Ok l, sample_world)
    /\ NoDup l
    /\ (forall q, In q l <->
          exists rest m data,
            rest <> [] /\ q = Abs (["out"; "default"] ++ rest)
            /\ node_at sample_tree (["out"; "default"] ++ rest) = Some (File m data))
    /\ (exists_at sample_tree ["out"; "default"] = false -> l = []).
Proof.
apply (get_corpus_elements_lists_files sample_world (Abs ["out"; "default"])).
apply wf_check_sound. reflexivity.
Defined.


Example get_corpus_elements_sample :
  fst (get_corpus_elements (Abs ["out"; "default"]) sample_world)
  = Ok [Abs ["out"; "default"; "fuzzer_stats"];
        Abs ["out"; "default"; "plot_data"];
        Abs ["out"; "default"; "queue"; "id:0"];
        Abs ["out"; "default"; "queue"; "id:1"];
        Abs ["out"; "default"; "queue"; ".state"; "v"];
        Abs ["out"; "default"; "crashes"; "c0"]].
Proof. reflexivity. Qed.

(* ------------------------------------------------------------------ *)
(** ** Archiving again *)

(** The tree, the working directory and the environment are as before. *)
Definition same_place (w w' : world) : Prop :=
  w_fs w' = w_fs w /\ w_cwd w' = w_cwd w /\ w_env w' = w_env w.

Lemma same_place_refl w : same_place w w.
Proof. now repeat split. Qed.

Lemma same_place_trans a b c : same_place a b -> same_place b c -> same_place a c.
Proof. unfold same_place. intros (?&?&?) (?&?&?). repeat split; congruence. Qed.

Ltac place_frame :=
  repeat first [ solve [auto using same_place_refl]
               | frame_step same_place_refl same_place_trans ].

Lemma keeps_place_external : keeps same_place external.
Proof. unfold external. one_step. Qed.

Lemma keeps_place_find_real arg :
  keeps same_place (Resolver._find_real_output_corpus_dir arg).
Proof.
apply keeps_reads; [apply same_place_refl|]. intros w.
destruct arg as [p|]; [now rewrite Resolver.find_real_run|reflexivity].
Qed.

Lemma keeps_place_archive_elements archive root watermark files :
  forall t, keeps same_place (archive_elements archive root watermark t files).
Proof.
induction files as [|q files IH]; intros t; cbn [archive_elements].
- apply keeps_ret, same_place_refl.
- apply (keeps_bind _ same_place_trans); [|intro; apply IH].
  unfold archive_element, logs_error.
  assert (keeps same_place (os_stat_mtime q)) by (unfold os_stat_mtime; one_step).
  assert (forall a b, keeps same_place (os_path_relpath a b))
    by (intros; unfold os_path_relpath; one_step).
  assert (forall a b c, keeps same_place (tar_add a b c))
    by (intros; unfold tar_add; one_step).
  place_frame.
Qed.

Section Incremental.

Variable get_corpus_archive_name : nat -> string.

Lemma keeps_place_archive_corpus :
  keeps same_place (archive_corpus get_corpus_archive_name).
Proof.
unfold archive_corpus, tarfile_open, tar_close, os_path_isdir, logs_warning.
pose proof keeps_place_archive_elements.
pose proof keeps_place_external.
pose proof keeps_place_find_real.
assert (forall d, keeps same_place (iter_targeted_corpus_elements d)).
{ intros d. apply keeps_reads; [apply same_place_refl|].
  intros w. now rewrite iter_targeted_run. }
place_frame.
Qed.
Lemma fold_stamp_max_ge_in l : forall a x,
  In x l -> stamp_leb x (fold_left stamp_max l a) = true.
Proof.
induction l as [|b l IH]; intros a x; [contradiction|].
cbn [fold_left]. intros [->|Hin]; [|now apply IH].
eapply stamp_leb_trans; [apply stamp_max_ge_r|apply fold_stamp_max_ge].
Qed.

(** Once the watermark has passed over a list of files, none of them is
    newer than it. *)
Lemma none_newer_after fs cwd root watermark qs :
  let t := fold_left (step_time fs cwd watermark) qs watermark in
  filter (newer t) (flat_map (member_for fs cwd root) qs) = []
  /\ fold_left (step_time fs cwd t) qs t = t.
Proof.
intros t.
assert (Hle : forall q m d, In q qs -> node_at fs (locate cwd q) = Some (File m d) ->
                            stamp_leb (At m) t = true).
{ intros q m d Hq Hn. subst t.
  rewrite fold_step_time_max by apply stamp_leb_refl.
  apply fold_stamp_max_ge_in. apply in_map. apply in_flat_map.
  exists q. split; [exact Hq|]. rewrite Hn. now left. }
clearbody t. split.
- induction qs as [|q qs IH]; [reflexivity|].
  cbn [flat_map]. rewrite filter_app, IH by (intros; eapply Hle; eauto; now right).
  rewrite app_nil_r. unfold member_for.
  destruct (node_at fs (locate cwd q)) as [[m d|es]|] eqn:En; try reflexivity.
  destruct (relpath_in cwd q root); [|reflexivity].
  cbn [filter]. unfold newer. cbn [member_mtime].
  now rewrite (Hle q m d (or_introl eq_refl) En).
- induction qs as [|q qs IH]; [reflexivity|].
  cbn [fold_left].
  assert (Hq : step_time fs cwd t t q = t).
  { unfold step_time.
    destruct (node_at fs (locate cwd q)) as [[m d|es]|] eqn:En; try reflexivity.
    now rewrite (Hle q m d (or_introl eq_refl) En). }
  rewrite Hq. apply IH. intros; eapply Hle; eauto; now right.
Qed.

(** X7.  Archiving is incremental: when [archive_corpus] has returned and is
    called again on the same tree (as the retry does after a failed upload),
    the second archive has the same name, holds no member at all, and the
    watermark stays where the first call put it. *)
Theorem archive_corpus_again_is_empty :
  forall (w w1 : world) (nominal archive : path),
    wf_node (w_fs w) ->
    output_corpus (w_self w) = Some nominal ->
    archive_corpus get_corpus_archive_name w = (Ok archive, w1) ->
    calm 2 w1 ->
    exists w2,
      archive_corpus get_corpus_archive_name w1 = (Ok archive, w2)
      /\ store_get archive (w_archives w2) = Some []
      /\ last_archive_time (w_self w2) = last_archive_time (w_self w1).
Proof.
intros w w1 nominal archive Hwf Hout Hrun Hcalm.
pose proof (keeps_place_archive_corpus w) as Hplace.
rewrite Hrun in Hplace. destruct Hplace as (Hfs & Hcwd & _). cbn [snd] in *.
destruct (archive_corpus_outcome get_corpus_archive_name w nominal Hwf Hout)
  as [(w1' & Hrun1 & _ & Hself & _)|(e & w1' & Hrun1 & _)];
  rewrite Hrun in Hrun1; [|discriminate].
injection Hrun1 as Harch <-.
assert (Hwf1 : wf_node (w_fs w1)) by now rewrite Hfs.
assert (Hout1 : output_corpus (w_self w1) = Some nominal) by now rewrite Hself.
destruct (archive_corpus_outcome get_corpus_archive_name w1 nominal Hwf1 Hout1)
  as [(w2 & Hrun2 & Hget2 & Hself2 & _)|(e & _ & _ & _ & Hin)].
2:{ exfalso. exact (Hcalm e Hin). }
rewrite Hfs, Hcwd in Hget2, Hself2.
rewrite Hself in Hrun2, Hget2, Hself2.
cbn [corpus_archives_dir cycle last_archive_time set_last_archive_time]
  in Hrun2, Hget2, Hself2.
rewrite <- Harch in Hrun2, Hget2.
destruct (none_newer_after (w_fs w) (w_cwd w)
            (Resolver.decide_visible (w_fs w) (w_cwd w) nominal)
            (last_archive_time (w_self w))
            (targeted_paths (w_fs w) (w_cwd w)
               (Resolver.decide_visible (w_fs w) (w_cwd w) nominal)))
  as [Hnone Hsame].
exists w2. split; [exact Hrun2|]. split.
- rewrite Hget2. f_equal. exact Hnone.
- rewrite Hself2, Hself. cbn [last_archive_time set_last_archive_time].
  exact Hsame.
Qed.

(** X8.  A call of [archive_corpus] that raises has not moved the watermark
    and has changed no file of the tree (the archive it was writing is kept
    in the store of archives, not in the tree): what it would have archived
    is still newer than the watermark at the next attempt. *)
Theorem archive_corpus_failure_keeps_watermark :
  forall (w w' : world) (e : exn),
    wf_node (w_fs w) ->
    archive_corpus get_corpus_archive_name w = (Raise e, w') ->
    last_archive_time (w_self w') = last_archive_time (w_self w)
    /\ w_fs w' = w_fs w.
Proof.
intros w w' e Hwf Hrun.
pose proof (keeps_place_archive_corpus w) as Hplace.
rewrite Hrun in Hplace. destruct Hplace as (Hfs & _). cbn [snd] in Hfs.
split; [|exact Hfs].
destruct (output_corpus (w_self w)) as [nominal|] eqn:Hout.
- destruct (archive_corpus_outcome get_corpus_archive_name w nominal Hwf Hout)
    as [(w1 & Hrun1 & _)|(e1 & w1 & Hrun1 & Hself & _)];
    rewrite Hrun in Hrun1; [discriminate|].
  injection Hrun1 as _ <-. now rewrite Hself.
- unfold archive_corpus in Hrun. rewrite bind_gets, Hout in Hrun.
  cbn in Hrun. now injection Hrun as _ <-.
Qed.
(** *** No member twice *)

Lemma member_for_below fs cwd ra q :
  below_root fs cwd (Abs ra) q ->
  exists rest m d,
    q = Abs (ra ++ rest)
    /\ member_for fs cwd (Abs ra) q = [Member (Rel rest) m d].
Proof.
intros (ra' & rest & m & d & [= <-] & -> & Hat).
exists rest, m, d. split; [reflexivity|].
unfold member_for, relpath_in. now rewrite !locate_abs, Hat, strip_prefix_app.
Qed.

Lemma NoDup_map_filter {A B} (f : A -> B) (keep : A -> bool) (l : list A) :
  NoDup (map f l) -> NoDup (map f (filter keep l)).
Proof.
induction l as [|x l IH]; cbn [map filter]; intros Hnd; [constructor|].
inversion Hnd as [|? ? Hx Hl]; subst.
destruct (keep x); cbn [map]; [|now apply IH].
constructor; [|now apply IH].
intros Hin. apply Hx. apply in_map_iff in Hin as (y & <- & Hy).
apply filter_In in Hy as [Hy _]. now apply in_map.
Qed.

Lemma members_distinct fs cwd ra qs :
  NoDup qs ->
  Forall (below_root fs cwd (Abs ra)) qs ->
  NoDup (map arcname (flat_map (member_for fs cwd (Abs ra)) qs)).
Proof.
induction qs as [|q qs IH]; intros Hnd Hall; [constructor|].
inversion Hnd as [|? ? Hq Hqs]; subst.
inversion Hall as [|? ? Hbq Hbqs]; subst.
cbn [flat_map].
destruct (member_for_below fs cwd ra q Hbq) as (rest & m & d & -> & ->).
cbn [app map arcname]. constructor; [|now apply IH].
intros Hin. apply Hq.
apply in_map_iff in Hin as (mb & Harc & Hmb).
apply in_flat_map in Hmb as (q' & Hq' & Hmb).
rewrite Forall_forall in Hbqs.
destruct (member_for_below fs cwd ra q' (Hbqs q' Hq'))
  as (rest' & m' & d' & -> & Hfor).
rewrite Hfor in Hmb. destruct Hmb as [<-|[]]. cbn [arcname] in Harc.
injection Harc as <-. exact Hq'.
Qed.

(** X9.  An archive never holds two members under the same name: each file is
    added once, under a name of its own. *)
Theorem archive_members_are_distinct :
  forall (w : world) (nominal : path),
    wf_node (w_fs w) ->
    output_corpus (w_self w) = Some nominal ->
    calm 2 w ->
    exists archive w' members,
      archive_corpus get_corpus_archive_name w = (Ok archive, w')
      /\ store_get archive (w_archives w') = Some members
      /\ NoDup (map arcname members).
Proof.
intros w nominal Hwf Hout Hcalm.
destruct (archive_corpus_outcome get_corpus_archive_name w nominal Hwf Hout)
  as [(w' & Hrun & Hget & _)|(e & _ & _ & _ & Hin)].
2:{ exfalso. exact (Hcalm e Hin). }
eexists _, w', _. split; [exact Hrun|]. split; [exact Hget|].
apply NoDup_map_filter.
destruct (Resolver.decide_visible_absolute (w_fs w) (w_cwd w) nominal) as [ra Hra].
fold (Resolver.decide_visible (w_fs w) (w_cwd w) nominal) in Hra.
rewrite Hra. apply members_distinct.
- now apply targeted_paths_NoDup.
- apply targeted_paths_below; [exact Hwf|reflexivity].
Qed.

End Incremental.

Lemma archive_members_are_distinct_witness :
  exists archive w' members,
    archive_corpus sample_name sample_world = (Ok archive, w')
    /\ store_get archive (w_archives w') = Some members
    /\ NoDup (map arcname members).
Proof.
apply (archive_members_are_distinct sample_name sample_world (Abs ["out"])).
- apply wf_check_sound. reflexivity.
- reflexivity.
- intros e H. exact H.
Defined.

Definition sample_archive : path :=
  Abs ["work"; "corpus-archives"; "corpus-archive.tar.gz"].

Lemma archive_corpus_again_is_empty_witness :
  exists w1 w2,
    archive_corpus sample_name sample_world = (Ok sample_archive, w1)
    /\ archive_corpus sample_name w1 = (Ok sample_archive, w2)
    /\ store_get sample_archive (w_archives w2) = Some []
    /\ last_archive_time (w_self w2) = last_archive_time (w_self w1).
Proof.
assert (Hwf : wf_node (w_fs sample_world)) by (apply wf_check_sound; reflexivity).
assert (Hfirst : exists w1,
          archive_corpus sample_name sample_world = (Ok sample_archive, w1)
          /\ calm 2 w1).
{ eexists. split; [vm_compute; reflexivity|]. intros e H. exact H. }
destruct Hfirst as (w1 & Hrun & Hcalm).
destruct (archive_corpus_again_is_empty sample_name sample_world w1
            (Abs ["out"]) sample_archive Hwf eq_refl Hrun Hcalm)
  as (w2 & H2 & H3 & H4).
exists w1, w2. exact (conj Hrun (conj H2 (conj H3 H4))).
Defined.

Lemma archive_corpus_failure_keeps_watermark_witness :
  exists w',
    archive_corpus sample_name (set_faults [Some OSError] sample_world)
    = (Raise OSError, w')
    /\ last_archive_time (w_self w') = At 10
    /\ w_fs w' = sample_tree.
Proof.
assert (Hwf : wf_node (w_fs (set_faults [Some OSError] sample_world)))
  by (apply wf_check_sound; reflexivity).
assert (Hrun : exists w',
          archive_corpus sample_name (set_faults [Some OSError] sample_world)
          = (Raise OSError, w')).
{ eexists. vm_compute. reflexivity. }
destruct Hrun as (w' & Hrun).
destruct (archive_corpus_failure_keeps_watermark sample_name
            (set_faults [Some OSError] sample_world) w' OSError Hwf Hrun)
  as [H1 H2].
exists w'. exact (conj Hrun (conj H1 H2)).
Defined.

End Archiver.

(* ================================================================== *)
(** * Scheduling the next sync *)
(* ================================================================== *)

Module Scheduler.

Section WithSnapshotPeriod.

(** [experiment_utils.get_snapshot_seconds()], which is not part of the
    runner: the fixed interval between two syncs. *)
Variable get_snapshot_seconds : Z.

Definition set_last_sync_time (t : option Z) (r : runner) : runner :=
  Runner (gcs_sync_dir r) (cycle r) (output_corpus r) (corpus_archives_dir r)
         (results_dir r) (log_file r) t (last_archive_time r).

(** [TrialRunner.sleep_until_next_sync] *)
Definition sleep_until_next_sync : M unit :=
  self <- gets w_self ;;
  sleep_time <-
    match last_sync_time self with
    | Some last =>
        let next_sync_time := (last + get_snapshot_seconds)%Z in
        now <- time_time ;;
        let sleep_time := (next_sync_time - now)%Z in
        if (sleep_time <? 0)%Z then
          logs_warning "Sleep time on cycle %d is %d"
                       [AInt (Z.of_nat (cycle self)); AInt sleep_time] ;;
          ret 0%Z
        else ret sleep_time
    | None => ret get_snapshot_seconds
    end ;;
  logs_debug "Sleeping for %d seconds." [AInt sleep_time] ;;
  time_sleep sleep_time ;;
  now <- time_time ;;
  modify (fun w => set_self (set_last_sync_time (Some now) (w_self w)) w).

Lemma keeps_sleep_until_next_sync : keeps steady sleep_until_next_sync.
Proof.
unfold sleep_until_next_sync, time_time, logs_warning, logs_debug.
steady_frame.
Qed.

Lemma total_sleep_until_next_sync : total sleep_until_next_sync.
Proof.
unfold sleep_until_next_sync, time_time, logs_warning, logs_debug.
steady_frame.
Qed.

(** ** Claim C7 *)

(** The sleep the schedule asks for in world [w]. *)
Definition due_sleep (w : world) : Z :=
  match last_sync_time (w_self w) with
  | None => get_snapshot_seconds
  | Some last => Z.max 0 (last + get_snapshot_seconds - w_clock w)
  end.

(** C7: for a snapshot interval that is not negative, every call of
    [sleep_until_next_sync] returns after sleeping once, for a duration
    that is not negative: the interval when no sync time is recorded yet
    (the first call), otherwise last sync time + interval - current time,
    or 0 when that is negative; in that last case a warning with the cycle
    number is logged.  The call records the time after the sleep as the
    last sync time. *)
Theorem sleep_is_never_negative :
  forall w : world,
    (0 <= get_snapshot_seconds)%Z ->
    exists w',
      sleep_until_next_sync w = (Ok tt, w')
      /\ (0 <= due_sleep w)%Z
      /\ w_events w' = Slept (due_sleep w) :: w_events w
      /\ last_sync_time (w_self w') = Some (w_clock w + due_sleep w)%Z
      /\ (last_sync_time (w_self w) = None -> due_sleep w = get_snapshot_seconds)
      /\ (forall last,
            last_sync_time (w_self w) = Some last ->
            (last + get_snapshot_seconds < w_clock w)%Z ->
            due_sleep w = 0%Z
            /\ In (Log WARNING "Sleep time on cycle %d is %d"
                       [AInt (Z.of_nat (cycle (w_self w)));
                        AInt (last + get_snapshot_seconds - w_clock w)])
                  (w_logs w')).
Proof.
intros w Hint.
unfold sleep_until_next_sync, due_sleep, time_time, logs_warning, logs_debug,
  time_sleep.
unfold bind, gets, modify, ret.
destruct (last_sync_time (w_self w)) as [last|] eqn:Elast; cbv beta zeta.
- destruct (last + get_snapshot_seconds - w_clock w <? 0)%Z eqn:Eneg.
  + apply Z.ltb_lt in Eneg. rewrite Z.max_l by lia.
    cbn -[Z.add Z.sub Z.of_nat].
    eexists. split; [reflexivity|].
    cbn -[Z.add Z.sub Z.of_nat In].
    split; [lia|]. split; [reflexivity|]. split; [reflexivity|].
    split; [discriminate|].
    intros last' [= <-] _. split; [reflexivity|]. right. now left.
  + rewrite Eneg. cbn -[Z.add Z.sub Z.of_nat].
    apply Z.ltb_ge in Eneg. rewrite Z.max_r by lia.
    eexists. split; [reflexivity|].
    cbn -[Z.add Z.sub Z.of_nat In].
    split; [lia|]. split; [reflexivity|]. split; [reflexivity|].
    split; [discriminate|].
    intros last' [= <-] Hover. lia.
- destruct (get_snapshot_seconds <? 0)%Z eqn:Eneg;
    [apply Z.ltb_lt in Eneg; lia|].
  cbn -[Z.add Z.sub Z.of_nat].
  eexists. split; [reflexivity|].
  cbn -[Z.add Z.sub Z.of_nat In].
  split; [lia|]. split; [reflexivity|]. split; [reflexivity|].
  split; [reflexivity|]. discriminate.
Qed.

End WithSnapshotPeriod.

#[global] Hint Resolve keeps_sleep_until_next_sync total_sleep_until_next_sync
  : frames.

Definition overrun_world : world :=
  World (Dir []) []
        (Environ "afl" "libpng" false false (Some (Abs ["out"])) None None 0 (Some 1%Z)
                 false false false 0)
        2000 [] 0 [] [] [] false
        (Runner None 4 (Some (Abs ["out"])) (Abs ["corpus-archives"])
                (Abs ["results"]) (Abs ["results"; "fuzzer-log.txt"])
                (Some 1000%Z) NegInf).

Lemma sleep_is_never_negative_witness :
  exists w',
    sleep_until_next_sync 900 overrun_world = (Ok tt, w')
    /\ (0 <= due_sleep 900 overrun_world)%Z
    /\ w_events w' = Slept (due_sleep 900 overrun_world) :: w_events overrun_world
    /\ last_sync_time (w_self w')
       = Some (w_clock overrun_world + due_sleep 900 overrun_world)%Z
    /\ (last_sync_time (w_self overrun_world) = None ->
        due_sleep 900 overrun_world = 900%Z)
    /\ (forall last,
          last_sync_time (w_self overrun_world) = Some last ->
          (last + 900 < w_clock overrun_world)%Z ->
          due_sleep 900 overrun_world = 0%Z
          /\ In (Log WARNING "Sleep time on cycle %d is %d"
                     [AInt (Z.of_nat (cycle (w_self overrun_world)));
                      AInt (last + 900 - w_clock overrun_world)])
                (w_logs w')).
Proof.
apply (sleep_is_never_negative 900 overrun_world). lia.
Defined.

(* ------------------------------------------------------------------ *)
(** ** The schedule over several cycles *)

Section Schedule.

Variable get_snapshot_seconds : Z.

(** The time the work of a cycle takes, passing. *)
Definition time_passes (seconds : Z) : M unit :=
  modify (fun w => set_clock (w_clock w + seconds) w).

(** Cycles of the loop as far as time is concerned: the work of a cycle
    takes [work] seconds, then the runner sleeps until the next sync. *)
Fixpoint sync_rounds (works : list Z) : M unit :=
  match works with
  | [] => ret tt
  | work :: works' =>
      time_passes work ;;
      sleep_until_next_sync get_snapshot_seconds ;;
      sync_rounds works'
  end.

(** A call that finds the next sync time not yet passed sleeps up to it and
    logs no warning. *)
Lemma sleep_on_time w last :
  last_sync_time (w_self w) = Some last ->
  (w_clock w <= last + get_snapshot_seconds)%Z ->
  exists w',
    sleep_until_next_sync get_snapshot_seconds w = (Ok tt, w')
    /\ w_clock w' = (last + get_snapshot_seconds)%Z
    /\ last_sync_time (w_self w') = Some (last + get_snapshot_seconds)%Z
    /\ w_logs w'
       = Log DEBUG "Sleeping for %d seconds."
             [AInt (last + get_snapshot_seconds - w_clock w)] :: w_logs w.
Proof.
intros Hlast Hdue.
unfold sleep_until_next_sync, time_time, logs_warning, logs_debug, time_sleep.
unfold bind, gets, modify, ret. rewrite Hlast. cbv beta zeta.
assert (Hneg : (last + get_snapshot_seconds - w_clock w <? 0)%Z = false)
  by (apply Z.ltb_ge; lia).
rewrite Hneg. cbn -[Z.add Z.sub]. rewrite Hneg. cbn -[Z.add Z.sub].
eexists. split; [reflexivity|]. cbn -[Z.add Z.sub].
split; [lia|]. split; [f_equal; lia|reflexivity].
Qed.

(** X10.  The schedule does not drift: as long as the work of each cycle fits
    into the snapshot interval, the syncs of successive cycles are exactly
    one interval apart, however long the work of each cycle took. *)
Theorem schedule_does_not_drift :
  forall (works : list Z) (w : world) (last : Z),
    Forall (fun work => 0 <= work <= get_snapshot_seconds)%Z works ->
    last_sync_time (w_self w) = Some last ->
    w_clock w = last ->
    exists w',
      sync_rounds works w = (Ok tt, w')
      /\ last_sync_time (w_self w')
         = Some (last + Z.of_nat (List.length works) * get_snapshot_seconds)%Z
      /\ w_clock w'
         = (last + Z.of_nat (List.length works) * get_snapshot_seconds)%Z.
Proof.
induction works as [|work works IH]; intros w last Hall Hlast Hclock.
- exists w. cbn [sync_rounds List.length]. unfold ret.
  split; [reflexivity|]. split; [rewrite Hlast; f_equal; lia|lia].
- inversion Hall as [|? ? Hwork Hrest]; subst.
  cbn [sync_rounds]. unfold time_passes at 1. rewrite bind_modify.
  destruct (sleep_on_time (set_clock (w_clock w + work) w) (w_clock w))
    as (w1 & Hrun1 & Hclock1 & Hlast1 & _).
  { exact Hlast. }
  { cbn [w_clock set_clock]. lia. }
  erewrite bind_ok by exact Hrun1.
  destruct (IH w1 (w_clock w + get_snapshot_seconds)%Z Hrest Hlast1 Hclock1)
    as (w' & Hrun & Hlast' & Hclock').
  exists w'. split; [exact Hrun|].
  rewrite Hlast', Hclock'. cbn [List.length].
  split; [f_equal; lia|lia].
Qed.

End Schedule.

Lemma schedule_does_not_drift_witness :
  exists w',
    sync_rounds 900 [850; 0; 900]%Z (set_clock 1000 overrun_world) = (Ok tt, w')
    /\ last_sync_time (w_self w') = Some (1000 + Z.of_nat 3 * 900)%Z
    /\ w_clock w' = (1000 + Z.of_nat 3 * 900)%Z.
Proof.
apply (schedule_does_not_drift 900 [850; 0; 900]%Z
         (set_clock 1000 overrun_world) 1000%Z).
- repeat constructor; lia.
- reflexivity.
- reflexivity.
Defined.

End Scheduler.

(* ================================================================== *)
(** * Where the seeds come from *)
(* ================================================================== *)

Module SeedSources.

Definition SEED_CORPUS_ARCHIVE_SUFFIX : string := "_seed_corpus.zip".

(** ** [os.path.splitext] on a file name *)

(** The name split before its last dot, when it has one. *)
Fixpoint split_at_last_dot (s : string) : option (string * string) :=
  match s with
  | EmptyString => None
  | String c s' =>
      match split_at_last_dot s' with
      | Some (root, ext) => Some (String c root, ext)
      | None => if Ascii.eqb c "." then Some (EmptyString, s) else None
      end
  end.

Fixpoint all_dots (s : string) : bool :=
  match s with
  | EmptyString => true
  | String c s' => Ascii.eqb c "." && all_dots s'
  end.

(** [os.path.splitext(name)]: the extension starts at the last dot, unless
    only dots come before it. *)
Definition splitext_name (name : string) : string * string :=
  match split_at_last_dot name with
  | Some (root, ext) => if all_dots root then (name, "") else (root, ext)
  | None => (name, "")
  end.

(** [os.path.splitext(p)[0] + suffix] *)
Definition stem_with_suffix (p : path) (suffix : string) : path :=
  match split_last (comps p) with
  | Some (parent, name) =>
      let name' := (fst (splitext_name name) ++ suffix)%string in
      match p with
      | Abs _ => Abs (parent ++ [name'])
      | Rel _ => Rel (parent ++ [name'])
      end
  | None =>
      match p with
      | Abs _ => Abs [suffix]            (* "/" + suffix *)
      | Rel _ => Rel [("." ++ suffix)%string]     (* "." + suffix *)
      end
  end.

(** [get_clusterfuzz_seed_corpus_path(fuzz_target_path)] *)
Definition get_clusterfuzz_seed_corpus_path (fuzz_target_path : option path)
  : M (option path) :=
  match fuzz_target_path with
  | None => ret None
  | Some fuzz_target_path =>
      let seed_corpus_path :=
        stem_with_suffix fuzz_target_path SEED_CORPUS_ARCHIVE_SUFFIX in
      present <- os_path_exists seed_corpus_path ;;
      ret (if present then Some seed_corpus_path else None)
  end.

Example splitext_samples :
  map splitext_name ["fuzz-target"; "a.b.c"; ".bashrc"; "..x"; "a."; "a..b"; ".a.b"]
  = [("fuzz-target", ""); ("a.b", ".c"); (".bashrc", ""); ("..x", "");
     ("a", "."); ("a.", ".b"); (".a", ".b")].
Proof. reflexivity. Qed.

Fixpoint no_dot (s : string) : bool :=
  match s with
  | EmptyString => true
  | String c s' => negb (Ascii.eqb c ".") && no_dot s'
  end.

Lemma split_at_last_dot_none s : split_at_last_dot s = None -> no_dot s = true.
Proof.
induction s as [|c s IH]; [reflexivity|]. cbn [split_at_last_dot no_dot].
destruct (split_at_last_dot s) as [[r e]|]; [discriminate|].
destruct (Ascii.eqb c "."); [discriminate|]. intros _. now rewrite IH.
Qed.

Lemma split_at_last_dot_some s root ext :
  split_at_last_dot s = Some (root, ext) ->
  s = (root ++ ext)%string /\ exists ext', ext = String "." ext' /\ no_dot ext' = true.
Proof.
revert root ext. induction s as [|c s IH]; intros root ext; [discriminate|].
cbn [split_at_last_dot].
destruct (split_at_last_dot s) as [[r e]|] eqn:E.
- intros [= <- <-]. destruct (IH r e eq_refl) as [-> Hext].
  split; [reflexivity|exact Hext].
- destruct (Ascii.eqb_spec c "."); [|discriminate].
  intros [= <- <-]. subst c. split; [reflexivity|].
  exists s. split; [reflexivity|]. now apply split_at_last_dot_none.
Qed.

(** The parts [splitext] returns make up the name, and the extension is
    empty or a dot followed by characters other than a dot. *)
Lemma splitext_name_parts name :
  let (root, ext) := splitext_name name in
  name = (root ++ ext)%string
  /\ (ext = "" \/ exists ext', ext = String "." ext' /\ no_dot ext' = true).
Proof.
unfold splitext_name.
destruct (split_at_last_dot name) as [[root ext]|] eqn:E.
- destruct (all_dots root).
  + split; [|now left]. clear. induction name; cbn; congruence.
  + apply split_at_last_dot_some in E as [-> Hext]. split; [reflexivity|now right].
- split; [|now left]. clear. induction name; cbn; congruence.
Qed.

(** [get_clusterfuzz_seed_corpus_path] only reads and never raises.  It
    returns nothing for no target; otherwise the only path it can return is
    the target's path with the extension of its last component replaced by
    [_seed_corpus.zip], and it returns that path exactly when something
    exists there. *)
Theorem seed_corpus_path_is_next_to_target :
  forall (w : world) (parent : loc) (name : string),
    let target := Abs (parent ++ [name]) in
    let archive :=
      Abs (parent ++ [(fst (splitext_name name) ++ "_seed_corpus.zip")%string]) in
    get_clusterfuzz_seed_corpus_path None w = (Ok None, w)
    /\ get_clusterfuzz_seed_corpus_path (Some target) w
       = (Ok (if exists_at (w_fs w) (comps archive) then Some archive else None), w)
    /\ exists ext, name = (fst (splitext_name name) ++ ext)%string
                   /\ (ext = "" \/ exists ext', ext = String "." ext'
                                                /\ no_dot ext' = true).
Proof.
intros w parent name target archive. split; [reflexivity|]. split.
- unfold get_clusterfuzz_seed_corpus_path, os_path_exists, stem_with_suffix.
  subst target. cbn [comps]. rewrite split_last_app. cbv zeta.
  rewrite bind_gets. reflexivity.
- pose proof (splitext_name_parts name) as H.
  destruct (splitext_name name) as [root ext]. cbn [fst].
  exists ext. exact H.
Qed.
(* ------------------------------------------------------------------ *)
(** ** Unpacking a seed corpus archive *)

(** What reading a member of the archive gives: its data, a failure before
    anything is read, or a failure after part of the data was written. *)
Inductive payload :=
| Good (data : list Byte.byte)
| BadHeader
| BadData (written : list Byte.byte).

(** A [ZipInfo] with what is behind it. *)
Record zinfo := ZInfo {
  z_filename : string;
  z_file_size : Z;                 (* the size the archive declares *)
  z_payload : payload
}.

(** [zinfo.is_dir()] *)
Definition z_is_dir (z : zinfo) : bool := ends_with_slash (z_filename z).

(** [str(n)] *)
Definition decimal (n : nat) : string :=
  DecimalString.NilEmpty.string_of_uint (Nat.to_uint n).

Fixpoint zeros (k : nat) : string :=
  match k with
  | O => EmptyString
  | S k' => String "0" (zeros k')
  end.

(** [f'{idx:016d}'] *)
Definition format_016d (idx : nat) : string :=
  (zeros (16 - String.length (decimal idx)) ++ decimal idx)%string.

Example format_016d_samples :
  map format_016d [0; 7; 1234]
  = ["0000000000000000"; "0000000000000007"; "0000000000001234"].
Proof. reflexivity. Qed.

(** [open(p, 'wb')] followed by writing [data]: the directory of [p] must
    exist and [p] must not be a directory; a file at [p] is replaced. *)
Definition write_file (p : path) (data : list Byte.byte) : M unit :=
  fun w =>
    let l := locate (w_cwd w) p in
    match split_last l with
    | Some (parent, name) =>
        if isdir_at (w_fs w) parent && negb (isdir_at (w_fs w) l)
        then (Ok tt,
              set_fs (set_at (w_fs w) parent name
                             (Some (File (w_clock w) data))) w)
        else (Raise OSError, w)
    | None => (Raise OSError, w)
    end.

(** [with zip_file.open(zinfo) as src, open(output_file_path, 'wb') as dst:
    shutil.copyfileobj(src, dst)] *)
Definition extract_member (z : zinfo) (output_file_path : path) : M unit :=
  match z_payload z with
  | BadHeader => raise OtherException
  | Good data => write_file output_file_path data
  | BadData written =>
      write_file output_file_path written ;; raise OtherException
  end.

Definition exn_text (e : exn) : string :=
  match e with
  | OSError => "OSError"
  | KeyError => "KeyError"
  | TypeError => "TypeError"
  | ValueError => "ValueError"
  | CalledProcessError => "CalledProcessError"
  | OtherException => "Exception"
  end.

(** The loop over [zip_file.infolist()], from index [idx] on; the result
    is the final value of [idx]. *)
Fixpoint unpack_members (corpus_directory : path) (idx : nat) (infos : list zinfo)
  : M nat :=
  match infos with
  | [] => ret idx
  | z :: infos' =>
      if z_is_dir z then unpack_members corpus_directory idx infos'
      else if (z_file_size z >? Seeds.CORPUS_ELEMENT_BYTES_LIMIT)%Z
      then unpack_members corpus_directory idx infos'
      else
        let output_filename := format_016d idx in
        let output_file_path := os_path_join corpus_directory output_filename in
        idx <- try_except
                 (extract_member z output_file_path ;; ret (S idx))
                 any_exception
                 (fun e =>
                    logs_warning "Failed to unpack seed %s: %s"
                                 [AText (z_filename z); AText (exn_text e)] ;;
                    ret idx) ;;
        unpack_members corpus_directory idx infos'
  end.

Section WithArchives.

(** Where the target binaries are: [FUZZ_TARGET_DIR], taken from [OUT] when
    the module is loaded. *)
Variable FUZZ_TARGET_DIR : path.

(** [experiment_utils.get_oss_fuzz_corpora_filestore_path()],
    [get_random_corpora_filestore_path()] and
    [get_custom_seed_corpora_filestore_path()], which are not part of the
    runner. *)
Variable get_oss_fuzz_corpora_filestore_path : string.
Variable get_random_corpora_filestore_path : string.
Variable get_custom_seed_corpora_filestore_path : string.

(** What a copy from the filestore leaves in the tree: [fetched src dst fs]
    is the tree [fs] after [src] has been copied to the location [dst]. *)
Variable fetched : string -> loc -> node -> node.

(** The members of the zip archive with the given content; [None] when the
    content is no zip archive. *)
Variable zip_read : list Byte.byte -> option (list zinfo).

(** Modelled from its use: [filestore_utils.cp(src, dst)] with [dst] in the
    tree; [filestore_utils] is not part of the runner. *)
Definition filestore_fetch (src : string) (dst : path) : M unit :=
  external ;;
  modify (fun w =>
    add_event (Fetched src dst)
      (set_fs (fetched src (locate (w_cwd w) dst) (w_fs w)) w)).

(** [zipfile.ZipFile(p).infolist()]: [OSError] when [p] is no file,
    [BadZipFile] when it is no zip archive. *)
Definition zipfile_infolist (p : path) : M (list zinfo) :=
  fun w =>
    match node_at (w_fs w) (locate (w_cwd w) p) with
    | Some (File _ content) =>
        match zip_read content with
        | Some infos => (Ok infos, w)
        | None => (Raise OtherException, w)
        end
    | _ => (Raise OSError, w)
    end.

(** [str(int(n))] *)
Definition str_of_int (n : Z) : string :=
  DecimalString.NilZero.string_of_int (Z.to_int n).

(** [_unpack_random_corpus(corpus_directory)] *)
Definition _unpack_random_corpus (corpus_directory : path) : M unit :=
  shutil_rmtree corpus_directory ;;
  env <- gets w_env ;;
  let benchmark := BENCHMARK env in
  let trial_group_num := TRIAL_GROUP_NUM env in
  let random_corpora_dir := get_random_corpora_filestore_path in
  let random_corpora_sub_dir :=
    ("trial-group-" ++ str_of_int trial_group_num)%string in
  let random_corpus_dir :=
    posixpath_join (posixpath_join random_corpora_dir benchmark)
                   random_corpora_sub_dir in
  filestore_fetch random_corpus_dir corpus_directory.

(** [_copy_custom_seed_corpus(corpus_directory)] *)
Definition _copy_custom_seed_corpus (corpus_directory : path) : M unit :=
  shutil_rmtree corpus_directory ;;
  env <- gets w_env ;;
  let benchmark := BENCHMARK env in
  let benchmark_custom_corpus_dir :=
    posixpath_join get_custom_seed_corpora_filestore_path benchmark in
  filestore_fetch benchmark_custom_corpus_dir corpus_directory.

(** [_unpack_clusterfuzz_seed_corpus(fuzz_target_path, corpus_directory)] *)
Definition _unpack_clusterfuzz_seed_corpus (fuzz_target_path : option path)
    (corpus_directory : path) : M unit :=
  env <- gets w_env ;;
  seed_corpus_archive_path <-
    (if OSS_FUZZ_CORPUS env then
       let corpus_archive_filename := (BENCHMARK env ++ ".zip")%string in
       let oss_fuzz_corpus_archive_path :=
         posixpath_join get_oss_fuzz_corpora_filestore_path
                        corpus_archive_filename in
       let seed_corpus_archive_path :=
         os_path_join FUZZ_TARGET_DIR corpus_archive_filename in
       filestore_fetch oss_fuzz_corpus_archive_path seed_corpus_archive_path ;;
       ret (Some seed_corpus_archive_path)
     else get_clusterfuzz_seed_corpus_path fuzz_target_path) ;;
  match seed_corpus_archive_path with
  | None => ret tt
  | Some seed_corpus_archive_path =>
      infos <- zipfile_infolist seed_corpus_archive_path ;;
      idx <- unpack_members corpus_directory 0 infos ;;
      logs_info "Unarchived %d files from seed corpus %s."
                [AInt (Z.of_nat idx); APath seed_corpus_archive_path]
  end.

(** *** Frames *)

Lemma keeps_write_file p data : keeps steady (write_file p data).
Proof. unfold write_file. one_step. Qed.

Lemma keeps_unpack_members corpus_directory infos :
  forall idx, keeps steady (unpack_members corpus_directory idx infos).
Proof.
pose proof keeps_write_file.
induction infos as [|z infos IH]; intros idx; cbn [unpack_members].
- apply keeps_ret, steady_refl.
- unfold extract_member, logs_warning. steady_frame.
Qed.

Lemma keeps_filestore_fetch src dst : keeps steady (filestore_fetch src dst).
Proof. unfold filestore_fetch. steady_frame. Qed.

Lemma keeps_zipfile_infolist p : keeps steady (zipfile_infolist p).
Proof. unfold zipfile_infolist. one_step. Qed.

Lemma keeps_get_clusterfuzz_seed_corpus_path target :
  keeps steady (get_clusterfuzz_seed_corpus_path target).
Proof.
unfold get_clusterfuzz_seed_corpus_path, os_path_exists. steady_frame.
Qed.

Lemma keeps_unpack_random_corpus d : keeps steady (_unpack_random_corpus d).
Proof.
pose proof keeps_filestore_fetch. unfold _unpack_random_corpus. steady_frame.
Qed.

Lemma keeps_copy_custom_seed_corpus d :
  keeps steady (_copy_custom_seed_corpus d).
Proof.
pose proof keeps_filestore_fetch. unfold _copy_custom_seed_corpus. steady_frame.
Qed.

Lemma keeps_unpack_clusterfuzz_seed_corpus target d :
  keeps steady (_unpack_clusterfuzz_seed_corpus target d).
Proof.
pose proof keeps_filestore_fetch. pose proof keeps_zipfile_infolist.
pose proof keeps_unpack_members. pose proof keeps_get_clusterfuzz_seed_corpus_path.
unfold _unpack_clusterfuzz_seed_corpus, logs_info. steady_frame.
Qed.

End WithArchives.

(** *** The names of the unpacked files *)

Definition decode (s : string) : option nat :=
  option_map Nat.of_uint (DecimalString.NilEmpty.uint_of_string s).

Lemma decode_zeros k s : decode (zeros k ++ s)%string = decode s.
Proof.
assert (Hd0 : forall d, Nat.of_uint (Decimal.D0 d) = Nat.of_uint d) by reflexivity.
induction k as [|k IH]; [reflexivity|].
unfold decode in *. cbn [zeros append DecimalString.NilEmpty.uint_of_string].
destruct (DecimalString.NilEmpty.uint_of_string (zeros k ++ s)) as [d|];
  cbn [DecimalString.uint_of_char option_map] in *; [|exact IH].
now rewrite Hd0.
Qed.

Lemma decode_format idx : decode (format_016d idx) = Some idx.
Proof.
unfold format_016d. rewrite decode_zeros. unfold decode, decimal.
rewrite DecimalString.NilEmpty.usu. cbn [option_map].
now rewrite DecimalNat.Unsigned.of_to.
Qed.

Lemma format_016d_inj i j : format_016d i = format_016d j -> i = j.
Proof.
intros H. apply (f_equal decode) in H. rewrite !decode_format in H.
now injection H.
Qed.

(** *** What the loop leaves in the corpus directory *)

(** A member the loop tries to unpack: no directory, and not declared
    larger than the limit. *)
Definition qualifies (z : zinfo) : bool :=
  negb (z_is_dir z)
  && negb (z_file_size z >? Seeds.CORPUS_ELEMENT_BYTES_LIMIT)%Z.

(** The data of the members that are unpacked, in the order of the
    archive. *)
Definition unpacked (infos : list zinfo) : list (list Byte.byte) :=
  flat_map (fun z => if qualifies z
                     then match z_payload z with
                          | Good data => [data]
                          | _ => []
                          end
                     else []) infos.

Lemma write_file_effect (p : path) data w (parent : loc) name :
  locate (w_cwd w) p = parent ++ [name] ->
  wf_node (w_fs w) ->
  isdir_at (w_fs w) parent = true ->
  isdir_at (w_fs w) (parent ++ [name]) = false ->
  exists fs1,
    write_file p data w = (Ok tt, set_fs fs1 w)
    /\ wf_node fs1
    /\ forall q, kind_at fs1 q
                 = if loc_eqb q (parent ++ [name]) then Some (KFile data)
                   else kind_at (w_fs w) q.
Proof.
intros Hloc Hwf Hpar Hnodir.
destruct (Seeds.put_file_kind (w_fs w) parent name (w_clock w) data Hwf Hpar Hnodir)
  as [Hwf1 Hk1].
eexists. split; [|split; [exact Hwf1|exact Hk1]].
unfold write_file. cbv zeta.
now rewrite Hloc, split_last_app, Hpar, Hnodir.
Qed.

Section Unpacking.

Variable corpus_directory : path.
Variable cwd0 : loc.

Let dir : loc := locate cwd0 corpus_directory.
Let slot (i : nat) : loc := dir ++ [format_016d i].

(** The corpus directory is there and none of the names the loop may use
    is taken by a directory. *)
Definition ready (fs : node) : Prop :=
  wf_node fs
  /\ isdir_at fs dir = true
  /\ forall i, isdir_at fs (slot i) = false.

Lemma slot_inj i j : slot i = slot j -> i = j.
Proof.
unfold slot. intros H. apply app_inv_head in H. injection H as H.
now apply format_016d_inj.
Qed.

Lemma ready_after fs fs1 i data :
  ready fs -> wf_node fs1 ->
  (forall q, kind_at fs1 q = if loc_eqb q (slot i) then Some (KFile data)
                             else kind_at fs q) ->
  ready fs1.
Proof.
intros (Hwf & Hdir & Hfree) Hwf1 Hk. split; [exact Hwf1|]. split.
- apply isdir_at_kind. rewrite Hk.
  destruct (loc_eqb dir (slot i)) eqn:E; [|now apply isdir_at_kind].
  apply loc_eqb_eq in E. unfold slot in E.
  exfalso. apply (Seeds.prefix_not_self dir (format_016d i) []).
  now rewrite app_nil_r.
- intros j. apply not_true_is_false. intros H. apply isdir_at_kind in H.
  rewrite Hk in H. destruct (loc_eqb (slot j) (slot i)); [discriminate|].
  apply isdir_at_kind in H. rewrite Hfree in H. discriminate.
Qed.

Lemma unpack_from : forall infos idx w,
  w_cwd w = cwd0 ->
  ready (w_fs w) ->
  exists w',
    unpack_members corpus_directory idx infos w
    = (Ok (idx + List.length (unpacked infos)), w')
    /\ w_cwd w' = cwd0
    /\ ready (w_fs w')
    /\ (forall i, i < List.length (unpacked infos) ->
          kind_at (w_fs w') (slot (idx + i))
          = Some (KFile (nth i (unpacked infos) [])))
    /\ (forall q,
          (forall i, idx <= i <= idx + List.length (unpacked infos) ->
                     q <> slot i) ->
          kind_at (w_fs w') q = kind_at (w_fs w) q).
Proof.
induction infos as [|z infos IH]; intros idx w Hcwd Hready.
- exists w. cbn [unpack_members unpacked flat_map List.length]. unfold ret.
  rewrite Nat.add_0_r. split; [reflexivity|]. split; [exact Hcwd|].
  split; [exact Hready|]. split; [intros i Hi; lia|reflexivity].
- cbn [unpack_members unpacked flat_map]. fold (unpacked infos).
  unfold qualifies.
  destruct (z_is_dir z); cbn [negb andb app]; [now apply IH|].
  destruct (z_file_size z >? Seeds.CORPUS_ELEMENT_BYTES_LIMIT)%Z;
    cbn [negb app]; [now apply IH|].
  cbv zeta.
  assert (Hloc : locate (w_cwd w) (os_path_join corpus_directory (format_016d idx))
                 = dir ++ [format_016d idx]).
  { rewrite locate_join, Hcwd. reflexivity. }
  destruct Hready as (Hwf & Hdir & Hfree).
  pose proof (Hfree idx) as Hfree_idx. unfold slot in Hfree_idx.
  unfold extract_member.
  destruct (z_payload z) as [data| |written] eqn:Ez.
  + (* unpacked *)
    destruct (write_file_effect _ data w dir (format_016d idx) Hloc Hwf Hdir Hfree_idx)
      as (fs1 & Hrun1 & Hwf1 & Hk1).
    assert (Hready1 : ready (w_fs (set_fs fs1 w))).
    { apply (ready_after (w_fs w) fs1 idx data); [now repeat split|exact Hwf1|exact Hk1]. }
    destruct (IH (S idx) (set_fs fs1 w) Hcwd Hready1)
      as (w' & Hrun & Hcwd' & Hready' & Hfiles & Hrest).
    exists w'. split.
    { unfold try_except, bind at 1 2. rewrite Hrun1. cbn [ret].
      rewrite Hrun. cbn [List.length app]. do 2 f_equal. lia. }
    split; [exact Hcwd'|]. split; [exact Hready'|]. split.
    * intros i Hi. cbn [List.length app] in Hi. destruct i as [|i].
      -- rewrite Nat.add_0_r. cbn [nth app]. rewrite Hrest.
         ++ cbn [w_fs set_fs]. rewrite Hk1. fold (slot idx). now rewrite loc_eqb_refl.
         ++ intros j Hj Heq. apply slot_inj in Heq. lia.
      -- cbn [nth app]. replace (idx + S i) with (S idx + i) by lia.
         apply Hfiles. lia.
    * intros q Hq. cbn [List.length app] in Hq. rewrite Hrest.
      -- cbn [w_fs set_fs]. rewrite Hk1. fold (slot idx).
         destruct (loc_eqb q (slot idx)) eqn:E; [|reflexivity].
         apply loc_eqb_eq in E. exfalso. apply (Hq idx); [lia|exact E].
      -- intros j Hj. apply Hq. lia.
  + (* not readable: nothing is written *)
    destruct (IH idx (add_log
                (Log WARNING "Failed to unpack seed %s: %s"
                     [AText (z_filename z); AText (exn_text OtherException)]) w))
      as (w' & Hrun & Hcwd' & Hready' & Hfiles & Hrest);
      [exact Hcwd|now repeat split|].
    exists w'. split; [exact Hrun|]. split; [exact Hcwd'|].
    split; [exact Hready'|]. split; [exact Hfiles|exact Hrest].
  + (* the data is bad: what was written stays until it is overwritten *)
    destruct (write_file_effect _ written w dir (format_016d idx)
                Hloc Hwf Hdir Hfree_idx)
      as (fs1 & Hrun1 & Hwf1 & Hk1).
    set (w1 := add_log
                 (Log WARNING "Failed to unpack seed %s: %s"
                      [AText (z_filename z); AText (exn_text OtherException)])
                 (set_fs fs1 w)).
    assert (Hready1 : ready (w_fs w1)).
    { apply (ready_after (w_fs w) fs1 idx written);
        [now repeat split|exact Hwf1|exact Hk1]. }
    destruct (IH idx w1 Hcwd Hready1)
      as (w' & Hrun & Hcwd' & Hready' & Hfiles & Hrest).
    exists w'. split.
    { unfold try_except, bind at 1 2 3. rewrite Hrun1. cbn [raise any_exception].
      exact Hrun. }
    split; [exact Hcwd'|]. split; [exact Hready'|]. split; [exact Hfiles|].
    intros q Hq. rewrite (Hrest q Hq). unfold w1. cbn [w_fs add_log set_fs].
    rewrite Hk1. fold (slot idx).
    destruct (loc_eqb q (slot idx)) eqn:E; [|reflexivity].
    apply loc_eqb_eq in E. exfalso. apply (Hq idx); [lia|exact E].
Qed.

End Unpacking.

(** X15.  The loop numbers what it unpacks without gaps.  When the corpus
    directory exists and no directory stands under one of the index names,
    the members that are no directories, are not declared over the limit and
    can be read are written, in the order of the archive, to files named by
    the 16-digit indices 0, 1, 2, ... directly in the corpus directory, and
    the loop returns their number; a member that fails uses up no index.
    Nothing else in the tree changes, except possibly the file under the
    next index (what a member with bad data left behind). *)
Theorem unpack_numbers_members_in_order :
  forall (w : world) (corpus_directory : path) (infos : list zinfo),
    let dir := locate (w_cwd w) corpus_directory in
    let count := List.length (unpacked infos) in
    wf_node (w_fs w) ->
    isdir_at (w_fs w) dir = true ->
    (forall i, isdir_at (w_fs w) (dir ++ [format_016d i]) = false) ->
    exists w',
      unpack_members corpus_directory 0 infos w = (Ok count, w')
      /\ (forall i, i < count ->
            kind_at (w_fs w') (dir ++ [format_016d i])
            = Some (KFile (nth i (unpacked infos) [])))
      /\ (forall q,
            (forall i, i <= count -> q <> dir ++ [format_016d i]) ->
            kind_at (w_fs w') q = kind_at (w_fs w) q).
Proof.
intros w corpus_directory infos dir count Hwf Hdir Hfree.
destruct (unpack_from corpus_directory (w_cwd w) infos 0 w eq_refl)
  as (w' & Hrun & _ & _ & Hfiles & Hrest).
{ now repeat split. }
exists w'. split; [exact Hrun|]. split.
- intros i Hi. exact (Hfiles i Hi).
- intros q Hq. apply Hrest. intros i [_ Hi]. apply Hq. exact Hi.
Qed.

(** X16.  Into a corpus directory that does not exist nothing is unpacked: the
    loop still returns, with index 0, the tree is as before, and each
    member it tried is reported by one warning. *)
Theorem unpack_into_missing_directory :
  forall (w : world) (corpus_directory : path) (infos : list zinfo),
    isdir_at (w_fs w) (locate (w_cwd w) corpus_directory) = false ->
    exists w',
      unpack_members corpus_directory 0 infos w = (Ok 0, w')
      /\ w_fs w' = w_fs w
      /\ List.length (w_logs w')
         = List.length (w_logs w) + List.length (filter qualifies infos).
Proof.
intros w corpus_directory infos. generalize 0 as idx. revert w.
induction infos as [|z infos IH]; intros w idx Hdir.
- exists w. cbn. split; [reflexivity|]. split; [reflexivity|lia].
- cbn [unpack_members filter]. unfold qualifies at 1.
  destruct (z_is_dir z); cbn [negb andb]; [now apply IH|].
  destruct (z_file_size z >? Seeds.CORPUS_ELEMENT_BYTES_LIMIT)%Z;
    cbn [negb]; [now apply IH|].
  cbv zeta.
  set (w1 := add_log (Log WARNING "Failed to unpack seed %s: %s"
                          [AText (z_filename z);
                           AText (exn_text match z_payload z with
                                           | BadHeader => OtherException
                                           | _ => OSError
                                           end)]) w).
  assert (Hwrite : forall data,
            write_file (os_path_join corpus_directory (format_016d idx)) data w
            = (Raise OSError, w)).
  { intros data. unfold write_file. cbv zeta. rewrite locate_join, split_last_app.
    now rewrite Hdir. }
  assert (Hstep : try_except
                    (extract_member z (os_path_join corpus_directory (format_016d idx)) ;;
                     ret (S idx))
                    any_exception
                    (fun e =>
                       logs_warning "Failed to unpack seed %s: %s"
                                    [AText (z_filename z); AText (exn_text e)] ;;
                       ret idx) w
                  = (Ok idx, w1)).
  { unfold try_except, extract_member, w1.
    destruct (z_payload z) as [data| |written]; unfold bind at 1;
      rewrite ?Hwrite; try reflexivity.
    unfold bind at 1. rewrite Hwrite. reflexivity. }
  erewrite bind_ok by exact Hstep.
  destruct (IH w1 idx Hdir) as (w' & Hrun & Hfs & Hlogs).
  exists w'. split; [exact Hrun|]. split; [exact Hfs|].
  rewrite Hlogs. unfold w1. cbn [w_logs add_log List.length]. lia.
Qed.

(** An archive with a directory entry, two good members, one declared over
    the limit and two that fail. *)
Definition sample_infos : list zinfo :=
  [ZInfo "corpus/" 0 (Good []);
   ZInfo "corpus/a" 3 (Good (Seeds.bytes "GIF"));
   ZInfo "corpus/big" 2000000 (Good []);
   ZInfo "corpus/bad" 9 (BadData (Seeds.bytes "x"));
   ZInfo "corpus/b" 3 (Good (Seeds.bytes "PNG"));
   ZInfo "corpus/c" 5 BadHeader].

Definition empty_seeds_world : world :=
  Seeds.seed_world (Dir [("seeds", Dir [])]) false.

Example unpack_members_sample :
  let run := unpack_members (Abs ["seeds"]) 0 sample_infos empty_seeds_world in
  fst run = Ok 2
  /\ w_fs (snd run)
     = Dir [("seeds",
             Dir [("0000000000000000", File 0 (Seeds.bytes "GIF"));
                  ("0000000000000001", File 0 (Seeds.bytes "PNG"))])]
  /\ List.length (w_logs (snd run)) = 2.
Proof. vm_compute. repeat split. Qed.

Lemma unpack_numbers_members_in_order_witness :
  exists w',
    unpack_members (Abs ["seeds"]) 0 sample_infos empty_seeds_world
    = (Ok (List.length (unpacked sample_infos)), w')
    /\ (forall i, i < List.length (unpacked sample_infos) ->
          kind_at (w_fs w') (["seeds"] ++ [format_016d i])
          = Some (KFile (nth i (unpacked sample_infos) [])))
    /\ (forall q,
          (forall i, i <= List.length (unpacked sample_infos) ->
                     q <> ["seeds"] ++ [format_016d i]) ->
          kind_at (w_fs w') q = kind_at (w_fs empty_seeds_world) q).
Proof.
apply (unpack_numbers_members_in_order empty_seeds_world (Abs ["seeds"])
         sample_infos).
- apply wf_check_sound. reflexivity.
- reflexivity.
- intros i. reflexivity.
Defined.

Lemma unpack_into_missing_directory_witness :
  exists w',
    unpack_members (Abs ["no-such-dir"]) 0 sample_infos empty_seeds_world
    = (Ok 0, w')
    /\ w_fs w' = w_fs empty_seeds_world
    /\ List.length (w_logs w')
       = List.length (w_logs empty_seeds_world)
         + List.length (filter qualifies sample_infos).
Proof.
apply (unpack_into_missing_directory empty_seeds_world (Abs ["no-such-dir"])
         sample_infos).
reflexivity.
Defined.

End SeedSources.

(* ================================================================== *)
(** * Supervising the trial *)
(* ================================================================== *)

Module Supervisor.

Definition NUM_RETRIES : nat := 3.
Definition RETRY_DELAY : Z := 3.

Definition CORPUS_DIRNAME : string := "corpus".
Definition RESULTS_DIRNAME : string := "results".

(** Modelled from the spec: [retry.wrap(retries, delay, name)] is not part
    of the runner.  The spec describes a bounded retry with a fixed delay
    (3 attempts, fixed delay): the operation is attempted up to [retries]
    times, with a sleep of [delay] seconds after each failed attempt but the
    last, whose exception is raised. *)
Fixpoint retry_wrap {A} (retries : nat) (delay : Z) (name : string) (f : M A)
  : M A :=
  match retries with
  | O => f
  | S O => f
  | S n =>
      try_except f any_exception
        (fun _ => time_sleep delay ;; retry_wrap n delay name f)
  end.

(** The world after [time.sleep(delay)]. *)
Definition after_delay (delay : Z) (w : world) : world :=
  add_event (Slept delay) (set_clock (w_clock w + delay) w).

(** [f] failed three times in a row, with a sleep between the attempts. *)
Definition three_failed_attempts {A} (delay : Z) (f : M A)
    (w : world) (e : exn) (w' : world) : Prop :=
  exists e1 e2 w1 w2,
    f w = (Raise e1, w1)
    /\ f (after_delay delay w1) = (Raise e2, w2)
    /\ f (after_delay delay w2) = (Raise e, w').

Lemma retry_wrap_thrice {A} (delay : Z) name (f : M A) w e w' :
  (0 <= delay)%Z ->
  retry_wrap 3 delay name f w = (Raise e, w') ->
  three_failed_attempts delay f w e w'.
Proof.
intros Hd. cbn [retry_wrap]. unfold try_except, bind, time_sleep, modify.
assert (Hneg : (delay <? 0)%Z = false) by (apply Z.ltb_ge; lia).
rewrite Hneg.
destruct (f w) as [[a|e1|] w1] eqn:E1; try discriminate.
cbn [any_exception]. fold (after_delay delay w1).
destruct (f (after_delay delay w1)) as [[a|e2|] w2] eqn:E2; try discriminate.
cbn [any_exception]. fold (after_delay delay w2).
intros H. now exists e1, e2, w1, w2.
Qed.

Lemma keeps_retry_wrap {A} retries delay name (f : M A) :
  keeps steady f -> keeps steady (retry_wrap retries delay name f).
Proof.
intros Hf. induction retries as [|[|n] IH]; cbn [retry_wrap]; try assumption.
steady_frame.
Qed.

Lemma total_retry_wrap {A} retries delay name (f : M A) :
  total f -> total (retry_wrap retries delay name f).
Proof.
intros Hf. induction retries as [|[|n] IH]; cbn [retry_wrap]; try assumption.
steady_frame.
Qed.

Section WithCollaborators.

Variable get_corpus_archive_name : nat -> string.
Variable get_trial_bucket_dir : string -> string -> option Z -> string.
Variable get_snapshot_seconds : Z.
Variable sha1 : list Byte.byte -> string.

(** [fuzzer_utils.get_fuzz_target_binary(FUZZ_TARGET_DIR, fuzz_target_name)],
    which is not part of the runner: the binary found, if any. *)
Variable get_fuzz_target_binary : world -> option path.

(** Whether [benchmark_config.get_config(benchmark).get('type')] is
    ['bug']. *)
Variable benchmark_is_bug : string -> bool.

(** The path [filesystem.make_dir_copy] gives to the copy it makes. *)
Variable dir_copy_name : path -> path.

(** Where the target binaries are: [FUZZ_TARGET_DIR]. *)
Variable FUZZ_TARGET_DIR : path.

(** The filestore paths that [experiment_utils] gives for the seed corpora
    of OSS-Fuzz, the random corpora and the custom seed corpora. *)
Variable get_oss_fuzz_corpora_filestore_path : string.
Variable get_random_corpora_filestore_path : string.
Variable get_custom_seed_corpora_filestore_path : string.

(** What a copy from the filestore leaves in the tree, and the members of a
    zip archive with a given content. *)
Variable fetched : string -> loc -> node -> node.
Variable zip_read : list Byte.byte -> option (list SeedSources.zinfo).

(** ** Remote storage *)

(** [filestore_utils.cp(archive, gcs_path)] *)
Definition filestore_cp (archive : path) (gcs_path : string) : M unit :=
  external ;;
  content <- gets (fun w => Archiver.store_get archive (w_archives w)) ;;
  match content with
  | None => raise CalledProcessError      (* nothing to copy *)
  | Some ms => modify (add_event (Copied archive ms gcs_path))
  end.

(** [filestore_utils.rsync(src, dst)] *)
Definition filestore_rsync (src : path) (dst : string) : M unit :=
  external ;;
  modify (add_event (Rsynced src dst)).

(** [os.remove(archive)] in the staging directory. *)
Definition remove_archive (archive : path) : M unit :=
  fun w =>
    match Archiver.store_get archive (w_archives w) with
    | None => (Raise OSError, w)
    | Some _ =>
        (Ok tt,
         set_archives
           (filter (fun e => negb (path_eqb (fst e) archive)) (w_archives w)) w)
    end.

(** [filesystem.make_dir_copy(d)]; the copy is made outside the tree. *)
Definition filesystem_make_dir_copy (d : path) : M path :=
  external ;; ret (dir_copy_name d).

Definition truthy (s : option string) : option string :=
  match s with
  | Some "" => None
  | _ => s
  end.

(** [TrialRunner.save_corpus_archive] *)
Definition save_corpus_archive (archive : path) : M unit :=
  self <- gets w_self ;;
  match truthy (gcs_sync_dir self) with
  | None => ret tt
  | Some gcs_sync_dir =>
      let basename := os_path_basename archive in
      let gcs_path :=
        posixpath_join (posixpath_join gcs_sync_dir CORPUS_DIRNAME) basename in
      filestore_cp archive gcs_path ;;
      remove_archive archive
  end.

(** The body of [TrialRunner.archive_and_save_corpus]. *)
Definition archive_and_save_corpus_body : M unit :=
  archive <- Archiver.archive_corpus get_corpus_archive_name ;;
  save_corpus_archive archive.

(** [TrialRunner.archive_and_save_corpus], with its decorator. *)
Definition archive_and_save_corpus : M unit :=
  retry_wrap NUM_RETRIES RETRY_DELAY
    "experiment.runner.TrialRunner.archive_and_save_corpus"
    archive_and_save_corpus_body.

(** The body of [TrialRunner.save_results]. *)
Definition save_results_body : M unit :=
  self <- gets w_self ;;
  match truthy (gcs_sync_dir self) with
  | None => ret tt
  | Some gcs_sync_dir =>
      results_copy <- filesystem_make_dir_copy (results_dir self) ;;
      filestore_rsync results_copy (posixpath_join gcs_sync_dir RESULTS_DIRNAME)
  end.

(** [TrialRunner.save_results], with its decorator. *)
Definition save_results : M unit :=
  retry_wrap NUM_RETRIES RETRY_DELAY
    "experiment.runner.TrialRunner.save_results"
    save_results_body.

(** [TrialRunner.do_sync] *)
Definition do_sync : M unit :=
  try_except
    (archive_and_save_corpus ;;
     save_results ;;
     logs_debug "Finished sync." [])
    any_exception
    (fun _ =>
       self <- gets w_self ;;
       logs_error "Failed to sync cycle: %d." [AInt (Z.of_nat (cycle self))]).

(** ** The fuzz process *)

(** Modelled from the spec: [new_process.execute] is not part of the
    runner.  The spec has the fuzz process run to its end or its deadline,
    and a nonzero exit status reported as an error that [run_fuzzer]
    records: the call raises [CalledProcessError] for a nonzero status. *)
Definition new_process_execute (input output target : path)
    (timeout : option Z) (sanitized : bool) : M unit :=
  external_io ;;                           (* the process may fail to start *)
  status <- gets w_fuzz_status ;;
  modify (add_event (Executed input output target timeout sanitized status)) ;;
  if (status =? 0)%Z then ret tt else raise CalledProcessError.

(** [run_fuzzer(max_total_time, log_filename)] *)
Definition run_fuzzer (max_total_time : option Z) (log_filename : path) : M unit :=
  env <- gets w_env ;;
  let input_corpus := SEED_CORPUS_DIR env in
  output_corpus <- match OUTPUT_CORPUS_DIR env with     (* os.environ[...] *)
                   | Some p => ret p
                   | None => raise KeyError
                   end ;;
  target_binary <- gets get_fuzz_target_binary ;;
  match target_binary with
  | None => logs_error "Fuzz target binary not found." []
  | Some target_binary =>
      (match max_total_time with
       | None => logs_warning "max_total_time is None. Fuzzing indefinitely." []
       | Some _ => ret tt
       end) ;;
      let sanitized := benchmark_is_bug (BENCHMARK env) in
      try_except
        (input_corpus <- match input_corpus with      (* shlex.quote(None) *)
                         | Some p => ret p
                         | None => raise TypeError
                         end ;;
         if FUZZ_OUTSIDE_EXPERIMENT env then
           new_process_execute input_corpus output_corpus target_binary
                               max_total_time sanitized
         else
           external_io ;;                   (* open(log_filename, 'wb') *)
           new_process_execute input_corpus output_corpus target_binary
                               max_total_time sanitized)
        is_CalledProcessError
        (fun _ =>
           modify (set_errored true) ;;
           logs_error "Fuzz process returned nonzero." [])
  end.

(** ** The trial *)

(** Modelled from the spec: [filesystem.recreate_directory(d)] is not part
    of the runner; it deletes [d] if it exists and creates it empty. *)
Definition filesystem_recreate_directory (d : option path) : M unit :=
  match d with
  | None => raise TypeError
  | Some p =>
      external ;;
      modify (fun w =>
        match split_last (locate (w_cwd w) p) with
        | Some (parent, name) =>
            set_fs (set_at (w_fs w) parent name (Some (Dir []))) w
        | None => w
        end)
  end.

(** [TrialRunner.initialize_directories] *)
Definition initialize_directories : M unit :=
  self <- gets w_self ;;
  for_each [output_corpus self;
            Some (corpus_archives_dir self);
            Some (results_dir self)]
           filesystem_recreate_directory.

(** [shutil.copytree(src, dst, dirs_exist_ok=True)] onto a directory that
    was just recreated. *)
Definition shutil_copytree (src dst : path) : M unit :=
  fun w =>
    match node_at (w_fs w) (locate (w_cwd w) src),
          split_last (locate (w_cwd w) dst) with
    | Some (Dir es), Some (parent, name) =>
        (Ok tt, set_fs (set_at (w_fs w) parent name (Some (Dir es))) w)
    | _, _ => (Raise OSError, w)
    end.

Definition is_TypeError (e : exn) : bool :=
  match e with TypeError => true | _ => false end.

(** [TrialRunner.set_up_corpus_directories].  The copy falls back on
    [rmtree] and a plain [copytree] when [copytree] raises [TypeError]. *)
Definition set_up_corpus_directories : M unit :=
  env <- gets w_env ;;
  target_binary <- gets get_fuzz_target_binary ;;
  match SEED_CORPUS_DIR env with
  | None => raise TypeError                 (* os.makedirs(None) *)
  | Some input_corpus =>
      os_makedirs input_corpus ;;
      (if MICRO_EXPERIMENT env then
         SeedSources._unpack_random_corpus
           get_random_corpora_filestore_path fetched input_corpus
       else if negb (CUSTOM_SEED_CORPUS_DIR env) then
         SeedSources._unpack_clusterfuzz_seed_corpus
           FUZZ_TARGET_DIR get_oss_fuzz_corpora_filestore_path fetched zip_read
           target_binary input_corpus
       else
         SeedSources._copy_custom_seed_corpus
           get_custom_seed_corpora_filestore_path fetched input_corpus) ;;
      Seeds._clean_seed_corpus sha1 input_corpus ;;
      self <- gets w_self ;;
      filesystem_recreate_directory (output_corpus self) ;;
      match output_corpus self with
      | None => raise TypeError             (* copytree(..., None) twice *)
      | Some output_corpus =>
          try_except
            (shutil_copytree input_corpus output_corpus)
            is_TypeError
            (fun _ =>
               shutil_rmtree output_corpus ;;
               shutil_copytree input_corpus output_corpus)
      end
  end.

(** A thread that runs [target]: an exception ends the thread and does not
    reach the thread that started it. *)
Definition in_thread (target : M unit) : M unit :=
  fun w =>
    match target w with
    | (Raise _, w') => (Ok tt, w')
    | r => r
    end.

Definition set_cycle (c : nat) (r : runner) : runner :=
  Runner (gcs_sync_dir r) c (output_corpus r) (corpus_archives_dir r)
         (results_dir r) (log_file r) (last_sync_time r) (last_archive_time r).

(** The loop [while fuzz_thread.is_alive()], for the number of times the
    thread is found alive. *)
Fixpoint sync_while_alive (alive : nat) : M unit :=
  match alive with
  | O => ret tt
  | S alive' =>
      modify (fun w => set_self (set_cycle (S (cycle (w_self w))) (w_self w)) w) ;;
      Scheduler.sleep_until_next_sync get_snapshot_seconds ;;
      do_sync ;;
      sync_while_alive alive'
  end.

(** [TrialRunner.conduct_trial].  The fuzz thread is started after the
    first sync; in the model its body runs when the loop finds it ended. *)
Definition conduct_trial (alive : nat) : M unit :=
  initialize_directories ;;
  logs_info "Starting trial." [] ;;
  set_up_corpus_directories ;;
  env <- gets w_env ;;
  self <- gets w_self ;;
  let max_total_time := MAX_TOTAL_TIME env in
  do_sync ;;
  (if FUZZ_OUTSIDE_EXPERIMENT env then time_sleep 5 else ret tt) ;;
  sync_while_alive alive ;;
  in_thread (run_fuzzer max_total_time (log_file self)) ;;
  logs_info "Doing final sync." [] ;;
  do_sync.

(** [experiment_main()] *)
Definition experiment_main (alive : nat) : M unit :=
  logs_info "Doing trial as part of experiment." [] ;;
  try_except
    (Archiver.TrialRunner__init__ get_trial_bucket_dir ;;
     conduct_trial alive)
    any_exception
    (fun error => logs_error "Error doing trial." [] ;; raise error).

(** [main()] *)
Definition main (alive : nat) : M Z :=
  experiment_main alive ;;
  errored <- gets fuzzer_errored_out ;;
  if errored then ret 1%Z else ret 0%Z.

(** [sys.exit(main())]: the exit status of the process; an uncaught
    exception ends it with status 1. *)
Definition exit_status (r : result Z) : option Z :=
  match r with
  | Ok c => Some c
  | Raise _ => Some 1%Z
  | Diverge => None
  end.

(** ** Frames of a sync *)

Lemma keeps_remove_archive archive : keeps steady (remove_archive archive).
Proof. unfold remove_archive. one_step. Qed.

Lemma total_remove_archive archive : total (remove_archive archive).
Proof. unfold remove_archive. one_step. Qed.

Lemma keeps_save_corpus_archive archive : keeps steady (save_corpus_archive archive).
Proof.
unfold save_corpus_archive, filestore_cp. pose proof keeps_remove_archive.
steady_frame.
Qed.

Lemma total_save_corpus_archive archive : total (save_corpus_archive archive).
Proof.
unfold save_corpus_archive, filestore_cp. pose proof total_remove_archive.
steady_frame.
Qed.

Lemma keeps_archive_and_save_corpus : keeps steady archive_and_save_corpus.
Proof.
apply keeps_retry_wrap. unfold archive_and_save_corpus_body.
pose proof keeps_save_corpus_archive. steady_frame.
Qed.

Lemma total_archive_and_save_corpus : total archive_and_save_corpus.
Proof.
apply total_retry_wrap. unfold archive_and_save_corpus_body.
pose proof total_save_corpus_archive. steady_frame.
Qed.

Lemma keeps_save_results : keeps steady save_results.
Proof.
apply keeps_retry_wrap.
unfold save_results_body, filesystem_make_dir_copy, filestore_rsync.
steady_frame.
Qed.

Lemma total_save_results : total save_results.
Proof.
apply total_retry_wrap.
unfold save_results_body, filesystem_make_dir_copy, filestore_rsync.
steady_frame.
Qed.

(** The two steps of a sync, in sequence. *)
Definition sync_steps : M unit := archive_and_save_corpus ;; save_results.

Lemma keeps_sync_steps : keeps steady sync_steps.
Proof.
unfold sync_steps.
pose proof keeps_archive_and_save_corpus. pose proof keeps_save_results.
steady_frame.
Qed.

Lemma total_sync_steps : total sync_steps.
Proof.
unfold sync_steps.
pose proof total_archive_and_save_corpus. pose proof total_save_results.
steady_frame.
Qed.

(** What [do_sync] does, by the outcome of its two steps. *)
Lemma do_sync_run w :
  do_sync w
  = match sync_steps w with
    | (Ok _, w1) => (Ok tt, add_log (Log DEBUG "Finished sync." []) w1)
    | (Raise _, w1) =>
        (Ok tt, add_log (Log ERROR "Failed to sync cycle: %d."
                           [AInt (Z.of_nat (cycle (w_self w1)))]) w1)
    | (Diverge, w1) => (Diverge, w1)
    end.
Proof.
unfold do_sync, sync_steps, try_except, bind.
destruct (archive_and_save_corpus w) as [[[]|e|] w1]; try reflexivity.
destruct (save_results w1) as [[[]|e|] w2]; reflexivity.
Qed.

Lemma do_sync_returns w : exists w', do_sync w = (Ok tt, w').
Proof.
rewrite do_sync_run. pose proof (total_sync_steps w) as Ht.
destruct (sync_steps w) as [[[]|e|] w1]; simpl in Ht; try congruence; eauto.
Qed.

Lemma keeps_do_sync : keeps steady do_sync.
Proof.
intros w. rewrite do_sync_run. pose proof (keeps_sync_steps w) as Hk.
destruct (sync_steps w) as [[[]|e|] w1]; simpl in *; exact Hk.
Qed.

Lemma total_do_sync : total do_sync.
Proof. intros w. destruct (do_sync_returns w) as [w' ->]. discriminate. Qed.

(** ** Claim C4 *)

(** C4 (with [retry.wrap] as modelled above): [do_sync] always returns.  When one of its two
    steps raises, the exception is caught and an error with the current
    cycle number is logged; and a step raises only after three failed
    attempts, 3 seconds apart. *)
Theorem do_sync_never_raises :
  forall w : world,
    exists w',
      do_sync w = (Ok tt, w')
      /\ (forall e w1,
            sync_steps w = (Raise e, w1) ->
            w' = add_log (Log ERROR "Failed to sync cycle: %d."
                            [AInt (Z.of_nat (cycle (w_self w)))]) w1)
      /\ (forall e w1,
            archive_and_save_corpus w = (Raise e, w1) ->
            three_failed_attempts RETRY_DELAY archive_and_save_corpus_body w e w1)
      /\ (forall w0 e w1,
            save_results w0 = (Raise e, w1) ->
            three_failed_attempts RETRY_DELAY save_results_body w0 e w1).
Proof.
intros w. destruct (do_sync_returns w) as [w' Hrun].
exists w'. split; [exact Hrun|]. split; [|split].
- intros e w1 Hsteps. rewrite do_sync_run, Hsteps in Hrun.
  injection Hrun as <-.
  pose proof (keeps_sync_steps w) as [Hcycle _]. rewrite Hsteps in Hcycle.
  simpl in Hcycle. now rewrite Hcycle.
- intros e w1. apply retry_wrap_thrice. unfold RETRY_DELAY. lia.
- intros w0 e w1. apply retry_wrap_thrice. unfold RETRY_DELAY. lia.
Qed.

(** ** The fuzz process and the error flag *)

(** [run_fuzzer] either runs no process and leaves the flag as it is, or
    runs one and sets the flag when its status is not 0. *)
Lemma run_fuzzer_effect max_total_time log_filename w :
  let r := run_fuzzer max_total_time log_filename w in
  fst r <> Diverge
  /\ (quiet w (snd r)
      \/ exists input output target sanitized,
           fst r = Ok tt
           /\ w_events (snd r)
              = Executed input output target max_total_time sanitized
                         (w_fuzz_status w) :: w_events w
           /\ fuzzer_errored_out (snd r)
              = if (w_fuzz_status w =? 0)%Z then fuzzer_errored_out w else true).
Proof.
unfold run_fuzzer, new_process_execute, logs_error, logs_warning.
unfold try_except, bind, gets, modify, ret, raise, external_io.
cbv beta zeta.
repeat (cbn -[Z.eqb]; case_innermost);
  cbn -[Z.eqb]; (split; [discriminate|]);
  first [ left; split; reflexivity
        | right; do 4 eexists; repeat split; reflexivity ].
Qed.

Lemma run_fuzzer_missing_binary max_total_time log_filename w :
  get_fuzz_target_binary w = None ->
  OUTPUT_CORPUS_DIR (w_env w) <> None ->
  run_fuzzer max_total_time log_filename w
  = (Ok tt, add_log (Log ERROR "Fuzz target binary not found." []) w).
Proof.
intros Hbin Hout. unfold run_fuzzer. rewrite bind_gets.
destruct (OUTPUT_CORPUS_DIR (w_env w)) as [p|]; [|congruence].
rewrite bind_ret, bind_gets, Hbin. reflexivity.
Qed.

Lemma keeps_run_fuzzer_missing_binary max_total_time log_filename :
  (forall w, get_fuzz_target_binary w = None) ->
  keeps quiet (run_fuzzer max_total_time log_filename).
Proof.
intros Hbin w. unfold run_fuzzer. rewrite bind_gets.
destruct (OUTPUT_CORPUS_DIR (w_env w)) as [p|]; [|apply quiet_refl].
rewrite bind_ret, bind_gets, Hbin. split; reflexivity.
Qed.

Lemma in_thread_run (target : M unit) w :
  fst (target w) <> Diverge ->
  in_thread target w = (Ok tt, snd (target w)).
Proof.
unfold in_thread. destruct (target w) as [[[]|e|] w1]; simpl; congruence.
Qed.

Lemma keeps_recreate_directory d : keeps steady (filesystem_recreate_directory d).
Proof.
unfold filesystem_recreate_directory. destruct d as [p|]; [|steady_frame].
apply (keeps_bind _ steady_trans); [steady_frame|intros _].
apply keeps_modify. intros w.
destruct (split_last (locate (w_cwd w) p)) as [[parent name]|];
  repeat split; reflexivity.
Qed.

Lemma keeps_initialize_directories : keeps steady initialize_directories.
Proof.
unfold initialize_directories. pose proof keeps_recreate_directory.
steady_frame.
Qed.

Lemma keeps_shutil_copytree src dst : keeps steady (shutil_copytree src dst).
Proof. unfold shutil_copytree. one_step. Qed.

Lemma keeps_set_up_corpus_directories : keeps steady set_up_corpus_directories.
Proof.
unfold set_up_corpus_directories.
pose proof keeps_recreate_directory. pose proof keeps_shutil_copytree.
pose proof SeedSources.keeps_unpack_random_corpus.
pose proof SeedSources.keeps_copy_custom_seed_corpus.
pose proof SeedSources.keeps_unpack_clusterfuzz_seed_corpus.
steady_frame.
Qed.

Lemma keeps_sync_while_alive alive : keeps quiet (sync_while_alive alive).
Proof.
induction alive as [|alive IH]; cbn [sync_while_alive].
- apply keeps_ret, quiet_refl.
- pose proof (steady_quiet _ keeps_do_sync).
  pose proof (steady_quiet _ (Scheduler.keeps_sleep_until_next_sync
                                 get_snapshot_seconds)).
  repeat first [ assumption | frame_step quiet_refl quiet_trans ].
Qed.

(** A trial either never gets to the end of a fuzz process, or ends with
    the final sync, run in the world [run_fuzzer] left. *)
Lemma conduct_trial_outcome alive w r w' :
  conduct_trial alive w = (r, w') ->
  quiet w w'
  \/ (r = Ok tt
      /\ exists w_before max_total_time log_filename,
           quiet w w_before
           /\ do_sync (add_log (Log INFO "Doing final sync." [])
                         (snd (run_fuzzer max_total_time log_filename w_before)))
              = (Ok tt, w')).
Proof.
unfold conduct_trial. intros H.
pose proof (steady_quiet _ keeps_initialize_directories) as K1.
pose proof (steady_quiet _ keeps_set_up_corpus_directories) as K2.
pose proof (steady_quiet _ keeps_do_sync) as K3.
pose proof (keeps_sync_while_alive alive) as K4.
assert (K5 : forall b : bool, keeps quiet (if b then time_sleep 5 else ret tt)).
{ intros [|]; [apply steady_quiet, keeps_time_sleep|apply keeps_ret, quiet_refl]. }
pose proof (quiet_refl w) as Hacc.
apply (bind_inv quiet) in H; [|exact K1].
destruct H as [(? & w1 & Hq & H)|[Hq _]];
  [apply (quiet_trans _ _ _ Hacc) in Hq; clear Hacc; rename Hq into Hacc
  |left; exact (quiet_trans _ _ _ Hacc Hq)].
unfold logs_info at 1 in H. rewrite bind_modify in H.
assert (Hacc2 : quiet w (add_log (Log INFO "Starting trial." []) w1))
  by exact Hacc.
clear Hacc. rename Hacc2 into Hacc.
apply (bind_inv quiet) in H; [|exact K2].
destruct H as [(? & w2 & Hq & H)|[Hq _]];
  [apply (quiet_trans _ _ _ Hacc) in Hq; clear Hacc; rename Hq into Hacc
  |left; exact (quiet_trans _ _ _ Hacc Hq)].
rewrite !bind_gets in H.
apply (bind_inv quiet) in H; [|exact K3].
destruct H as [(? & w3 & Hq & H)|[Hq _]];
  [apply (quiet_trans _ _ _ Hacc) in Hq; clear Hacc; rename Hq into Hacc
  |left; exact (quiet_trans _ _ _ Hacc Hq)].
apply (bind_inv quiet) in H; [|apply K5].
destruct H as [(? & w4 & Hq & H)|[Hq _]];
  [apply (quiet_trans _ _ _ Hacc) in Hq; clear Hacc; rename Hq into Hacc
  |left; exact (quiet_trans _ _ _ Hacc Hq)].
apply (bind_inv quiet) in H; [|exact K4].
destruct H as [(? & w5 & Hq & H)|[Hq _]];
  [apply (quiet_trans _ _ _ Hacc) in Hq; clear Hacc; rename Hq into Hacc
  |left; exact (quiet_trans _ _ _ Hacc Hq)].
(* the fuzz thread has ended *)
erewrite bind_ok in H by (apply in_thread_run, run_fuzzer_effect).
unfold logs_info at 1 in H. rewrite bind_modify in H.
destruct (do_sync_returns
            (add_log (Log INFO "Doing final sync." [])
               (snd (run_fuzzer (MAX_TOTAL_TIME (w_env w2))
                                (log_file (w_self w2)) w5))))
  as [w6 Hsync].
rewrite Hsync in H. injection H as <- <-.
right. split; [reflexivity|].
now exists w5, (MAX_TOTAL_TIME (w_env w2)), (log_file (w_self w2)).
Qed.

(** What [main] returns, by the outcome of the trial. *)
Lemma main_run alive w :
  main alive w
  = match (Archiver.TrialRunner__init__ get_trial_bucket_dir ;;
           conduct_trial alive)
            (add_log (Log INFO "Doing trial as part of experiment." []) w) with
    | (Ok _, w1) => (Ok (if fuzzer_errored_out w1 then 1 else 0)%Z, w1)
    | (Raise e, w1) => (Raise e, add_log (Log ERROR "Error doing trial." []) w1)
    | (Diverge, w1) => (Diverge, w1)
    end.
Proof.
unfold main, experiment_main, logs_info, logs_error.
unfold bind at 1 2. unfold modify at 1. unfold try_except.
destruct ((_ ;; conduct_trial alive) _) as [[[]|e|] w1]; try reflexivity.
unfold bind, gets. now destruct (fuzzer_errored_out w1).
Qed.

Lemma trial_outcome alive w r w' :
  (Archiver.TrialRunner__init__ get_trial_bucket_dir ;; conduct_trial alive) w
  = (r, w') ->
  quiet w w'
  \/ (r = Ok tt
      /\ exists w_before max_total_time log_filename,
           quiet w w_before
           /\ do_sync (add_log (Log INFO "Doing final sync." [])
                         (snd (run_fuzzer max_total_time log_filename w_before)))
              = (Ok tt, w')).
Proof.
intros H. apply (bind_inv quiet) in H; [|apply Archiver.keeps_init].
destruct H as [(? & w1 & Hq & H)|[Hq _]]; [|now left].
apply conduct_trial_outcome in H
  as [H|(-> & w_before & mtt & logf & Hq2 & Hsync)].
- left. exact (quiet_trans _ _ _ Hq H).
- right. split; [reflexivity|]. exists w_before, mtt, logf.
  split; [exact (quiet_trans _ _ _ Hq Hq2)|exact Hsync].
Qed.

Lemma no_execution w ev :
  executions w = [] -> In ev (w_events w) -> is_execution ev = false.
Proof.
intros Hnone Hin. destruct (is_execution ev) eqn:E; [|reflexivity].
assert (In ev (executions w)) by (apply filter_In; now split).
rewrite Hnone in H. contradiction.
Qed.

(** ** Claim C5 *)

(** C5, amended: in a run of [main] whose record shows a fuzz process that
    exited with a nonzero status, [run_fuzzer] returned without raising and
    left the error flag set, the final sync was done after that, in the
    world [run_fuzzer] left, and [main] returns 1.  The exit status is 0
    only when no exception reached [main] and no fuzz process exited with a
    nonzero status. *)
Theorem nonzero_exit_is_reported :
  forall (alive : nat) (w w' : world) (res : result Z),
    executions w = [] ->
    main alive w = (res, w') ->
    (forall input output target timeout sanitized status,
        In (Executed input output target timeout sanitized status) (w_events w') ->
        status <> 0%Z ->
        res = Ok 1%Z
        /\ fuzzer_errored_out w' = true
        /\ exists w_before max_total_time log_filename,
             let fuzzed := run_fuzzer max_total_time log_filename w_before in
             fst fuzzed = Ok tt
             /\ fuzzer_errored_out (snd fuzzed) = true
             /\ do_sync (add_log (Log INFO "Doing final sync." []) (snd fuzzed))
                = (Ok tt, w'))
    /\ (exit_status res = Some 0%Z ->
        res = Ok 0%Z
        /\ forall input output target timeout sanitized status,
             In (Executed input output target timeout sanitized status)
                (w_events w') ->
             status = 0%Z).
Proof.
intros alive w w' res Hfresh Hmain.
rewrite main_run in Hmain.
set (w0 := add_log (Log INFO "Doing trial as part of experiment." []) w) in *.
destruct ((_ ;; conduct_trial alive) w0) as [rT wT] eqn:ET.
apply trial_outcome in ET
  as [Hq|(-> & w_before & mtt & logf & Hq & Hsync)].
- (* no fuzz process was run *)
  assert (Hnone : executions w' = []).
  { destruct Hq as [_ Hex]. change (executions w0) with (executions w) in Hex.
    destruct rT as [[]|e|]; injection Hmain as <- <-;
      [|change (executions (add_log (Log ERROR "Error doing trial." []) wT))
          with (executions wT)|]; congruence. }
  split.
  + intros i o t mt sn st Hin _.
    now pose proof (no_execution w' _ Hnone Hin).
  + intros Hexit. split.
    * destruct rT as [[]|e|]; injection Hmain as <- <-; simpl in Hexit;
        try discriminate. now injection Hexit as ->.
    * intros i o t mt sn st Hin.
      now pose proof (no_execution w' _ Hnone Hin).
- (* the fuzz thread ended and the final sync was done *)
  injection Hmain as <- <-.
  pose proof (keeps_do_sync
                (add_log (Log INFO "Doing final sync." [])
                   (snd (run_fuzzer mtt logf w_before)))) as Hk.
  rewrite Hsync in Hk. destruct Hk as [_ [Hflag Hexec]]. simpl in Hflag, Hexec.
  change (executions (add_log (Log INFO "Doing final sync." [])
                        (snd (run_fuzzer mtt logf w_before))))
    with (executions (snd (run_fuzzer mtt logf w_before))) in Hexec.
  change (fuzzer_errored_out (add_log (Log INFO "Doing final sync." [])
                        (snd (run_fuzzer mtt logf w_before))))
    with (fuzzer_errored_out (snd (run_fuzzer mtt logf w_before))) in Hflag.
  assert (Hbefore : executions w_before = []).
  { destruct Hq as [_ Hex]. change (executions w0) with (executions w) in Hex.
    congruence. }
  destruct (run_fuzzer_effect mtt logf w_before)
    as [_ [Hquiet|(i0 & o0 & t0 & sn0 & Hok & Hev & Hfl)]].
  + (* it ran no process *)
    assert (Hnone : executions wT = []).
    { destruct Hquiet as [_ Hex]. congruence. }
    split.
    * intros i o t mt sn st Hin _.
      now pose proof (no_execution wT _ Hnone Hin).
    * intros Hexit. split.
      -- simpl in Hexit. injection Hexit as Hexit.
         destruct (fuzzer_errored_out wT); [discriminate|reflexivity].
      -- intros i o t mt sn st Hin.
         now pose proof (no_execution wT _ Hnone Hin).
  + (* it ran one *)
    assert (Hone : forall i o t mt sn st,
               In (Executed i o t mt sn st) (w_events wT) ->
               st = w_fuzz_status w_before).
    { intros i o t mt sn st Hin.
      assert (Hin' : In (Executed i o t mt sn st) (executions wT))
        by (apply filter_In; now split).
      rewrite Hexec in Hin'. unfold executions in Hin'. rewrite Hev in Hin'.
      cbn [filter is_execution] in Hin'.
      fold (executions w_before) in Hin'. rewrite Hbefore in Hin'.
      destruct Hin' as [Heq|[]]. now injection Heq. }
    split.
    * intros i o t mt sn st Hin Hne.
      apply Hone in Hin. subst st.
      assert (Hset : fuzzer_errored_out (snd (run_fuzzer mtt logf w_before)) = true).
      { rewrite Hfl. destruct (Z.eqb_spec (w_fuzz_status w_before) 0);
          [contradiction|reflexivity]. }
      assert (HT : fuzzer_errored_out wT = true) by congruence.
      rewrite HT. split; [reflexivity|]. split; [reflexivity|].
      exists w_before, mtt, logf. cbv zeta. now repeat split.
    * intros Hexit. simpl in Hexit. injection Hexit as Hexit.
      destruct (fuzzer_errored_out wT) eqn:HT; [discriminate|].
      split; [reflexivity|].
      intros i o t mt sn st Hin. apply Hone in Hin. subst st.
      rewrite Hfl in Hflag.
      destruct (Z.eqb_spec (w_fuzz_status w_before) 0); [assumption|discriminate].
Qed.

(** ** Claim C9 *)

(** C9: when the target binary cannot be resolved (and the output-corpus
    variable is set), [run_fuzzer] logs the failure and returns: no process
    is run and the error flag is as before.  In a trial in which the binary
    is never resolved, [main] does not return 1 on account of the flag: when
    it returns, it returns 0. *)
Theorem missing_binary_is_not_an_error :
  (forall w1, get_fuzz_target_binary w1 = None) ->
  forall (w : world) (max_total_time : option Z) (log_filename : path)
         (alive : nat),
    OUTPUT_CORPUS_DIR (w_env w) <> None ->
    run_fuzzer max_total_time log_filename w
    = (Ok tt, add_log (Log ERROR "Fuzz target binary not found." []) w)
    /\ (forall w0 c w',
          fuzzer_errored_out w0 = false ->
          main alive w0 = (Ok c, w') -> c = 0%Z).
Proof.
intros Hbin w mtt logf alive Hout. split.
- now apply run_fuzzer_missing_binary.
- intros w0 c w' Hflag Hmain. rewrite main_run in Hmain.
  set (w1 := add_log (Log INFO "Doing trial as part of experiment." []) w0) in *.
  destruct ((_ ;; conduct_trial alive) w1) as [rT wT] eqn:ET.
  assert (Hq : quiet w1 wT).
  { apply trial_outcome in ET
      as [Hq|(-> & w_before & mtt' & logf' & Hq & Hsync)]; [exact Hq|].
    pose proof (keeps_run_fuzzer_missing_binary mtt' logf' Hbin w_before) as Hq2.
    pose proof (steady_quiet _ keeps_do_sync
                  (add_log (Log INFO "Doing final sync." [])
                     (snd (run_fuzzer mtt' logf' w_before)))) as Hq3.
    rewrite Hsync in Hq3. simpl in Hq3.
    apply (quiet_trans _ _ _ Hq). apply (quiet_trans _ _ _ Hq2).
    destruct Hq3 as [H1 H2]. split; [exact H1|exact H2]. }
  destruct Hq as [Hfl _]. change (fuzzer_errored_out w1) with (fuzzer_errored_out w0) in Hfl.
  destruct rT as [[]|e|]; try discriminate.
  injection Hmain as <- <-. now rewrite Hfl, Hflag.
Qed.

(* ------------------------------------------------------------------ *)
(** ** What a call of [save_corpus_archive] does *)

Lemma store_get_removed archive st :
  Archiver.store_get archive
    (filter (fun e => negb (path_eqb (fst e) archive)) st) = None.
Proof.
induction st as [|[a ms] st IH]; [reflexivity|]. cbn [filter fst].
destruct (path_eqb a archive) eqn:E; cbn [negb]; [exact IH|].
cbn [Archiver.store_get]. now rewrite E.
Qed.

Lemma store_get_others archive other st :
  other <> archive ->
  Archiver.store_get other
    (filter (fun e => negb (path_eqb (fst e) archive)) st)
  = Archiver.store_get other st.
Proof.
intros Hne. induction st as [|[a ms] st IH]; [reflexivity|]. cbn [filter fst].
destruct (path_eqb a archive) eqn:E; cbn [negb Archiver.store_get].
- apply path_eqb_eq in E. subst a.
  destruct (path_eqb archive other) eqn:E2; [|exact IH].
  apply path_eqb_eq in E2. congruence.
- now rewrite IH.
Qed.

(** X11.  [save_corpus_archive] does nothing without a sync directory.  With one,
    the archive is copied to [<sync dir>/corpus/<name of the archive>] and
    then deleted locally; when the copy fails the exception propagates,
    nothing is recorded as copied and the archive stays where it is. *)
Theorem save_corpus_archive_outcome :
  forall (w : world) (archive : path),
    (truthy (gcs_sync_dir (w_self w)) = None ->
     save_corpus_archive archive w = (Ok tt, w))
    /\ (forall gcs members,
          truthy (gcs_sync_dir (w_self w)) = Some gcs ->
          Archiver.store_get archive (w_archives w) = Some members ->
          match w_faults w with
          | Some e :: rest =>
              save_corpus_archive archive w = (Raise e, set_faults rest w)
          | _ =>
              exists w',
                save_corpus_archive archive w = (Ok tt, w')
                /\ w_events w'
                   = Copied archive members
                       (posixpath_join (posixpath_join gcs CORPUS_DIRNAME)
                                       (os_path_basename archive))
                     :: w_events w
                /\ Archiver.store_get archive (w_archives w') = None
                /\ forall other, other <> archive ->
                     Archiver.store_get other (w_archives w')
                     = Archiver.store_get other (w_archives w)
          end).
Proof.
intros w archive. unfold save_corpus_archive. rewrite bind_gets. split.
- now intros ->.
- intros gcs members -> Hget. cbv zeta.
  unfold filestore_cp, remove_archive, bind, external, gets, modify.
  destruct (w_faults w) as [|[e|] rest] eqn:Ef; cbn [w_archives set_faults add_event];
    rewrite ?Hget; try reflexivity.
  + cbn [w_archives set_faults add_event]. rewrite Hget.
    eexists. split; [reflexivity|]. cbn [w_events w_archives set_archives add_event
                                          set_faults].
    split; [reflexivity|]. split; [apply store_get_removed|].
    intros other Hne. now apply store_get_others.
  + cbn [w_archives set_faults add_event]. rewrite Hget.
    eexists. split; [reflexivity|]. cbn [w_events w_archives set_archives add_event
                                          set_faults].
    split; [reflexivity|]. split; [apply store_get_removed|].
    intros other Hne. now apply store_get_others.
Qed.
(* ------------------------------------------------------------------ *)
(** ** A trial outside an experiment *)

(** The events that change remote storage: a copy or an rsync to it, a
    removal from it.  (Fetching a seed corpus reads it.) *)
Definition is_remote (e : event) : bool :=
  match e with
  | Copied _ _ _ | Rsynced _ _ | RemoteRemoved _ => true
  | _ => false
  end.

Definition remote_events (w : world) : list event :=
  filter is_remote (w_events w).

(** A runner without a sync directory stays without one, and does nothing
    to remote storage. *)
Definition offline (w w' : world) : Prop :=
  truthy (gcs_sync_dir (w_self w)) = None ->
  truthy (gcs_sync_dir (w_self w')) = None
  /\ remote_events w' = remote_events w.

Lemma offline_refl w : offline w w.
Proof. intros H. now split. Qed.

Lemma offline_trans a b c : offline a b -> offline b c -> offline a c.
Proof.
intros Hab Hbc H. destruct (Hab H) as [H1 E1]. destruct (Hbc H1) as [H2 E2].
split; [exact H2|congruence].
Qed.

(** A step that changes neither the sync directory nor the remote events. *)
Ltac offline_leaf :=
  let w := fresh "w" in
  let H := fresh "H" in
  unfold keeps, offline; intros w H; cbn beta delta [modify snd] iota;
  repeat match goal with
         | |- context [match ?x with _ => _ end] => destruct x
         end;
  cbn; (split; [exact H|reflexivity]).

Ltac offline_frame :=
  repeat first [ solve [auto]
               | frame_step offline_refl offline_trans
               | solve [offline_leaf] ].

Lemma offline_external : keeps offline external.
Proof. unfold external. offline_leaf. Qed.

Lemma offline_external_io : keeps offline external_io.
Proof. unfold external_io. offline_leaf. Qed.

Lemma offline_time_sleep d : keeps offline (time_sleep d).
Proof. unfold time_sleep, raise, modify. offline_leaf. Qed.

Lemma offline_retry_wrap {A} retries delay name (f : M A) :
  keeps offline f -> keeps offline (retry_wrap retries delay name f).
Proof.
intros Hf. pose proof offline_time_sleep.
induction retries as [|[|n] IH]; cbn [retry_wrap]; try assumption.
offline_frame.
Qed.

Lemma offline_clean_seed_corpus d : keeps offline (Seeds._clean_seed_corpus sha1 d).
Proof.
assert (Hfile : forall a b, keeps offline (Seeds.clean_file sha1 a b)).
{ intros a b.
  unfold Seeds.clean_file, Seeds.file_hash, shutil_move, logs_warning,
    os_path_getsize, os_remove, os_rename, os_path_isdir, os_path_exists.
  offline_frame. }
assert (Hwalk : forall fuel a b, keeps offline (Seeds.clean_walk sha1 fuel a b)).
{ induction fuel as [|fuel IH]; intros a b; cbn [Seeds.clean_walk]; offline_frame. }
unfold Seeds._clean_seed_corpus, os_path_exists, logs_info, logs_error,
  shutil_rmtree, os_mkdir.
offline_frame.
Qed.

Lemma offline_archive_corpus :
  keeps offline (Archiver.archive_corpus get_corpus_archive_name).
Proof.
assert (Hfind : forall arg,
          keeps offline (Resolver._find_real_output_corpus_dir arg)).
{ intros arg. apply keeps_reads; [apply offline_refl|]. intros w.
  destruct arg as [p|]; [now rewrite Resolver.find_real_run|reflexivity]. }
assert (Hiter : forall d, keeps offline (Archiver.iter_targeted_corpus_elements d)).
{ intros d. apply keeps_reads; [apply offline_refl|].
  intros w. now rewrite Archiver.iter_targeted_run. }
assert (Hloop : forall archive root watermark files t,
          keeps offline (Archiver.archive_elements archive root watermark t files)).
{ intros archive root watermark files.
  induction files as [|q files IH]; intros t; cbn [Archiver.archive_elements].
  - apply keeps_ret, offline_refl.
  - apply (keeps_bind _ offline_trans); [|intro; apply IH].
    unfold Archiver.archive_element, logs_error, os_stat_mtime,
      Archiver.os_path_relpath, Archiver.tar_add.
    offline_frame. }
pose proof offline_external.
unfold Archiver.archive_corpus, Archiver.tarfile_open, Archiver.tar_close,
  os_path_isdir, logs_warning.
offline_frame.
Qed.
Lemma offline_save_corpus_archive archive :
  keeps offline (save_corpus_archive archive).
Proof.
intros w H. unfold save_corpus_archive. rewrite bind_gets, H. now split.
Qed.

Lemma offline_save_results_body : keeps offline save_results_body.
Proof.
intros w H. unfold save_results_body. rewrite bind_gets, H. now split.
Qed.

Lemma offline_do_sync : keeps offline do_sync.
Proof.
pose proof offline_archive_corpus. pose proof offline_save_corpus_archive.
pose proof offline_save_results_body.
assert (keeps offline archive_and_save_corpus).
{ apply offline_retry_wrap. unfold archive_and_save_corpus_body. offline_frame. }
assert (keeps offline save_results) by now apply offline_retry_wrap.
unfold do_sync, logs_debug, logs_error. offline_frame.
Qed.

Lemma offline_sleep_until_next_sync :
  keeps offline (Scheduler.sleep_until_next_sync get_snapshot_seconds).
Proof.
pose proof offline_time_sleep.
unfold Scheduler.sleep_until_next_sync, time_time, logs_warning, logs_debug.
offline_frame.
Qed.

Lemma offline_sync_while_alive alive : keeps offline (sync_while_alive alive).
Proof.
pose proof offline_do_sync. pose proof offline_sleep_until_next_sync.
induction alive as [|alive IH]; cbn [sync_while_alive]; offline_frame.
Qed.

Lemma offline_recreate_directory d :
  keeps offline (filesystem_recreate_directory d).
Proof.
pose proof offline_external.
unfold filesystem_recreate_directory. offline_frame.
Qed.

Lemma offline_run_fuzzer max_total_time log_filename :
  keeps offline (run_fuzzer max_total_time log_filename).
Proof.
pose proof offline_external_io.
unfold run_fuzzer, new_process_execute, logs_error, logs_warning.
offline_frame.
Qed.

Lemma offline_in_thread (target : M unit) :
  keeps offline target -> keeps offline (in_thread target).
Proof.
intros Ht w. specialize (Ht w). unfold in_thread.
now destruct (target w) as [[[]|e|] w1].
Qed.

Lemma offline_filestore_fetch src dst :
  keeps offline (SeedSources.filestore_fetch fetched src dst).
Proof.
pose proof offline_external. unfold SeedSources.filestore_fetch. offline_frame.
Qed.

Lemma offline_unpack_members corpus_directory infos :
  forall idx,
    keeps offline (SeedSources.unpack_members corpus_directory idx infos).
Proof.
induction infos as [|z infos IH]; intros idx; cbn [SeedSources.unpack_members].
- apply keeps_ret, offline_refl.
- unfold SeedSources.extract_member, SeedSources.write_file, logs_warning.
  offline_frame.
Qed.

Lemma offline_seed_sources :
  (forall d, keeps offline
     (SeedSources._unpack_random_corpus
        get_random_corpora_filestore_path fetched d))
  /\ (forall d, keeps offline
        (SeedSources._copy_custom_seed_corpus
           get_custom_seed_corpora_filestore_path fetched d))
  /\ (forall target d, keeps offline
        (SeedSources._unpack_clusterfuzz_seed_corpus
           FUZZ_TARGET_DIR get_oss_fuzz_corpora_filestore_path fetched zip_read
           target d)).
Proof.
pose proof offline_filestore_fetch. pose proof offline_unpack_members.
(split; [|split]); intros;
  unfold SeedSources._unpack_random_corpus, SeedSources._copy_custom_seed_corpus,
    SeedSources._unpack_clusterfuzz_seed_corpus,
    SeedSources.get_clusterfuzz_seed_corpus_path,
    SeedSources.zipfile_infolist, shutil_rmtree, os_path_exists, logs_info;
  offline_frame.
Qed.

Lemma offline_conduct_trial alive : keeps offline (conduct_trial alive).
Proof.
pose proof offline_recreate_directory. pose proof offline_external.
pose proof offline_clean_seed_corpus. pose proof offline_do_sync.
pose proof offline_time_sleep. pose proof (offline_sync_while_alive alive).
destruct offline_seed_sources as (? & ? & ?).
assert (forall a b, keeps offline (in_thread (run_fuzzer a b)))
  by (intros; apply offline_in_thread, offline_run_fuzzer).
unfold conduct_trial, initialize_directories, set_up_corpus_directories,
  shutil_copytree, shutil_rmtree, os_makedirs, logs_info.
offline_frame.
Qed.

(** X12.  Outside an experiment nothing is sent to, or removed from, remote
    storage: when [FUZZ_OUTSIDE_EXPERIMENT] is set, the events that change
    remote storage after [main] are those before it, whatever the outcome
    of the trial.  What may still happen is that a seed corpus is fetched
    from the filestore. *)
Theorem trial_outside_experiment_is_local :
  forall (alive : nat) (w w' : world) (res : result Z),
    FUZZ_OUTSIDE_EXPERIMENT (w_env w) = true ->
    main alive w = (res, w') ->
    remote_events w' = remote_events w.
Proof.
intros alive w w' res Hout Hmain. rewrite main_run in Hmain.
set (w0 := add_log (Log INFO "Doing trial as part of experiment." []) w) in *.
assert (Hinit : exists w1,
          Archiver.TrialRunner__init__ get_trial_bucket_dir w0 = (Ok tt, w1)
          /\ truthy (gcs_sync_dir (w_self w1)) = None
          /\ remote_events w1 = remote_events w).
{ unfold Archiver.TrialRunner__init__. rewrite bind_gets.
  change (w_env w0) with (w_env w). rewrite Hout. cbn [negb].
  rewrite bind_ret. unfold os_path_abspath. rewrite !bind_gets.
  eexists. split; [reflexivity|]. now split. }
destruct Hinit as (w1 & Hrun1 & Hnone & Hev1).
unfold bind in Hmain at 1. rewrite Hrun1 in Hmain.
destruct (offline_conduct_trial alive w1 Hnone) as [_ Hev].
destruct (conduct_trial alive w1) as [[[]|e|] wT]; cbn [snd] in Hev;
  injection Hmain as _ <-; unfold remote_events in *;
  cbn [w_events add_log]; congruence.
Qed.

(** ** Counting cycles *)

Definition same_cycle (w w' : world) : Prop :=
  cycle (w_self w') = cycle (w_self w).

Lemma same_cycle_refl w : same_cycle w w.
Proof. reflexivity. Qed.

Lemma same_cycle_trans a b c : same_cycle a b -> same_cycle b c -> same_cycle a c.
Proof. unfold same_cycle. congruence. Qed.

Lemma steady_same_cycle {A} (c : M A) : keeps steady c -> keeps same_cycle c.
Proof. intros H w. apply H. Qed.

Lemma same_cycle_run_fuzzer max_total_time log_filename :
  keeps same_cycle (run_fuzzer max_total_time log_filename).
Proof.
assert (keeps same_cycle external_io)
  by (unfold external_io; intros w; unfold same_cycle;
      destruct (w_faults w) as [|[e|] ?]; reflexivity).
assert (Hleaf : forall f, (forall w, w_self (f w) = w_self w) ->
                          keeps same_cycle (modify f))
  by (intros f Hf w; unfold same_cycle, modify; cbn [snd]; now rewrite Hf).
unfold run_fuzzer, new_process_execute, logs_error, logs_warning.
repeat first [ assumption
             | frame_step same_cycle_refl same_cycle_trans
             | apply Hleaf; intros []; reflexivity ].
Qed.

Lemma same_cycle_in_thread (target : M unit) :
  keeps same_cycle target -> keeps same_cycle (in_thread target).
Proof.
intros Ht w. specialize (Ht w). unfold in_thread.
now destruct (target w) as [[[]|e|] w1].
Qed.

(** Each pass of the loop that returns has advanced the cycle by one. *)
Lemma sync_while_alive_counts alive :
  forall w w',
    sync_while_alive alive w = (Ok tt, w') ->
    cycle (w_self w') = (cycle (w_self w) + alive)%nat.
Proof.
induction alive as [|alive IH]; intros w w' H; cbn [sync_while_alive] in H.
- injection H as <-. now rewrite Nat.add_0_r.
- rewrite bind_modify in H.
  apply (bind_inv same_cycle) in H;
    [|apply steady_same_cycle, Scheduler.keeps_sleep_until_next_sync].
  destruct H as [(? & w1 & Hq1 & H)|[_ Hno]]; [|now destruct (Hno tt)].
  apply (bind_inv same_cycle) in H; [|apply steady_same_cycle, keeps_do_sync].
  destruct H as [(? & w2 & Hq2 & H)|[_ Hno]]; [|now destruct (Hno tt)].
  apply IH in H. unfold same_cycle in Hq1, Hq2. rewrite H, Hq2, Hq1.
  cbn. lia.
Qed.

Lemma conduct_trial_counts alive w w' :
  conduct_trial alive w = (Ok tt, w') ->
  cycle (w_self w') = (cycle (w_self w) + alive)%nat.
Proof.
unfold conduct_trial. intros H.
pose proof (steady_same_cycle _ keeps_initialize_directories) as K1.
pose proof (steady_same_cycle _ keeps_set_up_corpus_directories) as K2.
pose proof (steady_same_cycle _ keeps_do_sync) as K3.
assert (K5 : forall b : bool, keeps same_cycle (if b then time_sleep 5 else ret tt)).
{ intros [|]; [apply steady_same_cycle, keeps_time_sleep
              |apply keeps_ret, same_cycle_refl]. }
apply (bind_inv same_cycle) in H; [|exact K1].
destruct H as [(? & w1 & Hq1 & H)|[_ Hno]]; [|now destruct (Hno tt)].
unfold logs_info at 1 in H. rewrite bind_modify in H.
apply (bind_inv same_cycle) in H; [|exact K2].
destruct H as [(? & w2 & Hq2 & H)|[_ Hno]]; [|now destruct (Hno tt)].
rewrite !bind_gets in H.
apply (bind_inv same_cycle) in H; [|exact K3].
destruct H as [(? & w3 & Hq3 & H)|[_ Hno]]; [|now destruct (Hno tt)].
apply (bind_inv same_cycle) in H; [|apply K5].
destruct H as [(? & w4 & Hq4 & H)|[_ Hno]]; [|now destruct (Hno tt)].
unfold bind at 1 in H.
destruct (sync_while_alive alive w4) as [[[]|e|] w5] eqn:Hloop;
  try discriminate H.
apply sync_while_alive_counts in Hloop.
apply (bind_inv same_cycle) in H;
  [|apply same_cycle_in_thread, same_cycle_run_fuzzer].
destruct H as [(? & w6 & Hq6 & H)|[_ Hno]]; [|now destruct (Hno tt)].
unfold logs_info at 1 in H. rewrite bind_modify in H.
pose proof (K3 (add_log (Log INFO "Doing final sync." []) w6)) as Hq7.
rewrite H in Hq7. unfold same_cycle in *. cbn [snd w_self add_log] in *.
change (w_self (add_log (Log INFO "Starting trial." []) w1)) with (w_self w1)
  in Hq2.
change (w_self (add_log (Log INFO "Doing final sync." []) w6)) with (w_self w6)
  in Hq7.
congruence.
Qed.

(** X13.  The cycle number counts the passes of the loop and nothing else: a trial
    that completes after the fuzz thread was found alive [alive] times ends
    in cycle [alive]; the sync before the loop and the final sync do not
    advance it. *)
Theorem trial_counts_loop_passes :
  forall (alive : nat) (w w' : world) (c : Z),
    main alive w = (Ok c, w') ->
    cycle (w_self w') = alive.
Proof.
intros alive w w' c Hmain. rewrite main_run in Hmain.
set (w0 := add_log (Log INFO "Doing trial as part of experiment." []) w) in *.
unfold bind in Hmain at 1.
destruct (Archiver.TrialRunner__init__ get_trial_bucket_dir w0)
  as [[[]|e|] w1] eqn:Hinit; try discriminate Hmain.
assert (Hzero : cycle (w_self w1) = 0%nat).
{ revert Hinit. unfold Archiver.TrialRunner__init__. rewrite bind_gets.
  intros Hinit. apply (bind_inv (fun _ _ => True)) in Hinit;
    [|intros ?; exact I].
  destruct Hinit as [(g & w2 & _ & Hinit)|[_ Hno]]; [|now destruct (Hno tt)].
  unfold os_path_abspath in Hinit. rewrite !bind_gets in Hinit.
  injection Hinit as <-. reflexivity. }
destruct (conduct_trial alive w1) as [[[]|e|] wT] eqn:Htrial;
  try discriminate Hmain.
apply conduct_trial_counts in Htrial. injection Hmain as _ <-.
rewrite Htrial, Hzero. reflexivity.
Qed.
End WithCollaborators.

Definition trial_tree : node :=
  Dir [("seeds", Dir [("a", File 1 (Seeds.bytes "GIF89a"))]);
       ("out", Dir [])].

Definition trial_world (status : Z) (faults : list (option exn)) : world :=
  World trial_tree []
        (Environ "afl" "libpng" false false (Some (Abs ["out"]))
                 (Some (Abs ["seeds"])) (Some 60%Z) 0 (Some 1%Z)
                 false false false 0)
        0 faults status [] [] [] false
        (Runner None 0 None (Abs ["corpus-archives"]) (Abs ["results"])
                (Abs ["results"; "fuzzer-log.txt"]) None NegInf).

Abbreviation sample_main binary alive :=
  (main Archiver.sample_name Archiver.sample_bucket 900 Seeds.plain_digest
        (fun _ => binary) (fun _ => false) (fun p => os_path_join p "copy")
        (Abs ["out"]) "gs://corpora/oss-fuzz" "gs://corpora/random"
        "gs://corpora/custom" (fun _ _ fs => fs) (fun _ => None) alive).

(** A runner in its third cycle whose uploads fail: creating and closing the
    archive succeed, the copy to the bucket fails, on each of three
    attempts. *)
Definition failing_upload : list (option exn) :=
  let attempt := [None; None; Some OSError] in
  attempt ++ attempt ++ attempt.

Definition sync_world (faults : list (option exn)) : world :=
  set_faults faults
    (set_self
       (Runner (Some "gs://experiment-data/trial") 3 (Some (Abs ["out"]))
               (Abs ["work"; "corpus-archives"]) (Abs ["work"; "results"])
               (Abs ["work"; "results"; "fuzzer-log.txt"]) None (At 10))
       Archiver.sample_world).

Example do_sync_abandons_failed_cycle :
  let w := sync_world failing_upload in
  let synced := do_sync Archiver.sample_name (fun p => os_path_join p "copy") w in
  fst (archive_and_save_corpus Archiver.sample_name w) = Raise OSError
  /\ fst synced = Ok tt
  /\ w_events (snd synced) = [Slept 3; Slept 3]
  /\ w_logs (snd synced) = [Log ERROR "Failed to sync cycle: %d." [AInt 3]].
Proof. vm_compute. repeat split. Qed.

Definition sample_target : path := Abs ["out"; "fuzz-target"].

Definition sample_execution (status : Z) : event :=
  Executed (Abs ["seeds"]) (Abs ["out"]) sample_target (Some 60%Z) false status.

(** C5 as stated does not hold: with no fuzz target binary the trial runs
    no fuzz process at all, so none exited cleanly, and the exit status is
    nevertheless 0. *)
Lemma exit_zero_without_fuzz_process :
  let run := sample_main None 1 (trial_world 0 []) in
  exit_status (fst run) = Some 0%Z
  /\ executions (snd run) = []
  /\ In (Log ERROR "Fuzz target binary not found." []) (w_logs (snd run)).
Proof.
vm_compute. split; [reflexivity|]. split; [reflexivity|].
do 3 right. left. reflexivity.
Qed.

Lemma sample_failure_recorded :
  In (sample_execution 1)
     (w_events (snd (sample_main (Some sample_target) 1 (trial_world 1 [])))).
Proof. vm_compute. do 2 right. left. reflexivity. Qed.

Lemma sample_missing_binary_returns :
  exists c, fst (sample_main None 1 (trial_world 0 [])) = Ok c.
Proof. eexists. vm_compute. reflexivity. Qed.

Lemma nonzero_exit_is_reported_witness :
  executions (trial_world 1 []) = []
  /\ In (sample_execution 1)
        (w_events (snd (sample_main (Some sample_target) 1 (trial_world 1 []))))
  /\ fst (sample_main (Some sample_target) 1 (trial_world 1 [])) = Ok 1%Z
  /\ fuzzer_errored_out
       (snd (sample_main (Some sample_target) 1 (trial_world 1 []))) = true.
Proof.
assert (Hfresh : executions (trial_world 1 []) = []) by reflexivity.
pose proof sample_failure_recorded as Hin.
assert (Hne : 1%Z <> 0%Z) by discriminate.
remember (sample_main (Some sample_target) 1 (trial_world 1 []))
  as outcome eqn:Hmain.
destruct outcome as [res w']. symmetry in Hmain. cbn [fst snd] in *.
destruct (nonzero_exit_is_reported _ _ _ _ _ _ _ _ _ _ _ _ _ _ _ _ _
            Hfresh Hmain)
  as [Hone _].
destruct (Hone _ _ _ _ _ _ Hin Hne) as (Hres & Hflag & _).
exact (conj Hfresh (conj Hin (conj Hres Hflag))).
Defined.

Lemma missing_binary_is_not_an_error_witness :
  run_fuzzer (fun _ => None) (fun _ => false)
             (Some 60%Z) (Abs ["results"; "fuzzer-log.txt"]) (trial_world 0 [])
  = (Ok tt, add_log (Log ERROR "Fuzz target binary not found." [])
                    (trial_world 0 []))
  /\ fst (sample_main None 1 (trial_world 0 [])) = Ok 0%Z.
Proof.
assert (Hout : OUTPUT_CORPUS_DIR (w_env (trial_world 0 [])) <> None)
  by discriminate.
assert (Hflag : fuzzer_errored_out (trial_world 0 []) = false) by reflexivity.
destruct (missing_binary_is_not_an_error
            Archiver.sample_name Archiver.sample_bucket 900 Seeds.plain_digest
            (fun _ => None) (fun _ => false)
            (fun p => os_path_join p "copy")
            (Abs ["out"]) "gs://corpora/oss-fuzz" "gs://corpora/random"
            "gs://corpora/custom" (fun _ _ fs => fs) (fun _ => None)
            (fun _ => eq_refl)
            (trial_world 0 []) (Some 60%Z) (Abs ["results"; "fuzzer-log.txt"])
            1%nat Hout)
  as [Hrun Hmain].
split; [exact Hrun|].
destruct sample_missing_binary_returns as [c Hc].
remember (sample_main None 1 (trial_world 0 [])) as outcome eqn:Hrunmain.
destruct outcome as [res w']. symmetry in Hrunmain. cbn [fst snd] in *.
subst res. f_equal. exact (Hmain (trial_world 0 []) c w' Hflag Hrunmain).
Defined.

Example save_corpus_archive_sample :
  let w := snd (Archiver.archive_corpus Archiver.sample_name (sync_world [])) in
  let saved := save_corpus_archive Archiver.sample_archive w in
  fst saved = Ok tt
  /\ w_events (snd saved)
     = [Copied Archiver.sample_archive
               [Member (Rel ["queue"; "id:1"]) 12 [];
                Member (Rel ["queue"; ".state"; "v"]) 20 [];
                Member (Rel ["crashes"; "c0"]) 11 []]
               "gs://experiment-data/trial/corpus/corpus-archive.tar.gz"]
  /\ w_archives (snd saved) = [].
Proof. vm_compute. repeat split. Qed.

(** A trial on a development machine. *)
Definition dev_world : world :=
  World trial_tree []
        (Environ "afl" "libpng" true false (Some (Abs ["out"]))
                 (Some (Abs ["seeds"])) (Some 60%Z) 0 None
                 false false false 0)
        0 [] 0 [] [] [] false
        (Runner None 0 None (Abs ["corpus-archives"]) (Abs ["results"])
                (Abs ["results"; "fuzzer-log.txt"]) None NegInf).

Lemma trial_outside_experiment_is_local_witness :
  remote_events (snd (sample_main (Some sample_target) 2 dev_world))
  = remote_events dev_world.
Proof.
remember (sample_main (Some sample_target) 2 dev_world) as outcome eqn:Hmain.
destruct outcome as [res w']. symmetry in Hmain. cbn [snd].
exact (trial_outside_experiment_is_local _ _ _ _ _ _ _ _ _ _ _ _ _
         2 dev_world w' res
         eq_refl Hmain).
Defined.

Lemma sample_trial_completes :
  exists c w', sample_main (Some sample_target) 2 dev_world = (Ok c, w').
Proof. eexists _, _. vm_compute. reflexivity. Qed.

Lemma trial_counts_loop_passes_witness :
  exists c w',
    sample_main (Some sample_target) 2 dev_world = (Ok c, w')
    /\ cycle (w_self w') = 2%nat.
Proof.
destruct sample_trial_completes as (c & w' & Hmain).
exists c, w'. split; [exact Hmain|].
exact (trial_counts_loop_passes _ _ _ _ _ _ _ _ _ _ _ _ _
         2 dev_world w' c Hmain).
Defined.

End Supervisor.
